(** * Easy3D: the RealCamera tutorial viewer and the convex polygon partition

    Part I  ([Module RealCamera]) embeds
    [src/tutorials/Tutorial_304_RealCamera/real_camera.cpp]:
    [RealCamera::KRT_to_camera], [RealCamera::load_image] and
    [RealCamera::key_press_event], with the viewer state passed explicitly.

    Part II ([Module PolygonPartition]) is about the facade declared in
    [src/easy3d/core/polygon_partition.h]. *)

From Stdlib Require Import Reals Lra ZArith NArith QArith Qabs Lqa.
From Stdlib Require Import List String Lia Bool Sorted Permutation.
Import ListNotations.

(* ===================================================================== *)
(** * Part I: RealCamera                                                  *)
(* ===================================================================== *)

Module RealCamera.

Local Open Scope R_scope.

(** ** Data *)

(** [vec3] of floats.  A [float] is read as the real number it denotes; the
    only float operation whose result is not a number here is the quotient
    by zero of [KRT_to_camera], which is tracked explicitly (see [vdiv]). *)
Record vec3 : Type := mkvec3 { vx : R; vy : R; vz : R }.

Record quat : Type := mkquat { qx : R; qy : R; qz : R; qw : R }.

(** [struct CameraPara] of real_camera.h: image size as [int], the intrinsic
    and extrinsic parameters as [float]. *)
Record CameraPara : Type := mkCameraPara {
  w : Z; h : Z;
  fx : R; fy : R; cx : R; cy : R;
  rx : R; ry : R; rz : R;
  tx : R; ty : R; tz : R
}.

(** The part of [easy3d::Camera] that [KRT_to_camera] writes.  An orientation
    or a position is [None] when it was computed from the quotient by a zero
    angle, that is when its components are not numbers. *)
Record Camera : Type := mkCamera {
  orientation : option quat;
  position : option vec3;
  fieldOfView : R
}.

Definition setOrientation (q : option quat) (c : Camera) : Camera :=
  mkCamera q (position c) (fieldOfView c).

Definition setPosition (p : option vec3) (c : Camera) : Camera :=
  mkCamera (orientation c) p (fieldOfView c).

Definition setFieldOfView (f : R) (c : Camera) : Camera :=
  mkCamera (orientation c) (position c) f.

(** ** Vector operations used by the source *)

Definition vneg (v : vec3) : vec3 := mkvec3 (- vx v) (- vy v) (- vz v).

(** [Vec<3,float>::length()]: the Euclidean norm. *)
Definition length (v : vec3) : R :=
  sqrt (vx v * vx v + vy v * vy v + vz v * vz v).

(** [rot_vec / angle]: the component-wise quotient.  The source divides
    without looking at [angle]; the model records whether the divisor was
    zero: [None] is the result of dividing by zero. *)
Definition vdiv (v : vec3) (a : R) : option vec3 :=
  if Req_dec_T a 0 then None
  else Some (mkvec3 (vx v / a) (vy v / a) (vz v / a)).

(** ** [std::size_t] *)

Definition SIZE_BITS : N := 64.
Definition SIZE_MAX1 : N := 2 ^ SIZE_BITS.

(** Unsigned addition and remainder on [std::size_t]. *)
Definition size_add (a b : N) : N := ((a + b) mod SIZE_MAX1)%N.
Definition size_rem (a b : N) : N := (a mod b)%N.

(** ** GLFW key codes (glfw3.h) *)

Definition GLFW_KEY_SPACE : Z := 32.
Definition GLFW_KEY_1 : Z := 49.
Definition GLFW_KEY_2 : Z := 50.
Definition GLFW_KEY_H : Z := 72.

(** The base class [easy3d::Viewer], the texture class and the library
    routines the three methods call are outside the file; this interface
    lists them as they are used. *)
Class Library (Viewer Texture : Type) : Type := {
  set_title : string -> Viewer -> Viewer;
  resize : Z -> Z -> Viewer -> Viewer;
  update : Viewer -> Viewer;
  Viewer_key_press_event : Z -> Z -> Viewer -> bool * Viewer;
  (* [current_model()->lines_drawable("cameras")]: its visibility when the
     drawable exists, and the setter *)
  cameras_drawable_visible : Viewer -> option bool;
  set_cameras_drawable_visible : bool -> Viewer -> Viewer;
  set_from_calibration :
    R -> R -> R -> R -> R -> vec3 -> vec3 -> Camera -> Camera;
  (* [quat(axis, angle)] and [quat::rotate] *)
  quat_axis_angle : vec3 -> R -> quat;
  rotate : quat -> vec3 -> vec3;
  resource_directory : string;
  (* [string::from_integer(v, 4, '0')] and [std::to_string] *)
  from_integer : N -> string;
  to_string : N -> string;
  is_file : string -> bool;
  Texture_create : string -> option Texture;
  (* [c.w * 0.3] converted back to [int] *)
  scale_03 : Z -> Z
}.

Section Viewer.

Context {Viewer Texture : Type} {L : Library Viewer Texture}.

(** The members of [RealCamera]; [camera_] is the camera owned by the
    viewer ([camera()]), [out] collects what is written to [std::cout] and
    [std::cerr]. *)
Record State : Type := mkState {
  base : Viewer;
  camera_ : Camera;
  views_ : list CameraPara;
  current_view_ : N;
  texture_ : option Texture;
  out : list string
}.

Definition views_size (st : State) : N := N.of_nat (List.length (views_ st)).

Definition with_base (f : Viewer -> Viewer) (st : State) : State :=
  mkState (f (base st)) (camera_ st) (views_ st) (current_view_ st)
          (texture_ st) (out st).

Definition with_camera (c : Camera) (st : State) : State :=
  mkState (base st) c (views_ st) (current_view_ st) (texture_ st) (out st).

Definition with_current_view (i : N) (st : State) : State :=
  mkState (base st) (camera_ st) (views_ st) i (texture_ st) (out st).

Definition with_texture (t : option Texture) (st : State) : State :=
  mkState (base st) (camera_ st) (views_ st) (current_view_ st) t (out st).

Definition print (s : string) (st : State) : State :=
  mkState (base st) (camera_ st) (views_ st) (current_view_ st)
          (texture_ st) (out st ++ [s]).

(** [RealCamera::load_image] *)
Definition load_image (st : State) : State :=
  let image_file :=
    (resource_directory ++ "/data/fountain/images/"
       ++ from_integer (current_view_ st) ++ ".jpg")%string in
  let st1 :=
    if is_file image_file
    then with_texture (Texture_create image_file) st
    else st in
  with_base update st1.

(** The body of the [method == 2] branch. *)
Definition method2 (cam : CameraPara) (c : Camera) : Camera :=
  let rot_vec := mkvec3 (- rx cam) (- ry cam) (- rz cam) in
  let angle := length rot_vec in
  let q := option_map (fun axis => quat_axis_angle axis angle)
                      (vdiv rot_vec angle) in
  let c1 := setOrientation q c in
  let pos := mkvec3 (tx cam) (ty cam) (tz cam) in
  let c2 := setPosition (option_map (fun q' => vneg (rotate q' pos)) q) c1 in
  let proj_5th := 2 * fy cam / IZR (h cam) in
  setFieldOfView (2 * atan (1 / proj_5th)) c2.

(** [RealCamera::KRT_to_camera(view_index, method, c)]: the returned flag,
    the camera [*c] after the call, and the viewer after the call. *)
Definition KRT_to_camera (st : State) (view_index : N) (method : Z)
    (c : Camera) : bool * Camera * State :=
  if ((view_index <? 0) || (views_size st <=? view_index))%N then
    (false, c,
     print ("Error: invalid view index (" ++ to_string view_index ++ ")") st)
  else
    match nth_error (views_ st) (N.to_nat view_index) with
    | None => (false, c, st)   (* not reached: the index is in range *)
    | Some cam =>
        let c' :=
          if (method =? 1)%Z then
            set_from_calibration (fx cam) (fy cam) 0 (cx cam) (cy cam)
              (mkvec3 (rx cam) (ry cam) (rz cam))
              (mkvec3 (tx cam) (ty cam) (tz cam)) c
          else if (method =? 2)%Z then method2 cam c
          else c in
        (true, c', load_image st)
    end.

(** The body shared by the keys '1' and '2'. *)
Definition show_view (method : Z) (st : State) : State :=
  let '(ok, c', st1) :=
    KRT_to_camera st (current_view_ st) method (camera_ st) in
  let st2 := with_camera c' st1 in
  if ok then
    let st3 := print ("----- view " ++ to_string (current_view_ st2)
                        ++ " ------") st2 in
    match nth_error (views_ st3) (N.to_nat (current_view_ st3)) with
    | None => st3
    | Some c => with_base update
                  (with_base (resize (scale_03 (w c)) (scale_03 (h c))) st3)
    end
  else st2.

(** [RealCamera::key_press_event(key, modifiers)] *)
Definition key_press_event (key modifiers : Z) (st : State) : bool * State :=
  if (key =? GLFW_KEY_SPACE)%Z then
    if negb (views_size st =? 0)%N then
      let st0 :=
        with_current_view
          (size_rem (size_add (current_view_ st) 1) (views_size st)) st in
      let '(ok, c', st1) :=
        KRT_to_camera st0 (current_view_ st0) 2 (camera_ st0) in
      let st2 := with_camera c' st1 in
      if ok then
        let st3 := print ("----- view " ++ to_string (current_view_ st2)
                            ++ " ------") st2 in
        let st4 := with_base
                     (set_title ("RealCamera: View_"
                                   ++ to_string (current_view_ st3))) st3 in
        match nth_error (views_ st4) (N.to_nat (current_view_ st4)) with
        | None => (true, st4)
        | Some c =>
            (true,
             with_base (resize (scale_03 (w c)) (scale_03 (h c))) st4)
        end
      else (true, st2)
    else (true, st)
  else if (key =? GLFW_KEY_1)%Z then
    if negb (views_size st =? 0)%N then (true, show_view 1 st)
    else (true, st)
  else if (key =? GLFW_KEY_2)%Z then
    if negb (views_size st =? 0)%N then (true, show_view 2 st)
    else (true, st)
  else if (key =? GLFW_KEY_H)%Z then
    match cameras_drawable_visible (base st) with
    | Some v =>
        (true,
         with_base update
           (with_base (set_cameras_drawable_visible (negb v)) st))
    | None => (true, st)
    end
  else
    let '(r, b') := Viewer_key_press_event key modifiers (base st) in
    (r, with_base (fun _ => b') st).

(** The constructor sets [current_view_(0)] and fills [views_] from the
    bundler file; a [std::vector] has fewer than [2^64] elements. *)
Definition initial (st : State) : Prop :=
  current_view_ st = 0%N /\ (views_size st < SIZE_MAX1)%N.

(** The states the viewer goes through: the initial one, then one
    [key_press_event] after the other. *)
Inductive reachable : State -> Prop :=
| reach_init (st : State) : initial st -> reachable st
| reach_key (st : State) (key modifiers : Z) :
    reachable st -> reachable (snd (key_press_event key modifiers st)).

(** The invariant of the state machine: the vector fits [std::size_t], and
    [current_view_] is [0] or an index of [views_]. *)
Definition wf (st : State) : Prop :=
  (views_size st < SIZE_MAX1)%N /\
  (current_view_ st = 0 \/ current_view_ st < views_size st)%N.

(** [current_view_] indexes [views_] whenever there is a view at all. *)
Definition current_view_in_bounds (st : State) : Prop :=
  views_ st <> [] -> (0 <= current_view_ st < views_size st)%N.

End Viewer.

Arguments State : clear implicits.

(** A viewer with nothing behind it, to run the methods on concrete views. *)
Definition bare_library : Library unit unit := {|
  set_title := fun _ v => v;
  resize := fun _ _ v => v;
  update := fun v => v;
  Viewer_key_press_event := fun _ _ v => (false, v);
  cameras_drawable_visible := fun _ => None;
  set_cameras_drawable_visible := fun _ v => v;
  set_from_calibration := fun _ _ _ _ _ _ _ c => c;
  quat_axis_angle := fun v a => mkquat (vx v) (vy v) (vz v) a;
  rotate := fun _ v => v;
  resource_directory := "";
  from_integer := fun _ => ""%string;
  to_string := fun _ => ""%string;
  is_file := fun _ => false;
  Texture_create := fun _ => None;
  scale_03 := fun z => z
|}.

Definition view_x : CameraPara := mkCameraPara 4 3 1 1 0 0 1 0 0 0 0 0.
Definition view_0 : CameraPara := mkCameraPara 4 3 1 1 0 0 0 0 0 0 0 0.

Definition camera_0 : Camera :=
  mkCamera (Some (mkquat 0 0 0 1)) (Some (mkvec3 0 0 0)) 0.

Definition state_of (vs : list CameraPara) (cur : N) : State unit unit :=
  mkState tt camera_0 vs cur None [].

End RealCamera.

(* ===================================================================== *)
(** * Part I, continued: the constructor, the camera frusta, the image    *)
(* ===================================================================== *)

(** The rest of [real_camera.cpp]: the constructor [RealCamera::RealCamera],
    [RealCamera::create_cameras_drawable] and [RealCamera::draw_image], on
    the state of [Module RealCamera]. *)

Module RealCameraScene.
Import RealCamera.

(** ** Floats of [draw_image]

    [draw_image] only adds, multiplies, divides and compares floats made
    from [int]s, so its floats are read as rationals.  A quotient by zero is
    no rational: [fdiv] returns [None] for it. *)

Definition fdiv (a b : Q) : option Q :=
  if Qeq_bool b 0 then None else Some (a / b)%Q.

(** [static_cast<int>(q)]: the fractional part is dropped. *)
Definition to_int (q : Q) : Z := Z.quot (Qnum q) (Z.pos (Qden q)).

(** [ShaderProgram::AttribType], the two values the file names. *)
Inductive AttribType : Type := POSITION | TEXCOORD.

(** What the rest of the file calls and does not define. *)
Class Scene (Viewer Texture : Type) : Type := {
  mat4 : Type;
  Program : Type;
  (* [Viewer(title, 4, 3, 2, false, false)]: the base object and the camera
     it owns *)
  Viewer_new : string -> Viewer * Camera;
  add_model : string -> Viewer -> bool * Viewer;
  (* on [current_model()->points_drawable("vertices")] *)
  set_per_vertex_color : bool -> Viewer -> Viewer;
  set_point_size : R -> Viewer -> Viewer;
  (* [RealCamera::read_bundler_file], defined in another file: the flag it
     returns and what it leaves in [views_] *)
  read_bundler_file : string -> list CameraPara -> bool * list CameraPara;
  setUpVector : vec3 -> Camera -> Camera;
  setViewDirection : vec3 -> Camera -> Camera;
  showEntireScene : Camera -> Camera;
  (* [Camera c;] *)
  Camera_new : Camera;
  sceneRadius : Camera -> R;
  (* [opengl::prepare_camera(points, width, hw_ratio)] on an empty vector *)
  prepare_camera : R -> R -> list vec3;
  worldMatrix : Camera -> mat4;
  mat4_mul : mat4 -> vec3 -> vec3;
  (* on [current_model()->lines_drawable("cameras")] *)
  add_cameras_drawable : Viewer -> Viewer;
  update_vertex_buffer : list vec3 -> Viewer -> Viewer;
  set_default_color : vec3 -> Viewer -> Viewer;
  set_line_width : R -> Viewer -> Viewer;
  (* [ShaderManager] *)
  get_program : string -> option Program;
  create_program_from_files :
    string -> list (AttribType * string) -> option Program;
  Texture_width : Texture -> Z;
  Texture_height : Texture -> Z;
  (* [Viewer::width()] and [Viewer::height()] *)
  width : Viewer -> Z;
  height : Viewer -> Z
}.

(** What [draw_image] puts on the screen. *)
Inductive Drawn (Program Texture : Type) : Type :=
| Nothing
    (* the method returned before [draw_quad] *)
| Quad (program : Program) (texture : Texture)
       (x y w h vw vh : Z) (depth : Q)
    (* [draw_quad(POSITION, TEXCOORD, x, y, w, h, vw, vh, depth)] with the
       program and the texture bound *)
| NotANumber.
    (* a float quotient by zero was taken on the way *)

Arguments Nothing {Program Texture}.
Arguments Quad {Program Texture}.
Arguments NotANumber {Program Texture}.

Section Scene.

Context {Viewer Texture : Type} {L : Library Viewer Texture}
        {Sc : Scene Viewer Texture}.

Local Abbreviation St := (State Viewer Texture).

Definition with_views (vs : list CameraPara) (st : St) : St :=
  mkState (base st) (camera_ st) vs (current_view_ st) (texture_ st) (out st).

(** The [for] loop of [create_cameras_drawable], from index [i] on, with the
    vertices collected so far.  [fuel] bounds the number of iterations; the
    loop leaves through its test [i < views_.size()]. *)
Fixpoint cameras_loop (fuel : nat) (i : N) (vertices : list vec3) (st : St)
    : list vec3 * St :=
  match fuel with
  | O => (vertices, st)
  | S fuel' =>
      if (i <? views_size st)%N then
        let '(_, c, st1) := KRT_to_camera st i 1 Camera_new in
        match nth_error (views_ st1) (N.to_nat i) with
        | None => (vertices, st1)   (* not reached: the index is in range *)
        | Some v =>
            let points :=
              prepare_camera (sceneRadius (camera_ st1) * (3 / 100))%R
                             (IZR (h v) / IZR (w v))%R in
            let m := worldMatrix c in
            cameras_loop fuel' (size_add i 1)
              (vertices ++ map (mat4_mul m) points) st1
        end
      else (vertices, st)
  end.

(** The vertices the loop makes for one view: the points of
    [prepare_camera] moved by the world matrix of a fresh camera set from
    the view by method 1. *)
Definition frustum (st : St) (v : CameraPara) : list vec3 :=
  map (mat4_mul
         (worldMatrix
            (set_from_calibration (fx v) (fy v) 0 (cx v) (cy v)
               (mkvec3 (rx v) (ry v) (rz v))
               (mkvec3 (tx v) (ty v) (tz v)) Camera_new)))
      (prepare_camera (sceneRadius (camera_ st) * (3 / 100))%R
                      (IZR (h v) / IZR (w v))%R).

(** [RealCamera::create_cameras_drawable] *)
Definition create_cameras_drawable (st : St) : St :=
  let '(vertices, st1) :=
    cameras_loop (S (List.length (views_ st))) 0 [] st in
  let b := base st1 in
  let b1 := match cameras_drawable_visible b with
            | Some _ => b
            | None => add_cameras_drawable b
            end in
  with_base
    (fun _ => set_line_width 2%R
                (set_default_color (mkvec3 0 0 1)
                   (update_vertex_buffer vertices b1))) st1.

(** [RealCamera::RealCamera(title, bundler_file, cloud_file)] *)
Definition RealCamera_new (title bundler_file cloud_file : string) : St :=
  let '(b0, c0) := Viewer_new title in
  let st0 := mkState b0 c0 [] 0%N None [] in
  let '(ok, b1) := add_model cloud_file (base st0) in
  let st1 := with_base (fun _ => b1) st0 in
  if ok then
    let st2 :=
      with_base (fun b => set_point_size 5%R (set_per_vertex_color true b))
                st1 in
    let '(ok2, vs) := read_bundler_file bundler_file (views_ st2) in
    let st3 := with_views vs st2 in
    let st4 :=
      if ok2 then create_cameras_drawable st3
      else print "Error: failed load bundler file." st3 in
    with_camera
      (showEntireScene
         (setViewDirection (mkvec3 0 0 (-1))
            (setUpVector (mkvec3 0 1 0) (camera_ st4)))) st4
  else print "Error: failed load point cloud." st1.

(** The shader program of [draw_image]: the one the manager has under the
    name of the quad, or else the one it creates from the files. *)
Definition quad_program : option Program :=
  let quad_name := "screen_space/quad_color_texture"%string in
  match get_program quad_name with
  | Some p => Some p
  | None =>
      create_program_from_files quad_name
        [(POSITION, "vertexMC"%string); (TEXCOORD, "tcoordMC"%string)]
  end.

(** [RealCamera::draw_image] *)
Definition draw_image (st : St) : Drawn Program Texture :=
  match texture_ st with
  | None => Nothing
  | Some t =>
      match quad_program with
      | None => Nothing
      | Some p =>
          let w := Texture_width t in
          let h := Texture_height t in
          let vw := width (base st) in
          let vh := height (base st) in
          match fdiv (inject_Z w) (inject_Z h),
                fdiv (inject_Z vw) (inject_Z vh) with
          | Some image_as, Some viewer_as =>
              if Qlt_le_dec image_as viewer_as then
                let h' := to_int (inject_Z vh * (1 # 2))%Q in
                let w' := to_int (inject_Z h' * image_as)%Q in
                Quad p t 0 0 w' h' vw vh (- (9 # 10))%Q
              else
                let w' := to_int (inject_Z vw * (1 # 2))%Q in
                match fdiv (inject_Z w') image_as with
                | Some q => Quad p t 0 0 w' (to_int q) vw vh (- (9 # 10))%Q
                | None => NotANumber
                end
          | _, _ => NotANumber
          end
      end
  end.

(** One key after the other, each with its modifiers. *)
Definition press_keys (keys : list (Z * Z)) (st : St) : St :=
  fold_left (fun s km => snd (key_press_event (fst km) (snd km) s)) keys st.

(** The number of Space keys in a sequence. *)
Definition spaces (keys : list (Z * Z)) : N :=
  N.of_nat (List.length
              (filter (fun km => (fst km =? GLFW_KEY_SPACE)%Z) keys)).

(** The image file [load_image] looks for when the current view is [i]. *)
Definition image_file (i : N) : string :=
  (resource_directory ++ "/data/fountain/images/"
     ++ from_integer i ++ ".jpg")%string.

(** The texture is null, or the one [Texture::create] made from the image
    file of a view. *)
Definition texture_from_view (st : St) : Prop :=
  texture_ st = None \/
  exists i : N,
    (i < views_size st)%N /\ is_file (image_file i) = true /\
    texture_ st = Texture_create (image_file i).

End Scene.

(** ** A window to run the methods on

    A viewer that is its window size and the visibility of the drawable
    "cameras" (if there is one); a texture that is its size in pixels; every
    image file exists. *)

Record Window : Type := mkWindow {
  win_w : Z; win_h : Z; win_cameras : option bool
}.

Definition window_library : Library Window (Z * Z) := {|
  set_title := fun _ v => v;
  resize := fun a b v => mkWindow a b (win_cameras v);
  update := fun v => v;
  Viewer_key_press_event := fun _ _ v => (false, v);
  cameras_drawable_visible := win_cameras;
  set_cameras_drawable_visible :=
    fun b v => mkWindow (win_w v) (win_h v) (Some b);
  set_from_calibration := fun _ _ _ _ _ _ _ c => c;
  quat_axis_angle := fun v a => mkquat (vx v) (vy v) (vz v) a;
  rotate := fun _ v => v;
  resource_directory := "";
  from_integer := fun _ => ""%string;
  to_string := fun _ => ""%string;
  is_file := fun _ => true;
  Texture_create := fun _ => Some (3072, 2048)%Z;
  scale_03 := fun z => (z * 3 / 10)%Z
|}.

Definition window_scene : Scene Window (Z * Z) := {|
  mat4 := unit;
  Program := unit;
  Viewer_new := fun _ => (mkWindow 800 600 None, camera_0);
  add_model := fun _ v => (true, v);
  set_per_vertex_color := fun _ v => v;
  set_point_size := fun _ v => v;
  read_bundler_file := fun _ _ => (true, [view_x; view_0]);
  setUpVector := fun _ c => c;
  setViewDirection := fun _ c => c;
  showEntireScene := fun c => c;
  Camera_new := camera_0;
  sceneRadius := fun _ => 1%R;
  prepare_camera := fun _ _ => [mkvec3 0 0 0; mkvec3 1 0 0];
  worldMatrix := fun _ => tt;
  mat4_mul := fun _ p => p;
  add_cameras_drawable := fun v => mkWindow (win_w v) (win_h v) (Some true);
  update_vertex_buffer := fun _ v => v;
  set_default_color := fun _ v => v;
  set_line_width := fun _ v => v;
  get_program := fun _ => Some tt;
  create_program_from_files := fun _ _ => Some tt;
  Texture_width := fst;
  Texture_height := snd;
  width := win_w;
  height := win_h
|}.

(** A scene in which no point cloud loads. *)
Definition cloudless_scene : Scene Window (Z * Z) := {|
  mat4 := unit;
  Program := unit;
  Viewer_new := fun _ => (mkWindow 800 600 None, camera_0);
  add_model := fun _ v => (false, v);
  set_per_vertex_color := fun _ v => v;
  set_point_size := fun _ v => v;
  read_bundler_file := fun _ _ => (true, [view_x; view_0]);
  setUpVector := fun _ c => c;
  setViewDirection := fun _ c => c;
  showEntireScene := fun c => c;
  Camera_new := camera_0;
  sceneRadius := fun _ => 1%R;
  prepare_camera := fun _ _ => [mkvec3 0 0 0; mkvec3 1 0 0];
  worldMatrix := fun _ => tt;
  mat4_mul := fun _ p => p;
  add_cameras_drawable := fun v => mkWindow (win_w v) (win_h v) (Some true);
  update_vertex_buffer := fun _ v => v;
  set_default_color := fun _ v => v;
  set_line_width := fun _ v => v;
  get_program := fun _ => None;
  create_program_from_files := fun _ _ => None;
  Texture_width := fst;
  Texture_height := snd;
  width := win_w;
  height := win_h
|}.

Definition window_state (vs : list CameraPara) (cur : N)
    (t : option (Z * Z)) : State Window (Z * Z) :=
  mkState (mkWindow 800 600 None) camera_0 vs cur t [].

End RealCameraScene.

(* ===================================================================== *)
(** * Part II: PolygonPartition                                           *)
(* ===================================================================== *)

(** [src/easy3d/core/polygon_partition.h] declares the three operations
    [apply_OPT], [apply_HM] and [apply]; their bodies are not in the
    sources at hand.  The definitions below that stand for those bodies
    follow the design document of the partition (sections 4.1 to 4.7) and
    say so. Coordinates are rationals (every [float] is one) and the
    arithmetic on them is exact. *)

Module PolygonPartition.

Local Open Scope Q_scope.

(** ** Data (polygon_partition.h) *)

(** [vec2]: a point of the plane. *)
Record vec2 : Type := mkvec2 { x : Q; y : Q }.

(** [typedef std::vector<std::size_t> Polygon]: a polygon given by the
    indices of its vertices. *)
Definition Polygon : Type := list nat.

Inductive Turn : Type := LeftTurn | RightTurn | Collinear.

Definition Turn_eqb (s t : Turn) : bool :=
  match s, t with
  | LeftTurn, LeftTurn | RightTurn, RightTurn | Collinear, Collinear => true
  | _, _ => false
  end.

Definition Qlt_bool (a b : Q) : bool := negb (Qle_bool b a).

Definition vec2_eqb (p q : vec2) : bool :=
  Qeq_bool (x p) (x q) && Qeq_bool (y p) (y q).

(** Cyclic successor list: [rot1 [a; b; c] = [b; c; a]]. *)
Definition rot1 {A : Type} (l : list A) : list A :=
  match l with
  | [] => []
  | a :: t => t ++ [a]
  end.

(** The directed edges of a closed loop. *)
Definition edges {A : Type} (l : list A) : list (A * A) := combine l (rot1 l).

(** The consecutive triples (previous, vertex, next) of a closed loop. *)
Definition corners {A : Type} (l : list A) : list (A * A * A) :=
  combine (combine l (rot1 l)) (rot1 (rot1 l)).

Definition Qsum (l : list Q) : Q := fold_right Qplus 0 l.

Section Geometry.

(** The tolerance of the orientation test and the shared point table. *)
Variable eps : Q.
Variable points : list vec2.

Definition pt (i : nat) : vec2 := nth i points (mkvec2 0 0).

(** ** 4.1 Geometry predicates *)

(** Modelled from the spec: the cross product of [b - a] and [c - b]
    (section 4.1); the source of the predicates is not at hand. *)
Definition cross (a b c : vec2) : Q :=
  (x b - x a) * (y c - y b) - (y b - y a) * (x c - x b).

(** Modelled from the spec: [orientation(a,b,c)] of section 4.1, the sign of
    the cross product, a cross product within [eps] of zero being
    collinear. *)
Definition orientation (a b c : vec2) : Turn :=
  if Qlt_bool eps (cross a b c) then LeftTurn
  else if Qlt_bool (cross a b c) (- eps) then RightTurn
  else Collinear.

(** The turn at vertex [j] coming from [i] and going to [k]. *)
Definition turn (i j k : nat) : Turn := orientation (pt i) (pt j) (pt k).

(** Modelled from the spec: [is_reflex] of section 4.1, a right turn in a
    counter-clockwise polygon. *)
Definition is_reflex (i j k : nat) : bool := Turn_eqb (turn i j k) RightTurn.

Definition opposite (s t : Turn) : bool :=
  match s, t with
  | LeftTurn, RightTurn | RightTurn, LeftTurn => true
  | _, _ => false
  end.

(** Modelled from the spec: [segments_intersect] of section 4.1, the proper
    intersection of the segments [p1 p2] and [p3 p4] (a shared endpoint or a
    touching endpoint is not one). *)
Definition segments_intersect (p1 p2 p3 p4 : vec2) : bool :=
  opposite (orientation p1 p2 p3) (orientation p1 p2 p4)
  && opposite (orientation p3 p4 p1) (orientation p3 p4 p2).

(** Modelled from the spec: [point_in_triangle] of section 4.1 for a
    counter-clockwise triangle [a b c], the boundary included. *)
Definition point_in_triangle (a b c p : vec2) : bool :=
  negb (Turn_eqb (orientation a b p) RightTurn)
  && negb (Turn_eqb (orientation b c p) RightTurn)
  && negb (Turn_eqb (orientation c a p) RightTurn).

(** Twice the signed area of the loop [poly] (the shoelace sum). *)
Definition area2 (poly : Polygon) : Q :=
  Qsum (map (fun e => x (pt (fst e)) * y (pt (snd e))
                      - x (pt (snd e)) * y (pt (fst e)))
            (edges poly)).

(** One term of the shoelace sum, and the sum along an open path; the sum
    round a loop is [area2]. *)
Definition det (i j : nat) : Q :=
  x (pt i) * y (pt j) - x (pt j) * y (pt i).

Fixpoint psum (l : list nat) : Q :=
  match l with
  | a :: (b :: _) as t => det a b + psum t
  | _ => 0
  end.

(** A loop is convex when no corner is a right turn: all turns have one
    sign, collinear triples being tolerated (section 3, partition
    result). *)
Definition is_convex (poly : Polygon) : bool :=
  forallb (fun t => negb (is_reflex (fst (fst t)) (snd (fst t)) (snd t)))
          (corners poly).

(** ** Validation (section 4.7: at least 3 vertices, simple, CCW) *)

(** No two edges of the loop intersect properly. *)
Definition no_crossing (poly : Polygon) : bool :=
  forallb (fun e =>
    forallb (fun f =>
      negb (segments_intersect (pt (fst e)) (pt (snd e))
                               (pt (fst f)) (pt (snd f))))
      (edges poly))
    (edges poly).

Definition qmin (a b : Q) : Q := if Qle_bool a b then a else b.
Definition qmax (a b : Q) : Q := if Qle_bool a b then b else a.

(** [p] is in the bounding box of the segment [a b]. *)
Definition in_box (a b p : vec2) : bool :=
  Qle_bool (qmin (x a) (x b)) (x p) && Qle_bool (x p) (qmax (x a) (x b))
  && Qle_bool (qmin (y a) (y b)) (y p) && Qle_bool (y p) (qmax (y a) (y b)).

(** [p] is on the closed segment [a b]: collinear with it, as far as
    [orientation] can tell, and in its box. *)
Definition on_segment (a b p : vec2) : bool :=
  Turn_eqb (orientation a b p) Collinear && in_box a b p.

(** [c] and [d] are on one side of the line [a b], off the line. *)
Definition same_side (a b c d : vec2) : bool :=
  (Turn_eqb (orientation a b c) LeftTurn
   && Turn_eqb (orientation a b d) LeftTurn)
  || (Turn_eqb (orientation a b c) RightTurn
      && Turn_eqb (orientation a b d) RightTurn).

Definition boxes_meet (a b c d : vec2) : bool :=
  Qle_bool (qmin (x a) (x b)) (qmax (x c) (x d))
  && Qle_bool (qmin (x c) (x d)) (qmax (x a) (x b))
  && Qle_bool (qmin (y a) (y b)) (qmax (y c) (y d))
  && Qle_bool (qmin (y c) (y d)) (qmax (y a) (y b)).

(** The closed segments [a b] and [c d] have a point in common: neither
    has both ends off the line of the other on one side, and their boxes
    meet.  Within the tolerance the test takes the segments to touch. *)
Definition touches (a b c d : vec2) : bool :=
  negb (same_side a b c d) && negb (same_side c d a b)
  && boxes_meet a b c d.

(** Two edges [a b] and [c d] of one loop lie as the edges of a simple loop
    do: an edge and the next one have their common vertex in common and
    nothing else (neither folds back onto the other), any two other edges
    have nothing in common. *)
Definition edges_apart (a b c d : vec2) : bool :=
  if vec2_eqb a c && vec2_eqb b d then true
  else if vec2_eqb b c
       then negb (on_segment a b d) && negb (on_segment c d a)
  else if vec2_eqb d a
       then negb (on_segment c d b) && negb (on_segment a b c)
  else negb (touches a b c d).

(** No point is met twice along the loop. *)
Fixpoint all_distinct (poly : Polygon) : bool :=
  match poly with
  | [] => true
  | i :: t =>
      forallb (fun j => negb (vec2_eqb (pt i) (pt j))) t && all_distinct t
  end.

(** Modelled from the spec: a simple loop (section 3): no point repeats,
    consecutive points are distinct, and the boundary does not intersect
    itself, whether two edges cross, touch or overlap. *)
Definition is_simple (poly : Polygon) : bool :=
  all_distinct poly && no_crossing poly
  && forallb (fun e =>
       forallb (fun f =>
         edges_apart (pt (fst e)) (pt (snd e)) (pt (fst f)) (pt (snd f)))
         (edges poly))
       (edges poly).

Definition in_range (poly : Polygon) : bool :=
  forallb (fun i => Nat.ltb i (List.length points)) poly.

(** Modelled from the spec: the validation of [apply_OPT] and [apply_HM]
    (section 4.7): at least 3 vertices, simple, counter-clockwise. *)
Definition valid_polygon (poly : Polygon) : bool :=
  Nat.leb 3 (List.length poly) && in_range poly
  && is_simple poly && Qlt_bool 0 (area2 poly).

(** A hole: the same with clockwise order. *)
Definition valid_hole (poly : Polygon) : bool :=
  Nat.leb 3 (List.length poly) && in_range poly
  && is_simple poly && Qlt_bool (area2 poly) 0.

(** ** 4.2 Triangulator *)

(** The vertex [b], between [a] and [c] in what is left of the polygon, is
    an ear: the corner is a left turn and the triangle holds none of the
    other vertices [others]; a vertex lying at a corner of the triangle (a
    bridged loop passes twice through the ends of a bridge) is not another
    vertex. *)
Definition is_ear (a b c : nat) (others : list nat) : bool :=
  Turn_eqb (turn a b c) LeftTurn
  && forallb (fun v =>
       (vec2_eqb (pt v) (pt a) || vec2_eqb (pt v) (pt b)
        || vec2_eqb (pt v) (pt c))
       || negb (point_in_triangle (pt a) (pt b) (pt c) (pt v)))
     others.

(** Scan the vertices in index order for the first ear.  [before] are the
    vertices already passed over, [rest] those still to look at; the result
    is the ear and the polygon without its tip. *)
Fixpoint find_ear (before rest : list nat)
    : option ((nat * nat * nat) * list nat) :=
  match rest with
  | [] => None
  | b :: after =>
      let a := last before (last after b) in
      let c := hd (hd b before) after in
      if is_ear a b c (before ++ after)
      then Some ((a, b, c), before ++ after)
      else find_ear (before ++ [b]) after
  end.

(** Modelled from the spec: [triangulate] of section 4.2, ear clipping with
    the first valid ear in index order, until 3 vertices remain; [None] is
    the failure when no ear exists.  [fuel] bounds the number of clips. *)
Fixpoint triangulate (fuel : nat) (poly : Polygon)
    : option (list (nat * nat * nat)) :=
  match poly with
  | [a; b; c] => Some [(a, b, c)]
  | _ =>
      match fuel with
      | O => None
      | S fuel' =>
          match find_ear [] poly with
          | None => None
          | Some (t, poly') =>
              match triangulate fuel' poly' with
              | None => None
              | Some ts => Some (t :: ts)
              end
          end
      end
  end.

(** ** 4.4 Hertel-Mehlhorn partitioner *)

(** The loop [l] written from [v] to [u] when [l] goes from [u] to [v]
    somewhere (the directed edge [u -> v] is on it); [n] bounds the
    rotations tried. *)
Fixpoint open_at_aux (u v : nat) (n : nat) (l : Polygon) : option Polygon :=
  match n with
  | O => None
  | S n' =>
      match l with
      | [] => None
      | a :: t =>
          if Nat.eqb a v && Nat.eqb (last t a) u then Some l
          else open_at_aux u v n' (rot1 l)
      end
  end.

Definition open_at (u v : nat) (l : Polygon) : option Polygon :=
  open_at_aux u v (List.length l) l.

(** The first region that [f] opens, opened, and the other regions. *)
Fixpoint extract (f : Polygon -> option Polygon) (rs : list Polygon)
    : option (Polygon * list Polygon) :=
  match rs with
  | [] => None
  | r :: rs' =>
      match f r with
      | Some r' => Some (r', rs')
      | None =>
          match extract f rs' with
          | Some (r', rest) => Some (r', r :: rest)
          | None => None
          end
      end
  end.

(** The union of two regions across the diagonal [u v]: [ra] runs from [v]
    to [u] and [rb] from [u] to [v]; the merged loop is [ra] followed by
    the inner vertices of [rb]. *)
Definition merge_regions (ra rb : Polygon) : Polygon :=
  ra ++ removelast (tl rb).

(** Merging is safe when neither endpoint of the diagonal becomes reflex:
    at [u] the corner is (vertex before [u] in [ra], [u], vertex after [u]
    in [rb]), at [v] it is (vertex before [v] in [rb], [v], vertex after
    [v] in [ra]). *)
Definition merge_safe (u v : nat) (ra rb : Polygon) : bool :=
  negb (is_reflex (last (removelast ra) v) u (hd v (tl rb)))
  && negb (is_reflex (last (removelast rb) u) v (hd u (tl ra))).

(** One diagonal of the scan: the two regions it separates are merged when
    that is safe, and left alone otherwise. *)
Definition merge_step (d : nat * nat) (rs : list Polygon) : list Polygon :=
  let (u, v) := d in
  match extract (open_at u v) rs with
  | None => rs
  | Some (ra, rs1) =>
      match extract (open_at v u) rs1 with
      | None => rs
      | Some (rb, rs2) =>
          if merge_safe u v ra rb then merge_regions ra rb :: rs2 else rs
      end
  end.

(** Index pairs in increasing order. *)
Definition pair_leb (d e : nat * nat) : bool :=
  Nat.ltb (fst d) (fst e)
  || (Nat.eqb (fst d) (fst e) && Nat.leb (snd d) (snd e)).

Definition norm_pair (d : nat * nat) : nat * nat :=
  if Nat.leb (fst d) (snd d) then d else (snd d, fst d).

Fixpoint insert_pair (d : nat * nat) (l : list (nat * nat))
    : list (nat * nat) :=
  match l with
  | [] => [d]
  | e :: l' => if pair_leb d e then d :: l else e :: insert_pair d l'
  end.

Definition sort_pairs (l : list (nat * nat)) : list (nat * nat) :=
  fold_right insert_pair [] l.

(** The diagonals of an ear-clipping triangulation: the base [a c] of every
    clipped ear [(a, b, c)]; the last triangle is what remained. *)
Definition diagonals_of (ts : list (nat * nat * nat)) : list (nat * nat) :=
  sort_pairs
    (map (fun t => norm_pair (fst (fst t), snd t)) (removelast ts)).

Definition triangle_loop (t : nat * nat * nat) : Polygon :=
  [fst (fst t); snd (fst t); snd t].

(** Modelled from the spec: [partition_HM] of section 4.4: triangulate,
    then for every diagonal in increasing index-pair order merge the two
    regions it separates when both of its endpoints stay non-reflex; the
    triangulation failure is propagated. *)
Definition partition_HM (poly : Polygon) : option (list Polygon) :=
  match triangulate (List.length poly) poly with
  | None => None
  | Some ts =>
      Some (fold_left (fun rs d => merge_step d rs) (diagonals_of ts)
                      (map triangle_loop ts))
  end.

(** Modelled from the spec: [apply_HM(poly) -> (ok, parts)] of section 4.7:
    validation, then 4.4; on failure the part list is empty (section 6).
    [points] is the polygon, its vertices are numbered from 0. *)
Definition apply_HM : bool * list Polygon :=
  let poly := seq 0 (List.length points) in
  if valid_polygon poly then
    match partition_HM poly with
    | Some parts => (true, parts)
    | None => (false, [])
    end
  else (false, []).

(** ** 4.3 Diagonal / visibility builder *)

Definition midpoint (a b : vec2) : vec2 :=
  mkvec2 ((x a + x b) / 2) ((y a + y b) / 2).

(** The edge [a b] crosses the horizontal ray that leaves [p] to the
    right. *)
Definition crosses_ray (p a b : vec2) : bool :=
  negb (Bool.eqb (Qlt_bool (y p) (y a)) (Qlt_bool (y p) (y b)))
  && Qlt_bool (x p) (x a + (y p - y a) * (x b - x a) / (y b - y a)).

(** The ray-crossing test: [p] is inside the loop when the ray crosses an
    odd number of edges. *)
Definition point_in_polygon (p : vec2) (poly : Polygon) : bool :=
  Nat.odd (List.length
             (filter (fun e => crosses_ray p (pt (fst e)) (pt (snd e)))
                     (edges poly))).

(** The segment [i j] intersects no edge of [poly] properly. *)
Definition clear_of (i j : nat) (poly : Polygon) : bool :=
  forallb (fun e => negb (segments_intersect (pt i) (pt j)
                                             (pt (fst e)) (pt (snd e))))
          (edges poly).

Definition pair_eqb (d e : nat * nat) : bool :=
  Nat.eqb (fst d) (fst e) && Nat.eqb (snd d) (snd e).

Definition adjacent (i j : nat) (poly : Polygon) : bool :=
  existsb (fun e => pair_eqb e (i, j) || pair_eqb e (j, i)) (edges poly).

(** All pairs [(i, j)] of members of [poly] with [i < j]. *)
Definition index_pairs (poly : Polygon) : list (nat * nat) :=
  flat_map (fun i => map (fun j => (i, j))
                         (filter (fun j => Nat.ltb i j) poly)) poly.

(** Modelled from the spec: the feasibility test of section 4.3: (a) the
    segment intersects no boundary edge properly, (b) its midpoint is inside
    the polygon by the ray-crossing test. *)
Definition is_diagonal (poly : Polygon) (i j : nat) : bool :=
  clear_of i j poly && point_in_polygon (midpoint (pt i) (pt j)) poly.

(** Modelled from the spec: [diagonals(poly)] of section 4.3, over the
    non-adjacent pairs [i < j]. *)
Definition diagonals (poly : Polygon) : list (nat * nat) :=
  filter (fun d => negb (adjacent (fst d) (snd d) poly)
                   && is_diagonal poly (fst d) (snd d))
         (index_pairs poly).

(** ** 4.5 Optimal partitioner *)

(** The two loops a diagonal [i j] ([i < j]) cuts an increasing loop into:
    the chain from [i] to [j], and the rest closed by the diagonal. *)
Definition chain_between (i j : nat) (poly : Polygon) : Polygon :=
  filter (fun k => Nat.leb i k && Nat.leb k j) poly.

Definition chain_around (i j : nat) (poly : Polygon) : Polygon :=
  filter (fun k => Nat.leb k i || Nat.leb j k) poly.

(** The diagonals of [ds] that cut the sub-loop [poly]. *)
Definition cuts (ds : list (nat * nat)) (poly : Polygon)
    : list (nat * nat) :=
  filter (fun d => existsb (Nat.eqb (fst d)) poly
                   && existsb (Nat.eqb (snd d)) poly
                   && negb (adjacent (fst d) (snd d) poly))
         ds.

(** The first shortest list of parts among the candidates that did not
    fail. *)
Fixpoint fewest (cands : list (option (list Polygon)))
    : option (list Polygon) :=
  match cands with
  | [] => None
  | c :: cands' =>
      match c, fewest cands' with
      | Some ps, Some qs =>
          if Nat.leb (List.length ps) (List.length qs)
          then Some ps else Some qs
      | Some ps, None => Some ps
      | None, r => r
      end
  end.

(** Modelled from the spec: [partition_OPT] of section 4.5, the minimum
    number of convex pieces over every choice of diagonals of the graph
    [ds] of section 4.3: a convex sub-loop is one piece, any other is cut
    by each of its diagonals in turn and the fewest pieces are kept; a
    sub-loop that is not convex and has no diagonal is the failure.  The
    recurrence is run as it stands, without the memo table. *)
Fixpoint partition_OPT_aux (fuel : nat) (ds : list (nat * nat))
    (poly : Polygon) : option (list Polygon) :=
  match fuel with
  | O => None
  | S fuel' =>
      if is_convex poly then Some [poly]
      else
        fewest
          (map (fun d =>
                  match partition_OPT_aux fuel' ds
                          (chain_between (fst d) (snd d) poly),
                        partition_OPT_aux fuel' ds
                          (chain_around (fst d) (snd d) poly) with
                  | Some ps, Some qs => Some (ps ++ qs)
                  | _, _ => None
                  end)
               (cuts ds poly))
  end.

Definition partition_OPT (poly : Polygon) : option (list Polygon) :=
  partition_OPT_aux (List.length poly) (diagonals poly) poly.

(** Modelled from the spec: [apply_OPT(poly) -> (ok, parts)] of section
    4.7: the validation of [apply_HM], then 4.5. *)
Definition apply_OPT : bool * list Polygon :=
  let poly := seq 0 (List.length points) in
  if valid_polygon poly then
    match partition_OPT poly with
    | Some parts => (true, parts)
    | None => (false, [])
    end
  else (false, []).

(** ** 4.6 Hole merger *)

Definition dist2 (a b : vec2) : Q :=
  (x a - x b) * (x a - x b) + (y a - y b) * (y a - y b).

(** A bridge: host number, position on the host, position on the hole. *)
Definition Bridge : Type := (nat * nat * nat)%type.

(** The segment from the host vertex [v] to the hole vertex [w] is a
    feasible bridge: it crosses no edge of any loop, and its midpoint is
    inside the host and outside every hole still to merge. *)
Definition bridge_ok (polys holes : list Polygon) (host : Polygon)
    (v w : nat) : bool :=
  forallb (clear_of v w) (polys ++ holes)
  && point_in_polygon (midpoint (pt v) (pt w)) host
  && forallb (fun h => negb (point_in_polygon (midpoint (pt v) (pt w)) h))
             holes.

(** Every feasible bridge of [hole], with its squared length. *)
Definition bridges (polys holes : list Polygon) (hole : Polygon)
    : list (Q * Bridge) :=
  flat_map (fun hn =>
    let host := nth hn polys [] in
    flat_map (fun p =>
      flat_map (fun q =>
        let v := nth p host O in
        let w := nth q hole O in
        if bridge_ok polys holes host v w
        then [(dist2 (pt v) (pt w), (hn, p, q))] else [])
        (seq 0 (List.length hole)))
      (seq 0 (List.length host)))
    (seq 0 (List.length polys)).

(** The first shortest bridge. *)
Fixpoint nearest (bs : list (Q * Bridge)) : option (Q * Bridge) :=
  match bs with
  | [] => None
  | b :: bs' =>
      match nearest bs' with
      | Some b' => if Qle_bool (fst b) (fst b') then Some b else Some b'
      | None => Some b
      end
  end.

(** The host walked up to position [p], then the whole hole from its
    position [q] round to [q] again, then the host from [p] on. *)
Definition splice (host hole : Polygon) (p q : nat) : Polygon :=
  firstn (S p) host ++ (skipn q hole ++ firstn q hole)
    ++ [nth q hole O] ++ skipn p host.

Fixpoint replace_nth {A : Type} (n : nat) (a : A) (l : list A) : list A :=
  match l, n with
  | [], _ => []
  | _ :: t, O => a :: t
  | b :: t, S n' => b :: replace_nth n' a t
  end.

(** Modelled from the spec: [merge_holes] of section 4.6: every hole in
    turn is spliced into a host through its nearest feasible bridge; a hole
    without a feasible bridge is the failure. *)
Fixpoint merge_holes (polys holes : list Polygon)
    : option (list Polygon) :=
  match holes with
  | [] => Some polys
  | hole :: holes' =>
      match nearest (bridges polys holes hole) with
      | None => None
      | Some (_, (hn, p, q)) =>
          merge_holes
            (replace_nth hn (splice (nth hn polys []) hole p q) polys)
            holes'
      end
  end.

(** No edge of one loop crosses an edge of another one. *)
Definition loops_apart (loops : list Polygon) : bool :=
  forallb (fun l =>
    forallb (fun m =>
      forallb (fun e => clear_of (fst e) (snd e) m) (edges l))
      loops)
    loops.

Definition inside_loop (h poly : Polygon) : bool :=
  forallb (fun i => point_in_polygon (pt i) poly) h.

(** Modelled from the spec: the validation of [apply] (section 4.7): every
    polygon simple and counter-clockwise, every hole simple and clockwise
    and inside exactly one polygon, no two loops crossing. *)
Definition valid_input (polys holes : list Polygon) : bool :=
  forallb valid_polygon polys && forallb valid_hole holes
  && loops_apart (polys ++ holes)
  && forallb (fun h =>
       Nat.eqb (List.length (filter (inside_loop h) polys)) 1) holes.

End Geometry.

(** ** 4.7 The general facade *)

(** The coordinates of a loop, and the parts of a loop numbered from 0 put
    back on the indices of the loop. *)
Definition localize (points : list vec2) (b : Polygon) : list vec2 :=
  map (pt points) b.

Definition globalize (b : Polygon) (parts : list Polygon) : list Polygon :=
  map (map (fun k => nth k b O)) parts.

(** The Hertel-Mehlhorn partitioner run on each boundary in turn, the
    results concatenated; one failure fails the whole. *)
Fixpoint partition_each (eps : Q) (points : list vec2)
    (bs : list Polygon) : option (list Polygon) :=
  match bs with
  | [] => Some []
  | b :: bs' =>
      match partition_HM eps (localize points b) (seq 0 (List.length b)),
            partition_each eps points bs' with
      | Some ps, Some qs => Some (globalize b ps ++ qs)
      | _, _ => None
      end
  end.

(** Modelled from the spec: [apply(points, polys, holes) -> (ok, parts)] of
    section 4.7: validation, 4.6, then 4.4 on each resulting boundary. *)
Definition apply (eps : Q) (points : list vec2)
    (polys holes : list Polygon) : bool * list Polygon :=
  if valid_input eps points polys holes then
    match merge_holes eps points polys holes with
    | None => (false, [])
    | Some bs =>
        match partition_each eps points bs with
        | Some parts => (true, parts)
        | None => (false, [])
        end
    end
  else (false, []).

(** ** The operations as the header declares them

    [bool apply_HM(const std::vector<vec2>& poly,
    std::vector<Polygon>& parts) const] and its two companions take the
    vector [parts] of the caller and fill it. *)

(** [parts.clear()]. *)
Definition clear (parts : list Polygon) : list Polygon := [].

(** Modelled from the spec: the output vector of a call (sections 4.7 and
    6): whatever it held before, it holds the parts after a success and is
    left empty after a failure. *)
Definition into (parts : list Polygon) (r : bool * list Polygon)
    : bool * list Polygon :=
  if fst r then (true, clear parts ++ snd r) else (false, clear parts).

Definition apply_HM_into (eps : Q) (poly : list vec2)
    (parts : list Polygon) : bool * list Polygon :=
  into parts (apply_HM eps poly).

Definition apply_OPT_into (eps : Q) (poly : list vec2)
    (parts : list Polygon) : bool * list Polygon :=
  into parts (apply_OPT eps poly).

Definition apply_into (eps : Q) (points : list vec2)
    (polys holes : list Polygon) (parts : list Polygon)
    : bool * list Polygon :=
  into parts (apply eps points polys holes).

(** ** Vocabulary of the statements *)

(** [p] and [q] are one point. *)
Definition same_point (p q : vec2) : Prop := x p == x q /\ y p == y q.

(** [p] is a point of the closed segment [a b]. *)
Definition between (a b p : vec2) : Prop :=
  exists t : Q, 0 <= t /\ t <= 1 /\
    x p == x a + t * (x b - x a) /\ y p == y a + t * (y b - y a).

(** The boundary written by [points] intersects itself: two of its edges,
    the one that leaves vertex [i] and the one that leaves vertex [j], have
    a point in common, other than the vertex at which one of them ends and
    the other starts.  Edges that cross, that touch, that overlap and
    points met twice are all of this kind. *)
Definition self_intersecting (points : list vec2) : Prop :=
  let n := List.length points in
  exists (i j : nat) (p : vec2),
    (i < j)%nat /\ (j < n)%nat /\
    between (pt points i) (pt points (S i mod n)) p /\
    between (pt points j) (pt points (S j mod n)) p /\
    ~ (j = S i /\ same_point p (pt points j)) /\
    ~ (i = 0%nat /\ S j = n /\ same_point p (pt points 0)).

(** [l'] is [l] read from another starting vertex. *)
Definition is_rotation {A : Type} (l l' : list A) : Prop :=
  exists k, (k <= List.length l)%nat /\ l' = skipn k l ++ firstn k l.

(** The polygon [points] is convex and counter-clockwise: no three of its
    vertices, taken in the order of the polygon, turn right; three vertices
    on one line are tolerated (section 3). *)
Definition convex_position (eps : Q) (points : list vec2) : Prop :=
  forall i j k, (i < j)%nat -> (j < k)%nat -> (k < List.length points)%nat ->
    turn eps points i j k <> RightTurn.

(** The tolerance blurs no corner of the polygon: three vertices that
    [orientation] takes for collinear are on one line.  With the tolerance
    0 every polygon is of this kind. *)
Definition sharp (eps : Q) (points : list vec2) : Prop :=
  forall i j k, (i < j)%nat -> (j < k)%nat -> (k < List.length points)%nat ->
    turn eps points i j k = Collinear ->
    cross (pt points i) (pt points j) (pt points k) == 0.

(** The number of reflex vertices of a loop. *)
Definition reflex_count (eps : Q) (points : list vec2) (poly : Polygon)
    : nat :=
  List.length
    (filter (fun t => is_reflex eps points (fst (fst t)) (snd (fst t))
                                (snd t))
            (corners poly)).

(** The sum of the (doubled, signed) areas of the parts. *)
Definition parts_area2 (points : list vec2) (parts : list Polygon) : Q :=
  Qsum (map (area2 points) parts).

(** The signed area of a loop, positive when counter-clockwise, and the
    sum over the parts. *)
Definition signed_area (points : list vec2) (poly : Polygon) : Q :=
  area2 points poly / 2.

Definition parts_area (points : list vec2) (parts : list Polygon) : Q :=
  Qsum (map (signed_area points) parts).

(** The area (doubled) of the holes, each counted positively. *)
Definition holes_area2 (points : list vec2) (holes : list Polygon) : Q :=
  Qsum (map (fun h => Qabs (area2 points h)) holes).

(** The area of the holes, each counted positively. *)
Definition holes_area (points : list vec2) (holes : list Polygon) : Q :=
  Qsum (map (fun h => Qabs (signed_area points h)) holes).

(** Every vertex of every region is a vertex of [poly]. *)
Definition vertices_in (poly : Polygon) (rs : list Polygon) : Prop :=
  forall r k, In r rs -> In k r -> In k poly.

(** ** Vocabulary of the proofs *)

(** [x], [y] and [z] are met in this order round the polygon. *)
Definition cyc (x y z : nat) : Prop :=
  (x < y < z \/ y < z < x \/ z < x < y)%nat.

(** A region lies as the polygon does: after any of its edges, its other
    vertices are met before the edge is met again. *)
Definition tight (r : Polygon) : Prop :=
  forall u v w, In (u, v) (edges r) -> In w r -> w <> u -> w <> v ->
    cyc v w u.

(** A region as the merging pass keeps it: no vertex twice, three
    vertices or more among the first [m], turned as the polygon. *)
Definition region (m : nat) (r : Polygon) : Prop :=
  NoDup r /\ (3 <= List.length r)%nat /\ tight r
  /\ (forall i, In i r -> (i < m)%nat).

(** The two directions of a diagonal. *)
Definition both (d : nat * nat) : list (nat * nat) := [d; (snd d, fst d)].

(** The base of an ear. *)
Definition base (t : nat * nat * nat) : nat * nat := (fst (fst t), snd t).

(** The edges of an open path. *)
Definition pedges {A : Type} (l : list A) : list (A * A) :=
  combine l (tl l).

(** ** Polygons of the scenarios *)

Definition unit_square : list vec2 :=
  [mkvec2 0 0; mkvec2 1 0; mkvec2 1 1; mkvec2 0 1].

(** A square of side 2 with one more vertex in the middle of its lower
    side. *)
Definition flat_square : list vec2 :=
  [mkvec2 0 0; mkvec2 1 0; mkvec2 2 0; mkvec2 2 2; mkvec2 0 2].

(** The L-shaped hexagon left of the rectangle [a] by [d] when the
    rectangle above [b] and right of [c] is taken off; its reflex vertex
    is [(c, b)]. *)
Definition L_shape (a b c d : Q) : list vec2 :=
  [mkvec2 0 0; mkvec2 a 0; mkvec2 a b; mkvec2 c b; mkvec2 c d; mkvec2 0 d].

(** The L with arms of width 1 in a square of side 2. *)
Definition L_thin : list vec2 := L_shape 2 1 1 2.

(** The L left of a square of side 3 by a notch of side 1. *)
Definition L_thick : list vec2 := L_shape 3 2 2 3.

Definition bow_tie : list vec2 :=
  [mkvec2 0 0; mkvec2 1 1; mkvec2 1 0; mkvec2 0 1].

(** A boundary that passes twice through the point [(2, 2)], where it
    crosses itself. *)
Definition pinched : list vec2 :=
  [mkvec2 0 0; mkvec2 4 0; mkvec2 2 2; mkvec2 4 4; mkvec2 0 4; mkvec2 2 2].

(** A square with a spike of no width: the boundary goes up from
    [(1, 2)] to [(1, 3)] and comes back the same way. *)
Definition spike : list vec2 :=
  [mkvec2 0 0; mkvec2 2 0; mkvec2 2 2; mkvec2 1 2; mkvec2 1 3; mkvec2 1 2;
   mkvec2 0 2].

(** A square of side 4 and, inside it, a clockwise square hole of side
    1. *)
Definition holed_square : list vec2 :=
  [mkvec2 0 0; mkvec2 4 0; mkvec2 4 4; mkvec2 0 4;
   mkvec2 1 1; mkvec2 1 2; mkvec2 2 2; mkvec2 2 1].

End PolygonPartition.
(* ===================================================================== *)
(** * Facts about RealCamera                                              *)
(* ===================================================================== *)

Module RealCameraFacts.
Import RealCamera.

Section Facts.

Context {Viewer Texture : Type} {L : Library Viewer Texture}.

Local Abbreviation St := (State Viewer Texture).

Lemma views_in_range (st : St) (i : N) :
  (i < views_size st)%N ->
  exists cam, nth_error (views_ st) (N.to_nat i) = Some cam.
Proof.
  unfold views_size; intros Hi.
  destruct (nth_error (views_ st) (N.to_nat i)) as [cam|] eqn:E.
  - now exists cam.
  - apply nth_error_None in E. lia.
Qed.

Lemma index_check_false (st : St) (i : N) :
  (i < views_size st)%N ->
  ((i <? 0) || (views_size st <=? i))%N = false.
Proof.
  intros Hi. apply orb_false_iff; split.
  - apply N.ltb_ge. lia.
  - apply N.leb_gt. exact Hi.
Qed.

Lemma index_check_true (st : St) (i : N) :
  (views_size st <= i)%N ->
  ((i <? 0) || (views_size st <=? i))%N = true.
Proof.
  intros Hi. apply orb_true_iff; right. now apply N.leb_le.
Qed.

(** The three components of a call on an in-range index. *)
Lemma KRT_to_camera_in_range (st : St) (i : N) (m : Z) (c : Camera)
    (cam : CameraPara) :
  nth_error (views_ st) (N.to_nat i) = Some cam ->
  KRT_to_camera st i m c =
    (true,
     if (m =? 1)%Z then
       set_from_calibration (fx cam) (fy cam) 0 (cx cam) (cy cam)
         (mkvec3 (rx cam) (ry cam) (rz cam))
         (mkvec3 (tx cam) (ty cam) (tz cam)) c
     else if (m =? 2)%Z then method2 cam c else c,
     load_image st).
Proof.
  intros E. unfold KRT_to_camera.
  rewrite index_check_false, E; [reflexivity|].
  unfold views_size.
  assert (N.to_nat i < List.length (views_ st))%nat
    by (apply nth_error_Some; congruence).
  lia.
Qed.

Lemma KRT_to_camera_out_of_range (st : St) (i : N) (m : Z) (c : Camera) :
  (views_size st <= i)%N ->
  KRT_to_camera st i m c =
    (false, c,
     print ("Error: invalid view index (" ++ to_string i ++ ")") st).
Proof.
  intros Hi. unfold KRT_to_camera. now rewrite index_check_true.
Qed.

(** The Euclidean norm vanishes on the zero vector only. *)
Lemma length_zero_iff (v : vec3) :
  length v = 0%R <-> (vx v = 0 /\ vy v = 0 /\ vz v = 0)%R.
Proof.
  unfold length; split.
  - intros E. apply sqrt_eq_0 in E; [|Lra.nra].
    assert (0 <= vx v * vx v)%R by Lra.nra.
    assert (0 <= vy v * vy v)%R by Lra.nra.
    assert (0 <= vz v * vz v)%R by Lra.nra.
    repeat split; Lra.nra.
  - intros (-> & -> & ->).
    replace (0 * 0 + 0 * 0 + 0 * 0)%R with 0%R by ring. apply sqrt_0.
Qed.

Lemma vdiv_defined (v : vec3) (a : R) : vdiv v a <> None <-> a <> 0%R.
Proof.
  unfold vdiv. destruct (Req_dec_T a 0); split; intros; congruence.
Qed.

Lemma method2_orientation (cam : CameraPara) (c : Camera) :
  orientation (method2 cam c) <> None <->
  ~ (rx cam = 0 /\ ry cam = 0 /\ rz cam = 0)%R.
Proof.
  unfold method2; cbn [orientation setFieldOfView setPosition setOrientation].
  set (v := mkvec3 (- rx cam) (- ry cam) (- rz cam)).
  assert (Hv : length v = 0%R <-> (rx cam = 0 /\ ry cam = 0 /\ rz cam = 0)%R).
  { rewrite length_zero_iff. unfold v; cbn. split; intros (? & ? & ?);
      repeat split; Lra.lra. }
  rewrite <- Hv, <- (vdiv_defined v).
  destruct (vdiv v (length v)); cbn; split; intros; congruence.
Qed.

Lemma load_image_frame (st : St) :
  views_ (load_image st) = views_ st /\
  current_view_ (load_image st) = current_view_ st /\
  camera_ (load_image st) = camera_ st.
Proof.
  unfold load_image. destruct (is_file _); cbn; auto.
Qed.

(** [KRT_to_camera] leaves [views_], [current_view_] and the viewer's own
    camera member as they are (the camera is written through [c] only). *)
Lemma KRT_to_camera_frame (st : St) (i : N) (m : Z) (c : Camera) :
  views_ (snd (KRT_to_camera st i m c)) = views_ st /\
  current_view_ (snd (KRT_to_camera st i m c)) = current_view_ st.
Proof.
  unfold KRT_to_camera.
  destruct ((i <? 0) || (views_size st <=? i))%N; cbn; auto.
  destruct (nth_error (views_ st) (N.to_nat i)); cbn; auto.
  split; apply load_image_frame.
Qed.

Lemma show_view_frame (m : Z) (st : St) :
  views_ (show_view m st) = views_ st /\
  current_view_ (show_view m st) = current_view_ st.
Proof.
  unfold show_view.
  destruct (KRT_to_camera_frame st (current_view_ st) m (camera_ st))
    as [Hv Hc].
  destruct (KRT_to_camera st (current_view_ st) m (camera_ st))
    as [[ok c'] st1]; cbn in Hv, Hc.
  destruct ok; cbn; auto.
  destruct (nth_error (views_ st1) (N.to_nat (current_view_ st1))); cbn; auto.
Qed.

Lemma key_press_event_views (key mods : Z) (st : St) :
  views_ (snd (key_press_event key mods st)) = views_ st.
Proof.
  unfold key_press_event.
  destruct (key =? GLFW_KEY_SPACE)%Z.
  { destruct (negb (views_size st =? 0)%N); cbn; auto.
    match goal with
    | |- context [KRT_to_camera ?s ?i ?m ?c] =>
        destruct (KRT_to_camera_frame s i m c) as [Hv Hc];
        destruct (KRT_to_camera s i m c) as [[ok c'] st1]
    end; cbn in Hv, Hc.
    destruct ok; cbn; auto.
    destruct (nth_error (views_ st1) (N.to_nat (current_view_ st1)));
      cbn; auto. }
  destruct (key =? GLFW_KEY_1)%Z.
  { destruct (negb (views_size st =? 0)%N); cbn; auto.
    apply show_view_frame. }
  destruct (key =? GLFW_KEY_2)%Z.
  { destruct (negb (views_size st =? 0)%N); cbn; auto.
    apply show_view_frame. }
  destruct (key =? GLFW_KEY_H)%Z.
  { destruct (cameras_drawable_visible (base st)); cbn; auto. }
  destruct (Viewer_key_press_event key mods (base st)); cbn; auto.
Qed.

(** What a key press does to [current_view_]: the Space key with a view
    present moves it as [std::size_t] arithmetic says, every other case
    leaves it. *)
Lemma key_press_event_current (key mods : Z) (st : St) :
  current_view_ (snd (key_press_event key mods st)) =
    if ((key =? GLFW_KEY_SPACE)%Z && negb (views_size st =? 0)%N)%bool
    then size_rem (size_add (current_view_ st) 1) (views_size st)
    else current_view_ st.
Proof.
  unfold key_press_event.
  destruct (key =? GLFW_KEY_SPACE)%Z; cbn [andb].
  { destruct (negb (views_size st =? 0)%N); cbn; auto.
    match goal with
    | |- context [KRT_to_camera ?s ?i ?m ?c] =>
        destruct (KRT_to_camera_frame s i m c) as [Hv Hc];
        destruct (KRT_to_camera s i m c) as [[ok c'] st1]
    end; cbn in Hv, Hc.
    destruct ok; cbn; auto.
    destruct (nth_error (views_ st1) (N.to_nat (current_view_ st1)));
      cbn; auto. }
  destruct (key =? GLFW_KEY_1)%Z.
  { destruct (negb (views_size st =? 0)%N); cbn; auto.
    apply show_view_frame. }
  destruct (key =? GLFW_KEY_2)%Z.
  { destruct (negb (views_size st =? 0)%N); cbn; auto.
    apply show_view_frame. }
  destruct (key =? GLFW_KEY_H)%Z.
  { destruct (cameras_drawable_visible (base st)); cbn; auto. }
  destruct (Viewer_key_press_event key mods (base st)); cbn; auto.
Qed.

Lemma views_size_zero_neq (st : St) :
  views_ st <> [] -> views_size st <> 0%N.
Proof.
  unfold views_size. destruct (views_ st); cbn; intros; [congruence | lia].
Qed.

Lemma views_size_zero (st : St) : views_size st = 0%N <-> views_ st = [].
Proof.
  unfold views_size. destruct (views_ st); cbn; split; intros; try lia;
    congruence.
Qed.

Lemma reachable_wf (st : St) : reachable st -> wf st.
Proof.
  induction 1 as [st [H0 Hs] | st key mods _ [Hs Hc]].
  - split; auto.
  - unfold wf, views_size in *.
    rewrite key_press_event_views, key_press_event_current.
    split; [exact Hs|].
    destruct ((key =? GLFW_KEY_SPACE)%Z && _)%bool eqn:E; [|exact Hc].
    right. apply andb_true_iff in E as [_ E].
    apply negb_true_iff, N.eqb_neq in E.
    unfold size_rem. apply N.mod_lt. exact E.
Qed.

Lemma wf_in_bounds (st : St) : wf st -> current_view_in_bounds st.
Proof.
  intros [_ Hc] Hne. rewrite <- views_size_zero in Hne. lia.
Qed.

(** C8.  With [method == 2] and an index in range, [KRT_to_camera] divides
    [rot_vec] by [angle = rot_vec.length()] behind no test of [angle]: the
    call returns [true] whatever the rotation vector is; when the rotation
    vector [(rx, ry, rz)] of the view is zero the quotient is taken by zero
    and neither the orientation nor the position written to the camera is
    defined; so a defined orientation or position needs a rotation vector
    that is not zero. *)
Theorem KRT_to_camera_method2_defined (st : St) (i : N) (c : Camera)
    (cam : CameraPara) :
  nth_error (views_ st) (N.to_nat i) = Some cam ->
  fst (fst (KRT_to_camera st i 2 c)) = true /\
  ((rx cam = 0 /\ ry cam = 0 /\ rz cam = 0)%R ->
     orientation (snd (fst (KRT_to_camera st i 2 c))) = None /\
     position (snd (fst (KRT_to_camera st i 2 c))) = None) /\
  (orientation (snd (fst (KRT_to_camera st i 2 c))) <> None ->
     ~ (rx cam = 0 /\ ry cam = 0 /\ rz cam = 0)%R) /\
  (position (snd (fst (KRT_to_camera st i 2 c))) <> None ->
     ~ (rx cam = 0 /\ ry cam = 0 /\ rz cam = 0)%R).
Proof.
  intros E. rewrite (KRT_to_camera_in_range st i 2 c cam E). cbn [fst snd].
  change (2 =? 1)%Z with false. change (2 =? 2)%Z with true. cbv iota.
  pose proof (method2_orientation cam c) as O.
  assert (P : position (method2 cam c) <> None <->
              orientation (method2 cam c) <> None).
  { unfold method2; cbn [orientation position setFieldOfView setPosition
                           setOrientation].
    destruct (vdiv _ _); cbn; split; intros; congruence. }
  split; [reflexivity|]. split; [|split].
  - intros Z.
    destruct (orientation (method2 cam c)) eqn:EO.
    + exfalso. apply (proj1 O); [discriminate | exact Z].
    + split; [reflexivity|].
      destruct (position (method2 cam c)) eqn:EP; [|reflexivity].
      exfalso. apply (proj1 P); [discriminate | reflexivity].
  - apply O.
  - intros H. apply O, P, H.
Qed.

(** C9.  [KRT_to_camera] returns [false] exactly when
    [view_index >= views_.size()]: the test [view_index < 0] is false for
    every [std::size_t], an index in range gives [true] for every [method],
    and a [method] other than 1 and 2 leaves the camera as it was. *)
Theorem KRT_to_camera_false_iff (st : St) (i : N) (m : Z) (c : Camera) :
  (i <? 0)%N = false /\
  (fst (fst (KRT_to_camera st i m c)) = false <-> (views_size st <= i)%N) /\
  ((i < views_size st)%N -> fst (fst (KRT_to_camera st i m c)) = true) /\
  ((i < views_size st)%N -> m <> 1%Z -> m <> 2%Z ->
     snd (fst (KRT_to_camera st i m c)) = c).
Proof.
  assert (Hin : (i < views_size st)%N ->
                fst (fst (KRT_to_camera st i m c)) = true).
  { intros Hi. destruct (views_in_range st i Hi) as [cam E].
    now rewrite (KRT_to_camera_in_range st i m c cam E). }
  split; [apply N.ltb_ge; lia|]. split; [|split; [exact Hin|]].
  - split.
    + intros Hf. destruct (N.le_gt_cases (views_size st) i) as [|Hi]; auto.
      rewrite (Hin Hi) in Hf. discriminate.
    + intros Hi. now rewrite KRT_to_camera_out_of_range.
  - intros Hi H1 H2. destruct (views_in_range st i Hi) as [cam E].
    rewrite (KRT_to_camera_in_range st i m c cam E). cbn [fst snd].
    apply Z.eqb_neq in H1, H2. now rewrite H1, H2.
Qed.

(** Whatever the state, a key press keeps [current_view_] an index of
    [views_]. *)
Lemma key_press_event_keeps_bounds (st : St) (key mods : Z) :
  current_view_in_bounds st ->
  current_view_in_bounds (snd (key_press_event key mods st)).
Proof.
  unfold current_view_in_bounds, views_size.
  rewrite key_press_event_views, key_press_event_current.
  intros Hb Hne. specialize (Hb Hne).
  destruct ((key =? GLFW_KEY_SPACE)%Z && _)%bool eqn:E; [|exact Hb].
  split; [lia|]. unfold size_rem. apply N.mod_lt. lia.
Qed.

(** C10.  A Space key press with [views_] non-empty sets [current_view_]
    to [(current_view_ + 1) % views_.size()] (in every state the viewer
    reaches, where the sum does not wrap); every key press keeps
    [0 <= current_view_ < views_.size()], and after it the access
    [views_[current_view_]] is in bounds. *)
Theorem key_press_event_current_view (st : St) (key mods : Z) :
  (current_view_in_bounds st ->
     current_view_in_bounds (snd (key_press_event key mods st))) /\
  (reachable st ->
     (key = GLFW_KEY_SPACE -> views_ st <> [] ->
        current_view_ (snd (key_press_event key mods st)) =
          ((current_view_ st + 1) mod views_size st)%N) /\
     current_view_in_bounds st /\
     current_view_in_bounds (snd (key_press_event key mods st)) /\
     (views_ st <> [] ->
        exists cam,
          nth_error (views_ (snd (key_press_event key mods st)))
            (N.to_nat (current_view_ (snd (key_press_event key mods st))))
          = Some cam)).
Proof.
  split; [apply key_press_event_keeps_bounds|]. intros Hr.
  assert (Hw' : wf (snd (key_press_event key mods st)))
    by (apply reachable_wf; now constructor).
  pose proof (wf_in_bounds _ Hw') as Hb.
  pose proof (wf_in_bounds _ (reachable_wf st Hr)) as Hb0.
  destruct (reachable_wf st Hr) as [Hs Hc].
  split; [|split; [exact Hb0|split; [exact Hb|]]].
  - intros -> Hne. rewrite key_press_event_current.
    apply views_size_zero_neq in Hne as Hz.
    rewrite Z.eqb_refl. cbn [andb].
    apply N.eqb_neq in Hz as Hz'. rewrite Hz'. cbn [negb].
    unfold size_rem, size_add. f_equal. apply N.mod_small. lia.
  - intros Hne. apply views_in_range.
    rewrite <- (key_press_event_views key mods st) in Hne.
    apply Hb in Hne. lia.
Qed.

End Facts.

(** ** The theorems on concrete views *)

(** A view whose rotation vector is zero: the method-2 call returns [true]
    and leaves the orientation undefined. *)
Lemma KRT_to_camera_method2_defined_witness :
  nth_error (views_ (state_of [view_0] 0)) (N.to_nat 0) = Some view_0 /\
  fst (fst (KRT_to_camera (L := bare_library)
              (state_of [view_0] 0) 0 2 camera_0)) = true /\
  orientation (snd (fst (KRT_to_camera (L := bare_library)
                           (state_of [view_0] 0) 0 2 camera_0))) = None.
Proof.
  split; [reflexivity|].
  destruct (KRT_to_camera_method2_defined (L := bare_library)
              (state_of [view_0] 0) 0 camera_0 view_0 eq_refl)
    as (T & Z & _).
  split; [exact T|]. apply Z. cbn. repeat split; reflexivity.
Defined.

Lemma KRT_to_camera_false_iff_witness :
  (0 < views_size (state_of [view_x] 0))%N /\
  fst (fst (KRT_to_camera (L := bare_library)
              (state_of [view_x] 0) 0 7 camera_0)) = true.
Proof.
  assert (H : (0 < views_size (state_of [view_x] 0))%N) by reflexivity.
  split; [exact H|].
  apply (KRT_to_camera_false_iff (L := bare_library)
           (state_of [view_x] 0) 0 7 camera_0); exact H.
Defined.

Lemma key_press_event_current_view_witness :
  reachable (L := bare_library) (state_of [view_x; view_0; view_x] 0) /\
  current_view_ (snd (key_press_event (L := bare_library) GLFW_KEY_SPACE 0
                        (state_of [view_x; view_0; view_x] 0))) = 1%N.
Proof.
  assert (H : reachable (L := bare_library)
                (state_of [view_x; view_0; view_x] 0))
    by (apply reach_init; split; reflexivity).
  split; [exact H|].
  destruct (key_press_event_current_view (L := bare_library)
              (state_of [view_x; view_0; view_x] 0) GLFW_KEY_SPACE 0)
    as (_ & K).
  destruct (K H) as (A & _). apply A; [reflexivity | discriminate].
Defined.

End RealCameraFacts.

(* ===================================================================== *)
(** * Facts about PolygonPartition                                        *)
(* ===================================================================== *)

Module PolygonPartitionFacts.
Import PolygonPartition.

Local Open Scope Q_scope.

(** ** Comparisons *)

Lemma Qlt_bool_iff (a b : Q) : Qlt_bool a b = true <-> a < b.
Proof.
  unfold Qlt_bool. rewrite negb_true_iff. split.
  - intros H. apply Qnot_le_lt. intros C. apply Qle_bool_iff in C.
    congruence.
  - intros H. destruct (Qle_bool b a) eqn:E; [|reflexivity].
    apply Qle_bool_iff in E. exfalso. eapply Qlt_not_le; eauto.
Qed.

(** ** Failure leaves no parts *)

Lemma apply_HM_failure (eps : Q) (points : list vec2) :
  fst (apply_HM eps points) = false -> snd (apply_HM eps points) = [].
Proof.
  unfold apply_HM. destruct (valid_polygon _ _ _); [|reflexivity].
  destruct (partition_HM _ _ _); [discriminate|reflexivity].
Qed.

Lemma apply_OPT_failure (eps : Q) (points : list vec2) :
  fst (apply_OPT eps points) = false -> snd (apply_OPT eps points) = [].
Proof.
  unfold apply_OPT. destruct (valid_polygon _ _ _); [|reflexivity].
  destruct (partition_OPT _ _ _); [discriminate|reflexivity].
Qed.

Lemma apply_failure (eps : Q) (points : list vec2)
    (polys holes : list Polygon) :
  fst (apply eps points polys holes) = false ->
  snd (apply eps points polys holes) = [].
Proof.
  unfold apply. destruct (valid_input _ _ _ _); [|reflexivity].
  destruct (merge_holes _ _ _ _); [|reflexivity].
  destruct (partition_each _ _ _); [discriminate|reflexivity].
Qed.

Lemma invalid_rejected (eps : Q) (points : list vec2) :
  valid_polygon eps points (seq 0 (List.length points)) = false ->
  apply_HM eps points = (false, []) /\ apply_OPT eps points = (false, []).
Proof.
  intros E. unfold apply_HM, apply_OPT. now rewrite E.
Qed.

Lemma short_invalid (eps : Q) (points : list vec2) :
  (List.length points < 3)%nat ->
  valid_polygon eps points (seq 0 (List.length points)) = false.
Proof.
  intros H. unfold valid_polygon. rewrite length_seq.
  replace (Nat.leb 3 (List.length points)) with false; [reflexivity|].
  symmetry. apply Nat.leb_gt. exact H.
Qed.

(** ** [apply] on a loop and [apply_HM] on its coordinates *)

Lemma forallb_map {A B : Type} (g : B -> bool) (h : A -> B) (l : list A) :
  forallb g (map h l) = forallb (fun a => g (h a)) l.
Proof.
  induction l as [|a l IH]; cbn; [reflexivity | now rewrite IH].
Qed.

Lemma forallb_ext_in {A : Type} (g g' : A -> bool) (l : list A) :
  (forall a, In a l -> g a = g' a) -> forallb g l = forallb g' l.
Proof.
  induction l as [|a l IH]; cbn; intros H; [reflexivity|].
  rewrite (H a), IH; auto.
Qed.

Lemma rot1_map {A B : Type} (f : A -> B) (l : list A) :
  rot1 (map f l) = map f (rot1 l).
Proof.
  destruct l; cbn; [reflexivity | now rewrite map_app].
Qed.

Lemma combine_map_both {A B : Type} (f : A -> B) (l l' : list A) :
  combine (map f l) (map f l')
  = map (fun e => (f (fst e), f (snd e))) (combine l l').
Proof.
  revert l'; induction l as [|a l IH]; intros [|a' l']; cbn; try reflexivity.
  now rewrite IH.
Qed.

Lemma edges_map {A B : Type} (f : A -> B) (l : list A) :
  edges (map f l) = map (fun e => (f (fst e), f (snd e))) (edges l).
Proof.
  unfold edges. now rewrite rot1_map, combine_map_both.
Qed.

Lemma In_rot1 {A : Type} (a : A) (l : list A) : In a (rot1 l) <-> In a l.
Proof.
  destruct l as [|b l]; cbn; [tauto|].
  rewrite in_app_iff; cbn. tauto.
Qed.

Lemma In_edges {A : Type} (e : A * A) (l : list A) :
  In e (edges l) -> In (fst e) l /\ In (snd e) l.
Proof.
  destruct e as [a b]; unfold edges; intros H; split; cbn.
  - eapply in_combine_l; eauto.
  - apply In_rot1. eapply in_combine_r; eauto.
Qed.

Lemma map_nth_seq {A : Type} (l : list A) (d : A) :
  map (fun k => nth k l d) (seq 0 (List.length l)) = l.
Proof.
  apply nth_ext with (d := nth 0 l d) (d' := d).
  - now rewrite length_map, length_seq.
  - intros n Hn. rewrite length_map, length_seq in Hn.
    rewrite (map_nth (fun k => nth k l d) (seq 0 (List.length l)) 0%nat n).
    now rewrite seq_nth.
Qed.

Section Transport.

Variable eps : Q.
Variable points : list vec2.
Variable poly : Polygon.

Let f (k : nat) : nat := nth k poly 0%nat.

Lemma pt_localize (k : nat) :
  (k < List.length poly)%nat ->
  pt (localize points poly) k = pt points (f k).
Proof.
  intros Hk. unfold pt, localize, f.
  rewrite (nth_indep _ _ (pt points 0%nat)) by now rewrite length_map.
  apply (map_nth (pt points)).
Qed.

Lemma area2_localize (q : Polygon) :
  (forall k, In k q -> (k < List.length poly)%nat) ->
  area2 (localize points poly) q = area2 points (map f q).
Proof.
  intros Hq. unfold area2. rewrite edges_map, map_map. f_equal.
  apply map_ext_in. intros e He. apply In_edges in He as [H1 H2]. cbn.
  now rewrite !pt_localize by auto.
Qed.

Lemma all_distinct_localize (q : Polygon) :
  (forall k, In k q -> (k < List.length poly)%nat) ->
  all_distinct (localize points poly) q = all_distinct points (map f q).
Proof.
  induction q as [|i q IH]; intros Hq; [reflexivity|].
  cbn [all_distinct map]. rewrite forallb_map, IH by (intros; apply Hq; now right).
  f_equal. apply forallb_ext_in. intros j Hj.
  now rewrite !pt_localize by (apply Hq; cbn; auto).
Qed.

Lemma no_crossing_localize (q : Polygon) :
  (forall k, In k q -> (k < List.length poly)%nat) ->
  no_crossing eps (localize points poly) q = no_crossing eps points (map f q).
Proof.
  intros Hq. unfold no_crossing. rewrite edges_map, forallb_map.
  apply forallb_ext_in. intros e He. rewrite forallb_map.
  apply forallb_ext_in. intros e' He'.
  apply In_edges in He as [H1 H2]. apply In_edges in He' as [H3 H4]. cbn.
  now rewrite !pt_localize by auto.
Qed.

Lemma is_simple_localize (q : Polygon) :
  (forall k, In k q -> (k < List.length poly)%nat) ->
  is_simple eps (localize points poly) q = is_simple eps points (map f q).
Proof.
  intros Hq. unfold is_simple.
  rewrite (all_distinct_localize _ Hq), (no_crossing_localize _ Hq).
  f_equal. rewrite edges_map, forallb_map.
  apply forallb_ext_in. intros e He. rewrite forallb_map.
  apply forallb_ext_in. intros e' He'.
  apply In_edges in He as [H1 H2]. apply In_edges in He' as [H3 H4]. cbn.
  now rewrite !pt_localize by auto.
Qed.

Lemma in_range_local :
  in_range (localize points poly) (seq 0 (List.length poly)) = true.
Proof.
  unfold in_range. apply forallb_forall. intros k Hk.
  apply in_seq in Hk. unfold localize. rewrite length_map.
  apply Nat.ltb_lt. lia.
Qed.

Lemma valid_polygon_localize :
  in_range points poly = true ->
  valid_polygon eps (localize points poly) (seq 0 (List.length poly))
  = valid_polygon eps points poly.
Proof.
  intros Hr. unfold valid_polygon.
  assert (Hq : forall k, In k (seq 0 (List.length poly)) ->
                         (k < List.length poly)%nat)
    by (intros k Hk; apply in_seq in Hk; lia).
  rewrite in_range_local, Hr, length_seq.
  rewrite (is_simple_localize _ Hq), (area2_localize _ Hq).
  unfold f. now rewrite map_nth_seq.
Qed.

Lemma loops_apart_single :
  loops_apart eps points [poly] = no_crossing eps points poly.
Proof.
  unfold loops_apart, no_crossing, clear_of. cbn. now rewrite !andb_true_r.
Qed.

Lemma apply_single :
  in_range points poly = true ->
  apply eps points [poly] []
  = (fst (apply_HM eps (localize points poly)),
     globalize poly (snd (apply_HM eps (localize points poly)))).
Proof.
  intros Hr. unfold apply, apply_HM, valid_input.
  replace (List.length (localize points poly)) with (List.length poly)
    by (unfold localize; now rewrite length_map).
  rewrite (valid_polygon_localize Hr). cbn [forallb app].
  rewrite loops_apart_single, !andb_true_r.
  destruct (valid_polygon eps points poly) eqn:V; cbn [andb].
  - assert (S : no_crossing eps points poly = true).
    { unfold valid_polygon in V.
      apply andb_prop in V as [V _]. apply andb_prop in V as [_ V].
      unfold is_simple in V. apply andb_prop in V as [V _].
      now apply andb_prop in V as [_ V]. }
    rewrite S. cbn [merge_holes partition_each].
    destruct (partition_HM _ _ _); cbn; [now rewrite app_nil_r | reflexivity].
  - reflexivity.
Qed.

End Transport.

(** ** Lists read as loops *)

Lemma last_cons_default {A : Type} (l : list A) (c b : A) :
  last (c :: l) b = last l c.
Proof.
  revert c b; induction l as [|d l IH]; intros c b; [reflexivity|].
  change (last (c :: d :: l) b) with (last (d :: l) b).
  change (last (d :: l) c) with (last (d :: l) c).
  now rewrite (IH d b), (IH d c).
Qed.

Lemma last_app_default {A : Type} (l1 l2 : list A) (b : A) :
  last (l1 ++ l2) b = last l2 (last l1 b).
Proof.
  revert b; induction l1 as [|a l1 IH]; intros b; [reflexivity|].
  cbn [app]. rewrite last_cons_default, IH.
  now rewrite (last_cons_default l1 a b).
Qed.

(** ** Increasing loops *)

Lemma sorted_app_inv (l1 : list nat) (a : nat) (r : list nat) :
  StronglySorted lt (l1 ++ a :: r) ->
  Forall (fun k => k < a)%nat l1 /\ Forall (lt a) r.
Proof.
  induction l1 as [|b l1 IH]; cbn [app]; intros H;
    apply StronglySorted_inv in H as [H1 H2].
  - split; [constructor | exact H2].
  - destruct (IH H1) as [F1 F2]. split; [|exact F2].
    constructor; [|exact F1].
    rewrite Forall_forall in H2. apply H2. apply in_elt.
Qed.

Lemma sorted_filter (f : nat -> bool) (l : list nat) :
  StronglySorted lt l -> StronglySorted lt (filter f l).
Proof.
  induction 1 as [|a l H IH F]; cbn; [constructor|].
  destruct (f a); [|exact IH]. constructor; [exact IH|].
  rewrite Forall_forall in *. intros k Hk. apply filter_In in Hk as [Hk _].
  auto.
Qed.

Lemma sorted_seq (a n : nat) : StronglySorted lt (seq a n).
Proof.
  revert a; induction n as [|n IH]; intros a; cbn; constructor; [apply IH|].
  rewrite Forall_forall. intros k Hk. apply in_seq in Hk. lia.
Qed.

Lemma filter_all {A : Type} (f : A -> bool) (l : list A) :
  Forall (fun k => f k = true) l -> filter f l = l.
Proof.
  induction 1 as [|a l H _ IH]; cbn; [reflexivity|]. now rewrite H, IH.
Qed.

Lemma filter_none {A : Type} (f : A -> bool) (l : list A) :
  Forall (fun k => f k = false) l -> filter f l = [].
Proof.
  induction 1 as [|a l H _ IH]; cbn; [reflexivity|]. now rewrite H, IH.
Qed.

(** A diagonal [i j] cuts an increasing loop in two chains. *)
Lemma chain_split (i j : nat) (poly : Polygon) :
  StronglySorted lt poly -> In i poly -> In j poly -> (i < j)%nat ->
  exists l1 l2 l3,
    poly = l1 ++ i :: l2 ++ j :: l3 /\
    chain_between i j poly = i :: l2 ++ [j] /\
    chain_around i j poly = l1 ++ i :: j :: l3.
Proof.
  intros S Hi Hj Hij.
  apply in_split in Hi as (l1 & r & ->).
  destruct (sorted_app_inv _ _ _ S) as [F1 Fr].
  assert (Hj' : In j r).
  { apply in_app_or in Hj as [Hj|[Hj|Hj]]; auto; [|lia].
    rewrite Forall_forall in F1. apply F1 in Hj. lia. }
  apply in_split in Hj' as (l2 & l3 & ->).
  assert (S' : StronglySorted lt (l2 ++ j :: l3)).
  { clear - S. induction l1 as [|b l1 IH]; cbn [app] in S;
      apply StronglySorted_inv in S as [S _]; auto. }
  destruct (sorted_app_inv _ _ _ S') as [F2 F3].
  apply Forall_app in Fr as [Fr2 Fr3].
  apply Forall_cons_iff in Fr3 as [_ Fr3].
  exists l1, l2, l3. split; [reflexivity|].
  unfold chain_between, chain_around.
  rewrite !filter_app. cbn [filter]. rewrite !filter_app. cbn [filter].
  rewrite !Nat.leb_refl.
  replace (Nat.leb i j) with true by (symmetry; apply Nat.leb_le; lia).
  replace (Nat.leb j i) with false by (symmetry; apply Nat.leb_gt; lia).
  cbn [andb orb].
  rewrite (filter_none _ l1), (filter_all _ l2), (filter_none _ l3),
    (filter_all _ l1), (filter_none _ l2), (filter_all _ l3); auto.
  - eapply Forall_impl; [|exact F3]. cbn. intros k Hk.
    apply orb_true_iff. right. apply Nat.leb_le. lia.
  - rewrite Forall_forall in *. intros k Hk.
    specialize (Fr2 k Hk). specialize (F2 k Hk). cbn in *.
    apply orb_false_iff. split; apply Nat.leb_gt; lia.
  - eapply Forall_impl; [|exact F1]. cbn. intros k Hk.
    apply orb_true_iff. left. apply Nat.leb_le. lia.
  - eapply Forall_impl; [|exact F3]. cbn. intros k Hk.
    apply andb_false_iff. right. apply Nat.leb_gt. lia.
  - rewrite Forall_forall in *. intros k Hk.
    specialize (Fr2 k Hk). specialize (F2 k Hk). cbn in *.
    apply andb_true_iff. split; apply Nat.leb_le; lia.
  - eapply Forall_impl; [|exact F1]. cbn. intros k Hk.
    apply andb_false_iff. left. apply Nat.leb_gt. lia.
Qed.

(** ** The shoelace sum *)

Section Area.

Variable points : list vec2.

Local Abbreviation det := (det points).
Local Abbreviation psum := (psum points).

Lemma det_anti (i j : nat) : det i j + det j i == 0.
Proof. unfold PolygonPartition.det. ring. Qed.

Lemma det_same (i : nat) : det i i == 0.
Proof. unfold PolygonPartition.det. ring. Qed.

Lemma psum_cons2 (a b : nat) (t : list nat) :
  psum (a :: b :: t) = det a b + psum (b :: t).
Proof. reflexivity. Qed.

Lemma psum_app (l1 : list nat) (m : nat) (l2 : list nat) :
  psum (l1 ++ m :: l2) == psum (l1 ++ [m]) + psum (m :: l2).
Proof.
  induction l1 as [|a l1 IH].
  - cbn [app psum]. ring.
  - destruct l1 as [|b l1].
    + cbn [app]. rewrite !psum_cons2. cbn [psum]. ring.
    + cbn [app] in *. rewrite !psum_cons2, IH. ring.
Qed.

Lemma psum_snoc (l : list nat) (a b : nat) :
  psum (l ++ [a; b]) == psum (l ++ [a]) + det a b.
Proof.
  rewrite psum_app. cbn [psum]. ring.
Qed.

Lemma area2_psum (a : nat) (t : list nat) :
  area2 points (a :: t) = psum (a :: t ++ [a]).
Proof.
  unfold area2, edges. cbn [rot1].
  generalize a at 2 4 as z. revert a.
  induction t as [|b t IH]; intros a z.
  - reflexivity.
  - cbn [app combine map Qsum fold_right fst snd]. rewrite psum_cons2.
    f_equal. exact (IH b z).
Qed.

Lemma area2_nil : area2 points [] = 0.
Proof. reflexivity. Qed.

Lemma area2_rot1 (l : Polygon) : area2 points (rot1 l) == area2 points l.
Proof.
  destruct l as [|a [|b t]]; try reflexivity.
  cbn [rot1 app]. rewrite !area2_psum.
  change ((t ++ [a]) ++ [b]) with ((t ++ [a]) ++ [b]).
  rewrite <- app_assoc. cbn [app].
  rewrite psum_cons2.
  change (b :: t ++ [a; b]) with ((b :: t) ++ [a; b]).
  rewrite psum_snoc. cbn [app]. ring.
Qed.

Lemma area2_rotate (l1 l2 : Polygon) :
  area2 points (l1 ++ l2) == area2 points (l2 ++ l1).
Proof.
  revert l2; induction l1 as [|a l1 IH]; intros l2.
  - now rewrite app_nil_r.
  - rewrite <- (area2_rot1 (_ ++ _)). cbn [app rot1].
    rewrite <- app_assoc, IH. rewrite <- app_assoc. reflexivity.
Qed.

(** A closed loop sum in terms of its open path, from any first vertex. *)
Lemma area2_cons (a : nat) (t : list nat) :
  area2 points (a :: t) == psum (a :: t) + det (last t a) a.
Proof.
  rewrite area2_psum.
  destruct (@exists_last _ (a :: t)) as (m & z & E); [discriminate|].
  assert (Hz : last t a = z).
  { rewrite <- (last_cons_default t a a), E. apply last_last. }
  rewrite Hz. change (a :: t ++ [a]) with ((a :: t) ++ [a]).
  rewrite E, <- app_assoc. cbn [app]. apply psum_snoc.
Qed.

(** Taking the vertex [b] out of a loop takes the triangle at [b] off its
    area. *)
Lemma area2_drop_front (b : nat) (l : list nat) :
  area2 points (b :: l)
  == area2 points [last l b; b; hd b l] + area2 points l.
Proof.
  destruct l as [|c l].
  - cbn [last hd]. rewrite !area2_psum, area2_nil. cbn [app psum].
    rewrite !det_same. ring.
  - cbn [hd]. rewrite (area2_cons b), (area2_cons c).
    rewrite (area2_psum (last (c :: l) b)). cbn [app].
    rewrite !psum_cons2. cbn [psum].
    rewrite (last_cons_default l c b).
    pose proof (det_anti (last l c) c) as H.
    set (u := det (last l c) c) in *. set (v := det c (last l c)) in *.
    assert (H0 : v == - u) by (rewrite <- (Qplus_0_r (- u)), <- H; ring).
    rewrite H0. ring.
Qed.

Lemma area2_drop (before : list nat) (b : nat) (after : list nat) :
  area2 points (before ++ b :: after)
  == area2 points [last before (last after b); b; hd (hd b before) after]
     + area2 points (before ++ after).
Proof.
  rewrite area2_rotate. cbn [app].
  rewrite (area2_rotate before after).
  rewrite area2_drop_front.
  assert (E1 : last (after ++ before) b = last before (last after b))
    by apply last_app_default.
  assert (E2 : hd b (after ++ before) = hd (hd b before) after)
    by (destruct after; reflexivity).
  now rewrite E1, E2.
Qed.

Lemma parts_area2_cons (r : Polygon) (rs : list Polygon) :
  parts_area2 points (r :: rs) = area2 points r + parts_area2 points rs.
Proof. reflexivity. Qed.

Lemma parts_area2_app (rs rs' : list Polygon) :
  parts_area2 points (rs ++ rs')
  == parts_area2 points rs + parts_area2 points rs'.
Proof.
  induction rs as [|r rs IH]; cbn [app].
  - unfold parts_area2 at 2. cbn. ring.
  - rewrite !parts_area2_cons, IH. ring.
Qed.

(** ** The triangulator *)

Variable eps : Q.

Lemma find_ear_spec (before rest : list nat) (t : nat * nat * nat)
    (poly' : Polygon) :
  find_ear eps points before rest = Some (t, poly') ->
  exists bef b aft,
    before ++ rest = bef ++ b :: aft /\ poly' = bef ++ aft /\
    t = (last bef (last aft b), b, hd (hd b bef) aft) /\
    is_ear eps points (last bef (last aft b)) b (hd (hd b bef) aft)
           (bef ++ aft) = true.
Proof.
  revert before; induction rest as [|b after IH]; intros before H;
    [discriminate|].
  cbn [find_ear] in H.
  destruct (is_ear eps points _ b _ (before ++ after)) eqn:E.
  - inversion H; subst. exists before, b, after. auto.
  - apply IH in H as (bef & b' & aft & H1 & H2).
    exists bef, b', aft. split; [|exact H2].
    now rewrite <- H1, <- app_assoc.
Qed.

Lemma triangulate_eq (fuel : nat) (poly : Polygon) :
  triangulate eps points fuel poly =
  match poly with
  | [a; b; c] => Some [(a, b, c)]
  | _ =>
      match fuel with
      | O => None
      | S fuel' =>
          match find_ear eps points [] poly with
          | None => None
          | Some (t, poly') =>
              match triangulate eps points fuel' poly' with
              | None => None
              | Some ts => Some (t :: ts)
              end
          end
      end
  end.
Proof. destruct fuel; reflexivity. Qed.

(** What one clip does, whatever the shape of the polygon. *)
Lemma triangulate_inv (fuel : nat) (poly : Polygon)
    (ts : list (nat * nat * nat)) :
  triangulate eps points fuel poly = Some ts ->
  (exists a b c, poly = [a; b; c] /\ ts = [(a, b, c)]) \/
  (exists fuel' t poly' ts',
     fuel = S fuel' /\ ts = t :: ts' /\
     find_ear eps points [] poly = Some (t, poly') /\
     triangulate eps points fuel' poly' = Some ts').
Proof.
  rewrite triangulate_eq. intros H.
  assert (G : match fuel with
              | O => None
              | S fuel' =>
                  match find_ear eps points [] poly with
                  | None => None
                  | Some (t, poly') =>
                      match triangulate eps points fuel' poly' with
                      | None => None
                      | Some ts => Some (t :: ts)
                      end
                  end
              end = Some ts ->
              exists fuel' t poly' ts',
                fuel = S fuel' /\ ts = t :: ts' /\
                find_ear eps points [] poly = Some (t, poly') /\
                triangulate eps points fuel' poly' = Some ts').
  { clear H. destruct fuel as [|fuel']; [discriminate|].
    destruct (find_ear eps points [] poly) as [[t poly']|]; [|discriminate].
    destruct (triangulate eps points fuel' poly') as [ts'|] eqn:E;
      [|discriminate].
    intros H; inversion H; subst. exists fuel', t, poly', ts'. auto. }
  destruct poly as [|a [|b [|c [|d l]]]]; auto.
  left. inversion H; subst. exists a, b, c. auto.
Qed.

(** The triangles of a triangulation have the area of the polygon. *)
Lemma triangulate_area (fuel : nat) (poly : Polygon)
    (ts : list (nat * nat * nat)) :
  triangulate eps points fuel poly = Some ts ->
  area2 points poly == parts_area2 points (map triangle_loop ts).
Proof.
  revert poly ts; induction fuel as [|fuel IH]; intros poly ts H;
    apply triangulate_inv in H
      as [(a & b & c & -> & ->) | (f' & t & poly' & ts' & E & -> & F & T)];
    try discriminate.
  - unfold parts_area2. cbn. ring.
  - unfold parts_area2. cbn. ring.
  - inversion E; subst f'. apply IH in T.
    apply find_ear_spec in F as (bef & b & aft & H1 & -> & -> & _).
    cbn [app] in H1. subst poly.
    cbn [map]. rewrite parts_area2_cons, <- T. cbn [triangle_loop fst snd].
    apply area2_drop.
Qed.

(** The triangles are made of vertices of the polygon. *)
Lemma find_ear_members (before rest : list nat) (a b c : nat)
    (poly' : Polygon) :
  find_ear eps points before rest = Some ((a, b, c), poly') ->
  In a (before ++ rest) /\ In b (before ++ rest) /\ In c (before ++ rest)
  /\ (forall k, In k poly' -> In k (before ++ rest)).
Proof.
  intros H. apply find_ear_spec in H as (bef & b' & aft & -> & -> & E & _).
  inversion E; subst; clear E.
  assert (Hl : forall (l : list nat) d, In (last l d) l \/ last l d = d).
  { induction l as [|z l IHl]; intros d; [now right|].
    rewrite last_cons_default. destruct (IHl z); cbn; auto. }
  assert (Hh : forall (l : list nat) d, In (hd d l) l \/ hd d l = d)
    by (destruct l; cbn; auto).
  repeat split.
  - rewrite in_app_iff; cbn.
    destruct (Hl bef (last aft b')) as [?| ->]; auto.
    destruct (Hl aft b') as [?| ->]; auto.
  - rewrite in_app_iff; cbn; auto.
  - rewrite in_app_iff; cbn.
    destruct (Hh aft (hd b' bef)) as [?| ->]; auto.
    destruct (Hh bef b') as [?| ->]; auto.
  - intros k. rewrite !in_app_iff; cbn. tauto.
Qed.

Lemma triangulate_members (fuel : nat) (poly : Polygon)
    (ts : list (nat * nat * nat)) :
  triangulate eps points fuel poly = Some ts ->
  forall t k, In t ts -> In k (triangle_loop t) -> In k poly.
Proof.
  revert poly ts; induction fuel as [|fuel IH]; intros poly ts H;
    apply triangulate_inv in H
      as [(a & b & c & -> & ->) | (f' & t & poly' & ts' & E & -> & F & T)];
    try discriminate.
  - intros t k [<- | [ ] ] Hk. exact Hk.
  - intros t k [<- | [ ] ] Hk. exact Hk.
  - inversion E; subst f'. destruct t as [[a b] c].
    apply find_ear_members in F as (Ha & Hb & Hc & Hp). cbn [app] in *.
    intros t k [<-|Ht] Hk.
    + cbn in Hk. destruct Hk as [<-|[<-|[<- | [ ] ]]]; assumption.
    + apply Hp. eapply IH; eauto.
Qed.

(** ** The merging pass *)

Lemma open_at_aux_spec (u v : nat) (n : nat) (l l' : Polygon) :
  open_at_aux u v n l = Some l' ->
  (exists k, l' = Nat.iter k (@rot1 nat) l) /\
  (exists t, l' = v :: t /\ last t v = u).
Proof.
  revert l; induction n as [|n IH]; intros l H; [discriminate|].
  cbn [open_at_aux] in H. destruct l as [|a t]; [discriminate|].
  destruct (Nat.eqb a v && Nat.eqb (last t a) u) eqn:E.
  - inversion H; subst l'. apply andb_prop in E as [E1 E2].
    apply Nat.eqb_eq in E1, E2. subst a. split.
    + now exists 0%nat.
    + now exists t.
  - apply IH in H as [(k & Hk) Ht]. split; [|exact Ht].
    exists (S k). rewrite Hk. symmetry. apply Nat.iter_succ_r.
Qed.

Lemma open_at_spec (u v : nat) (l l' : Polygon) :
  open_at u v l = Some l' ->
  (exists k, l' = Nat.iter k (@rot1 nat) l) /\
  (exists t, l' = v :: t /\ last t v = u).
Proof. apply open_at_aux_spec. Qed.

Lemma area2_iter_rot1 (k : nat) (l : Polygon) :
  area2 points (Nat.iter k (@rot1 nat) l) == area2 points l.
Proof.
  induction k as [|k IH]; [reflexivity|].
  rewrite Nat.iter_succ. now rewrite area2_rot1.
Qed.

Lemma In_iter_rot1 (k : nat) (l : Polygon) (a : nat) :
  In a (Nat.iter k (@rot1 nat) l) <-> In a l.
Proof.
  induction k as [|k IH]; [reflexivity|].
  rewrite Nat.iter_succ. now rewrite In_rot1.
Qed.

Lemma extract_spec (f : Polygon -> option Polygon) (rs : list Polygon)
    (r' : Polygon) (rest : list Polygon) :
  extract f rs = Some (r', rest) ->
  exists l1 r l2, rs = l1 ++ r :: l2 /\ rest = l1 ++ l2 /\ f r = Some r'.
Proof.
  revert r' rest; induction rs as [|r rs IH]; intros r' rest H;
    [discriminate|].
  cbn [extract] in H. destruct (f r) as [r0|] eqn:E.
  - inversion H; subst. exists [], r, rest. auto.
  - destruct (extract f rs) as [[r1 rest1]|]; [|discriminate].
    inversion H; subst. destruct (IH r' rest1 eq_refl)
      as (l1 & r2 & l2 & -> & -> & F).
    exists (r :: l1), r2, l2. auto.
Qed.

Lemma parts_area2_middle (l1 : list Polygon) (r : Polygon)
    (l2 : list Polygon) :
  parts_area2 points (l1 ++ r :: l2)
  == area2 points r + parts_area2 points (l1 ++ l2).
Proof.
  rewrite !parts_area2_app, parts_area2_cons. ring.
Qed.

(** Two loops glued along a common edge run in opposite directions have
    the sum of the areas. *)
Lemma area2_merge (u v : nat) (ta tb : list nat) :
  last ta v = u -> last tb u = v ->
  area2 points (merge_regions (v :: ta) (u :: tb))
  == area2 points (v :: ta) + area2 points (u :: tb).
Proof.
  intros Ha Hb. unfold merge_regions. cbn [tl].
  destruct (list_eq_dec Nat.eq_dec tb []) as [->|Nb].
  - cbn in Hb. subst v. cbn [removelast]. rewrite app_nil_r.
    rewrite (area2_psum u []). cbn [app psum]. rewrite det_same. ring.
  - destruct (exists_last Nb) as (n & z & ->).
    rewrite last_last in Hb. subst z. rewrite removelast_last.
    destruct (list_eq_dec Nat.eq_dec ta []) as [->|Na].
    + cbn in Ha. subst u. cbn [app]. rewrite !area2_psum. cbn [app].
      rewrite <- ?app_assoc. cbn [app].
      change (v :: n ++ [v; v]) with ((v :: n) ++ [v; v]).
      rewrite psum_snoc. change (psum [v; v]) with (det v v + 0).
      rewrite !det_same. cbn [app]. ring.
    + destruct (exists_last Na) as (m & z & ->).
      rewrite last_last in Ha. subst z.
      cbn [app]. rewrite !area2_psum. rewrite <- !app_assoc. cbn [app].
      change (v :: m ++ u :: n ++ [v]) with ((v :: m) ++ u :: n ++ [v]).
      rewrite psum_app.
      change (v :: m ++ [u; v]) with ((v :: m) ++ [u; v]).
      change (u :: n ++ [v; u]) with ((u :: n) ++ [v; u]).
      rewrite !psum_snoc. cbn [app].
      pose proof (det_anti u v) as H.
      set (p := det u v) in *. set (q := det v u) in *.
      assert (H0 : q == - p) by (rewrite <- (Qplus_0_r (- p)), <- H; ring).
      rewrite H0. ring.
Qed.

Lemma merge_step_area (d : nat * nat) (rs : list Polygon) :
  parts_area2 points (merge_step eps points d rs) == parts_area2 points rs.
Proof.
  unfold merge_step. destruct d as [u v].
  destruct (extract (open_at u v) rs) as [[ra rs1]|] eqn:E1; [|reflexivity].
  destruct (extract (open_at v u) rs1) as [[rb rs2]|] eqn:E2;
    [|reflexivity].
  destruct (merge_safe eps points u v ra rb); [|reflexivity].
  apply extract_spec in E1 as (l1 & r1 & l2 & -> & -> & O1).
  apply extract_spec in E2 as (l3 & r2 & l4 & E & -> & O2).
  apply open_at_spec in O1 as [(k1 & K1) (ta & -> & La)].
  apply open_at_spec in O2 as [(k2 & K2) (tb & -> & Lb)].
  rewrite parts_area2_middle, E, parts_area2_middle, parts_area2_cons.
  rewrite (area2_merge u v ta tb La Lb).
  rewrite K1, K2, !area2_iter_rot1. ring.
Qed.

Lemma fold_merge_area (ds : list (nat * nat)) (rs : list Polygon) :
  parts_area2 points
    (fold_left (fun rs d => merge_step eps points d rs) ds rs)
  == parts_area2 points rs.
Proof.
  revert rs; induction ds as [|d ds IH]; intros rs; [reflexivity|].
  cbn [fold_left]. now rewrite IH, merge_step_area.
Qed.

(** The parts of the Hertel-Mehlhorn partitioner have the area of the
    polygon. *)
Lemma partition_HM_area (poly : Polygon) (parts : list Polygon) :
  partition_HM eps points poly = Some parts ->
  parts_area2 points parts == area2 points poly.
Proof.
  unfold partition_HM.
  destruct (triangulate eps points (List.length poly) poly) as [ts|] eqn:T;
    [|discriminate].
  intros H; inversion H; subst parts.
  rewrite fold_merge_area. symmetry. eapply triangulate_area; eauto.
Qed.

Lemma In_removelast {A : Type} (a : A) (l : list A) :
  In a (removelast l) -> In a l.
Proof.
  induction l as [|b l IH]; [tauto|].
  destruct l as [|c l]; [cbn; tauto|].
  change (removelast (b :: c :: l)) with (b :: removelast (c :: l)).
  intros [->|H]; [now left | right; auto].
Qed.

Lemma merge_step_vertices (poly : Polygon) (d : nat * nat)
    (rs : list Polygon) :
  vertices_in poly rs -> vertices_in poly (merge_step eps points d rs).
Proof.
  intros V. unfold merge_step. destruct d as [u v].
  destruct (extract (open_at u v) rs) as [[ra rs1]|] eqn:E1; [|exact V].
  destruct (extract (open_at v u) rs1) as [[rb rs2]|] eqn:E2; [|exact V].
  destruct (merge_safe eps points u v ra rb); [|exact V].
  apply extract_spec in E1 as (l1 & r1 & l2 & -> & -> & O1).
  apply extract_spec in E2 as (l3 & r2 & l4 & E & -> & O2).
  apply open_at_spec in O1 as [(k1 & K1) _].
  apply open_at_spec in O2 as [(k2 & K2) _].
  assert (V1 : forall r, In r (l1 ++ l2) -> In r (l1 ++ r1 :: l2)).
  { intros r. rewrite !in_app_iff. cbn. tauto. }
  assert (V2 : forall r, In r (l3 ++ l4) -> In r (l3 ++ r2 :: l4)).
  { intros r. rewrite !in_app_iff. cbn. tauto. }
  assert (I1 : In r1 (l1 ++ r1 :: l2)) by (apply in_elt).
  assert (I2 : In r2 (l1 ++ r1 :: l2))
    by (apply V1; rewrite E; apply in_elt).
  intros r k [<-|Hr] Hk.
  - unfold merge_regions in Hk. apply in_app_or in Hk as [Hk|Hk].
    + apply (V r1); auto. rewrite K1 in Hk. now apply In_iter_rot1 in Hk.
    + apply (V r2); auto. apply In_removelast in Hk.
      assert (In k rb) by (destruct rb; [destruct Hk | now right]).
      subst rb. now apply In_iter_rot1 in H.
  - apply (V r); auto. apply V1. rewrite E. now apply V2.
Qed.

Lemma partition_HM_vertices (poly : Polygon) (parts : list Polygon) :
  partition_HM eps points poly = Some parts -> vertices_in poly parts.
Proof.
  unfold partition_HM.
  destruct (triangulate eps points (List.length poly) poly) as [ts|] eqn:T;
    [|discriminate].
  intros H; inversion H; subst parts; clear H.
  assert (V : vertices_in poly (map triangle_loop ts)).
  { intros r k Hr Hk. apply in_map_iff in Hr as (t & <- & Ht).
    eapply triangulate_members; eauto. }
  revert V. generalize (map triangle_loop ts). 
  induction (diagonals_of ts) as [|d ds IH]; intros rs V; [exact V|].
  cbn [fold_left]. apply IH. now apply merge_step_vertices.
Qed.

(** ** The optimal partitioner *)

Lemma area2_chains (i j : nat) (poly : Polygon) :
  StronglySorted lt poly -> In i poly -> In j poly -> (i < j)%nat ->
  area2 points (chain_between i j poly) + area2 points (chain_around i j poly)
  == area2 points poly.
Proof.
  intros S Hi Hj Hij.
  destruct (chain_split i j poly S Hi Hj Hij) as (l1 & l2 & l3 & -> & -> & ->).
  rewrite (area2_rotate l1 (i :: l2 ++ j :: l3)).
  rewrite (area2_rotate l1 (i :: j :: l3)).
  cbn [app]. rewrite !area2_psum. rewrite <- !app_assoc. cbn [app].
  change (i :: l2 ++ j :: l3 ++ l1 ++ [i])
    with ((i :: l2) ++ j :: l3 ++ l1 ++ [i]).
  rewrite psum_app.
  change (i :: l2 ++ [j; i]) with ((i :: l2) ++ [j; i]).
  rewrite psum_snoc. rewrite (psum_cons2 i j). rewrite <- ?app_assoc.
  pose proof (det_anti i j) as H.
  set (p := det i j) in *. set (q := det j i) in *.
  assert (H0 : q == - p) by (rewrite <- (Qplus_0_r (- p)), <- H; ring).
  rewrite H0. ring.
Qed.

Lemma fewest_In (cands : list (option (list Polygon)))
    (r : list Polygon) :
  fewest cands = Some r -> In (Some r) cands.
Proof.
  induction cands as [|c cands IH]; [discriminate|].
  cbn [fewest]. destruct c as [ps|]; [|intros H; right; auto].
  destruct (fewest cands) as [qs|].
  - destruct (Nat.leb _ _); intros H; inversion H; subst;
      [now left | right; auto].
  - intros H; inversion H; subst. now left.
Qed.

Lemma In_existsb_eqb (k : nat) (l : list nat) :
  existsb (Nat.eqb k) l = true -> In k l.
Proof.
  intros H. apply existsb_exists in H as (z & Hz & E).
  apply Nat.eqb_eq in E. now subst.
Qed.

Lemma partition_OPT_aux_area (fuel : nat) (ds : list (nat * nat))
    (poly : Polygon) (parts : list Polygon) :
  (forall d, In d ds -> (fst d < snd d)%nat) ->
  StronglySorted lt poly ->
  partition_OPT_aux eps points fuel ds poly = Some parts ->
  parts_area2 points parts == area2 points poly.
Proof.
  intros Hds. revert poly parts.
  induction fuel as [|fuel IH]; intros poly parts S H; [discriminate|].
  cbn [partition_OPT_aux] in H.
  destruct (is_convex eps points poly).
  - inversion H; subst. unfold parts_area2. cbn. ring.
  - apply fewest_In, in_map_iff in H as (d & H & Hd).
    apply filter_In in Hd as [Hd Hc].
    apply andb_prop in Hc as [Hc _]. apply andb_prop in Hc as [Hi Hj].
    apply In_existsb_eqb in Hi, Hj.
    destruct (partition_OPT_aux eps points fuel ds
                (chain_between (fst d) (snd d) poly)) as [ps|] eqn:E1;
      [|discriminate].
    destruct (partition_OPT_aux eps points fuel ds
                (chain_around (fst d) (snd d) poly)) as [qs|] eqn:E2;
      [|discriminate].
    inversion H; subst parts.
    apply IH in E1; [|now apply sorted_filter].
    apply IH in E2; [|now apply sorted_filter].
    rewrite parts_area2_app, E1, E2.
    apply area2_chains; auto.
Qed.

(** One step of the optimal partitioner, read backwards. *)
Lemma partition_OPT_aux_inv (fuel : nat) (ds : list (nat * nat))
    (poly : Polygon) (parts : list Polygon) :
  partition_OPT_aux eps points fuel ds poly = Some parts ->
  (is_convex eps points poly = true /\ parts = [poly]) \/
  (is_convex eps points poly = false /\
   exists fuel' d ps qs,
     fuel = S fuel' /\ In d (cuts ds poly) /\
     partition_OPT_aux eps points fuel' ds
       (chain_between (fst d) (snd d) poly) = Some ps /\
     partition_OPT_aux eps points fuel' ds
       (chain_around (fst d) (snd d) poly) = Some qs /\
     parts = ps ++ qs).
Proof.
  destruct fuel as [|fuel]; [discriminate|]. cbn [partition_OPT_aux].
  destruct (is_convex eps points poly).
  - intros H; inversion H; subst. left. auto.
  - intros H. right. split; [reflexivity|].
    apply fewest_In, in_map_iff in H as (d & H & Hd).
    destruct (partition_OPT_aux eps points fuel ds
                (chain_between (fst d) (snd d) poly)) as [ps|] eqn:E1;
      [|discriminate].
    destruct (partition_OPT_aux eps points fuel ds
                (chain_around (fst d) (snd d) poly)) as [qs|] eqn:E2;
      [|discriminate].
    inversion H; subst. exists fuel, d, ps, qs. auto.
Qed.

Lemma partition_OPT_aux_nonempty (fuel : nat) (ds : list (nat * nat))
    (poly : Polygon) (parts : list Polygon) :
  partition_OPT_aux eps points fuel ds poly = Some parts ->
  (1 <= List.length parts)%nat.
Proof.
  revert poly parts; induction fuel as [|fuel IH]; intros poly parts H;
    [discriminate|].
  apply partition_OPT_aux_inv in H
    as [[_ ->] | [_ (f' & d & ps & qs & E & _ & P1 & _ & ->)]].
  - cbn. lia.
  - inversion E; subst f'. apply IH in P1. rewrite length_app. lia.
Qed.

Lemma index_pairs_lt (poly : Polygon) (d : nat * nat) :
  In d (index_pairs poly) -> (fst d < snd d)%nat.
Proof.
  unfold index_pairs. intros H.
  apply in_flat_map in H as (i & _ & H).
  apply in_map_iff in H as (j & <- & H).
  apply filter_In in H as [_ H]. now apply Nat.ltb_lt in H.
Qed.

Lemma partition_OPT_area (n : nat) (parts : list Polygon) :
  partition_OPT eps points (seq 0 n) = Some parts ->
  parts_area2 points parts == area2 points (seq 0 n).
Proof.
  apply partition_OPT_aux_area; [|apply sorted_seq].
  intros d Hd. apply filter_In in Hd as [Hd _].
  now apply index_pairs_lt in Hd.
Qed.

(** ** The hole merger *)

Lemma nth_split_at {A : Type} (l : list A) (p : nat) (d : A) :
  (p < List.length l)%nat ->
  firstn (S p) l = firstn p l ++ [nth p l d] /\
  skipn p l = nth p l d :: skipn (S p) l.
Proof.
  revert p; induction l as [|a l IH]; intros p Hp; [cbn in Hp; lia|].
  destruct p as [|p]; [now split|].
  cbn in Hp. destruct (IH p ltac:(lia)) as [H1 H2]. split.
  - change (firstn (S (S p)) (a :: l)) with (a :: firstn (S p) l).
    now rewrite H1.
  - exact H2.
Qed.

Lemma area2_splice (host hole : Polygon) (p q : nat) :
  (p < List.length host)%nat -> (q < List.length hole)%nat ->
  area2 points (splice host hole p q)
  == area2 points host + area2 points hole.
Proof.
  intros Hp Hq. unfold splice.
  destruct (nth_split_at host p 0%nat Hp) as [F1 S1].
  destruct (nth_split_at hole q 0%nat Hq) as [_ S2].
  assert (Eh : area2 points host
               == area2 points (nth p host 0%nat
                                  :: skipn (S p) host ++ firstn p host)).
  { rewrite <- (firstn_skipn p host) at 1. rewrite S1.
    apply (area2_rotate (firstn p host)). }
  assert (Er : area2 points hole
               == area2 points (nth q hole 0%nat
                                  :: skipn (S q) hole ++ firstn q hole)).
  { rewrite <- (firstn_skipn q hole) at 1. rewrite S2.
    apply (area2_rotate (firstn q hole)). }
  rewrite F1, S1, S2, Eh, Er. cbn [app].
  generalize (nth p host 0%nat) as v. generalize (nth q hole 0%nat) as w.
  generalize (firstn p host) as h1. generalize (skipn (S p) host) as h2.
  generalize (skipn (S q) hole ++ firstn q hole) as r.
  intros r h2 h1 w v. rewrite <- !app_assoc. cbn [app].
  rewrite (area2_rotate h1). cbn [app].
  rewrite !area2_psum. rewrite <- !app_assoc. cbn [app].
  rewrite (psum_cons2 v w).
  repeat (rewrite <- app_assoc; cbn [app]).
  change (w :: r ++ w :: v :: h2 ++ h1 ++ [v])
    with ((w :: r) ++ w :: v :: h2 ++ h1 ++ [v]).
  rewrite psum_app. rewrite (psum_cons2 w v). cbn [app].
  clear. pose proof (det_anti v w) as H.
  set (a := det v w) in *. set (b := det w v) in *.
  assert (H0 : b == - a) by (rewrite <- (Qplus_0_r (- a)), <- H; ring).
  rewrite H0. ring.
Qed.

Lemma In_bridges (polys holes : list Polygon) (hole : Polygon)
    (dd : Q) (hn p q : nat) :
  In (dd, (hn, p, q)) (bridges eps points polys holes hole) ->
  (hn < List.length polys)%nat /\
  (p < List.length (nth hn polys []))%nat /\
  (q < List.length hole)%nat.
Proof.
  unfold bridges. intros H.
  apply in_flat_map in H as (hn' & Hh & H).
  apply in_flat_map in H as (p' & Hp & H).
  apply in_flat_map in H as (q' & Hq & H).
  destruct (bridge_ok _ _ _ _ _ _ _); [|destruct H].
  destruct H as [H|[]]. inversion H; subst.
  apply in_seq in Hh, Hp, Hq. lia.
Qed.

Lemma nearest_In (bs : list (Q * Bridge)) (b : Q * Bridge) :
  nearest bs = Some b -> In b bs.
Proof.
  revert b; induction bs as [|c bs IH]; intros b; [discriminate|].
  cbn [nearest]. destruct (nearest bs) as [b'|].
  - destruct (Qle_bool _ _); intros H; inversion H; subst;
      [now left | right; auto].
  - intros H; inversion H; subst. now left.
Qed.

Lemma replace_nth_area (hn : nat) (new : Polygon) (polys : list Polygon) :
  (hn < List.length polys)%nat ->
  parts_area2 points (replace_nth hn new polys)
    + area2 points (nth hn polys [])
  == parts_area2 points polys + area2 points new.
Proof.
  revert hn; induction polys as [|r polys IH]; intros hn H;
    [cbn in H; lia|].
  destruct hn as [|hn]; cbn [replace_nth nth].
  - rewrite !parts_area2_cons. ring.
  - cbn in H. rewrite !parts_area2_cons.
    rewrite <- Qplus_assoc, (IH hn ltac:(lia)). ring.
Qed.

(** Bridging adds the (negative) area of every hole to the loops. *)
Lemma merge_holes_area (polys holes bs : list Polygon) :
  merge_holes eps points polys holes = Some bs ->
  parts_area2 points bs
  == parts_area2 points polys + parts_area2 points holes.
Proof.
  revert polys; induction holes as [|hole holes IH]; intros polys H.
  - inversion H; subst. unfold parts_area2 at 3. cbn. ring.
  - cbn [merge_holes] in H.
    destruct (nearest _) as [[dd [[hn p] q]]|] eqn:N; [|discriminate].
    apply nearest_In, In_bridges in N as (Hh & Hp & Hq).
    apply IH in H. rewrite H, parts_area2_cons.
    pose proof (replace_nth_area hn
                  (splice (nth hn polys []) hole p q) polys Hh) as R.
    rewrite (area2_splice _ _ p q Hp Hq) in R.
    set (A := parts_area2 points (replace_nth hn _ polys)) in *.
    set (B := area2 points (nth hn polys [])) in *.
    assert (E : A == parts_area2 points polys + area2 points hole).
    { rewrite <- (Qplus_0_r A), <- (Qplus_opp_r B), Qplus_assoc, R. ring. }
    rewrite E. ring.
Qed.

End Area.

(** ** The general facade *)

Section General.

Variable eps : Q.
Variable points : list vec2.

Lemma parts_area2_globalize (b : Polygon) (ps : list Polygon) :
  vertices_in (seq 0 (List.length b)) ps ->
  parts_area2 points (globalize b ps)
  = parts_area2 (localize points b) ps.
Proof.
  intros V. unfold parts_area2, globalize. rewrite map_map. f_equal.
  apply map_ext_in. intros r Hr. symmetry. apply area2_localize.
  intros k Hk. specialize (V r k Hr Hk). apply in_seq in V. lia.
Qed.

Lemma partition_each_area (bs parts : list Polygon) :
  partition_each eps points bs = Some parts ->
  parts_area2 points parts == parts_area2 points bs.
Proof.
  revert parts; induction bs as [|b bs IH]; intros parts H.
  - inversion H; subst. reflexivity.
  - cbn [partition_each] in H.
    destruct (partition_HM eps (localize points b) _) as [ps|] eqn:P;
      [|discriminate].
    destruct (partition_each eps points bs) as [qs|]; [|discriminate].
    inversion H; subst parts.
    rewrite parts_area2_app, parts_area2_cons, (IH qs eq_refl).
    rewrite (parts_area2_globalize b ps)
      by (eapply partition_HM_vertices; eauto).
    rewrite (partition_HM_area _ _ _ _ P).
    rewrite area2_localize
      by (intros k Hk; apply in_seq in Hk; lia).
    rewrite map_nth_seq. reflexivity.
Qed.

Lemma partition_each_spec (bs parts : list Polygon) :
  partition_each eps points bs = Some parts ->
  exists pss,
    Forall2 (fun b ps =>
               partition_HM eps (localize points b)
                 (seq 0 (List.length b)) = Some ps) bs pss /\
    parts = List.concat (map (fun bp => globalize (fst bp) (snd bp))
                        (combine bs pss)).
Proof.
  revert parts; induction bs as [|b bs IH]; intros parts H.
  - inversion H; subst. exists []. split; [constructor | reflexivity].
  - cbn [partition_each] in H.
    destruct (partition_HM eps (localize points b) _) as [ps|] eqn:P;
      [|discriminate].
    destruct (partition_each eps points bs) as [qs|]; [|discriminate].
    inversion H; subst parts.
    destruct (IH qs eq_refl) as (pss & F & ->).
    exists (ps :: pss). split; [now constructor | reflexivity].
Qed.

Lemma localize_seq : localize points (seq 0 (List.length points)) = points.
Proof. unfold localize, pt. apply map_nth_seq. Qed.

Lemma globalize_seq (n : nat) (ps : list Polygon) :
  vertices_in (seq 0 n) ps -> globalize (seq 0 n) ps = ps.
Proof.
  intros V. unfold globalize. rewrite <- (map_id ps) at 2.
  apply map_ext_in. intros r Hr. rewrite <- (map_id r) at 2.
  apply map_ext_in. intros k Hk. specialize (V r k Hr Hk).
  apply in_seq in V. rewrite seq_nth; lia.
Qed.

Lemma apply_HM_vertices :
  vertices_in (seq 0 (List.length points)) (snd (apply_HM eps points)).
Proof.
  unfold apply_HM. destruct (valid_polygon _ _ _); [|intros r k []].
  destruct (partition_HM _ _ _) eqn:P; [|intros r k []].
  eapply partition_HM_vertices; eauto.
Qed.

Lemma holes_area2_neg (holes : list Polygon) :
  forallb (valid_hole eps points) holes = true ->
  parts_area2 points holes == - holes_area2 points holes.
Proof.
  induction holes as [|h holes IH]; cbn [forallb]; intros H.
  - reflexivity.
  - apply andb_prop in H as [Hh H]. rewrite parts_area2_cons, (IH H).
    unfold holes_area2, Qsum. cbn [map fold_right].
    unfold valid_hole in Hh. apply andb_prop in Hh as [_ Hh].
    unfold Qlt_bool in Hh. apply negb_true_iff in Hh.
    assert (Hn : area2 points h <= 0).
    { apply Qnot_lt_le. intros C. apply Qlt_le_weak in C.
      apply Qle_bool_iff in C. congruence. }
    rewrite (Qabs_neg _ Hn). ring.
Qed.

Lemma parts_area_half (rs : list Polygon) :
  parts_area points rs == parts_area2 points rs / 2.
Proof.
  unfold parts_area, parts_area2, signed_area.
  induction rs as [|r rs IH]; cbn [map Qsum fold_right].
  - reflexivity.
  - fold (Qsum (map (fun p => area2 points p / 2) rs)).
    fold (Qsum (map (area2 points) rs)). rewrite IH. field.
Qed.

Lemma holes_area_half (hs : list Polygon) :
  holes_area points hs == holes_area2 points hs / 2.
Proof.
  unfold holes_area, holes_area2, signed_area.
  induction hs as [|h hs IH]; cbn [map Qsum fold_right].
  - reflexivity.
  - fold (Qsum (map (fun p => Qabs (area2 points p / 2)) hs)).
    fold (Qsum (map (fun p => Qabs (area2 points p)) hs)). rewrite IH.
    unfold Qdiv at 1. rewrite Qabs_Qmult.
    change (Qabs (/ 2)) with (/ 2). field.
Qed.

Lemma apply_HM_area2 (parts : list Polygon) :
  apply_HM eps points = (true, parts) ->
  parts_area2 points parts == area2 points (seq 0 (List.length points)).
Proof.
  unfold apply_HM. destruct (valid_polygon _ _ _); [|discriminate].
  destruct (partition_HM _ _ _) as [ps|] eqn:P; [|discriminate].
  intros H; inversion H; subst. eapply partition_HM_area; eauto.
Qed.

Lemma apply_OPT_area2 (parts : list Polygon) :
  apply_OPT eps points = (true, parts) ->
  parts_area2 points parts == area2 points (seq 0 (List.length points)).
Proof.
  unfold apply_OPT. destruct (valid_polygon _ _ _); [|discriminate].
  destruct (partition_OPT _ _ _) as [ps|] eqn:P; [|discriminate].
  intros H; inversion H; subst. eapply partition_OPT_area; eauto.
Qed.

Lemma apply_area2 (polys holes parts : list Polygon) :
  apply eps points polys holes = (true, parts) ->
  parts_area2 points parts
  == parts_area2 points polys - holes_area2 points holes.
Proof.
  unfold apply.
  destruct (valid_input eps points polys holes) eqn:V; [|discriminate].
  destruct (merge_holes _ _ _ _) as [bs|] eqn:M; [|discriminate].
  destruct (partition_each _ _ _) as [ps|] eqn:P; [|discriminate].
  intros H; inversion H; subst.
  rewrite (partition_each_area _ _ P), (merge_holes_area _ _ _ _ _ M).
  unfold valid_input in V. apply andb_prop in V as [V _].
  apply andb_prop in V as [V _]. apply andb_prop in V as [_ V].
  rewrite (holes_area2_neg _ V). ring.
Qed.

Lemma apply_HM_area (parts : list Polygon) :
  apply_HM eps points = (true, parts) ->
  parts_area points parts
  == signed_area points (seq 0 (List.length points)).
Proof.
  intros H. rewrite parts_area_half, (apply_HM_area2 _ H). reflexivity.
Qed.

Lemma apply_OPT_area (parts : list Polygon) :
  apply_OPT eps points = (true, parts) ->
  parts_area points parts
  == signed_area points (seq 0 (List.length points)).
Proof.
  intros H. rewrite parts_area_half, (apply_OPT_area2 _ H). reflexivity.
Qed.

(** C3.  When [apply_OPT] or [apply_HM] accepts a polygon, the signed
    areas of the returned parts add up to the signed area of the polygon;
    when [apply] accepts polygons with holes, the areas of the parts add up
    to the area of the polygons minus the area of the holes.  The sums are
    equal exactly, hence within every tolerance. *)
Theorem area_preserved (polys holes : list Polygon) :
  (forall parts, apply_HM eps points = (true, parts) ->
     parts_area points parts
     == signed_area points (seq 0 (List.length points))
     /\ forall tol, 0 <= tol ->
          Qabs (parts_area points parts
                - signed_area points (seq 0 (List.length points)))
          <= tol) /\
  (forall parts, apply_OPT eps points = (true, parts) ->
     parts_area points parts
     == signed_area points (seq 0 (List.length points))
     /\ forall tol, 0 <= tol ->
          Qabs (parts_area points parts
                - signed_area points (seq 0 (List.length points)))
          <= tol) /\
  (forall parts, apply eps points polys holes = (true, parts) ->
     parts_area points parts
     == parts_area points polys - holes_area points holes
     /\ forall tol, 0 <= tol ->
          Qabs (parts_area points parts
                - (parts_area points polys - holes_area points holes))
          <= tol).
Proof.
  assert (T : forall a b, a == b ->
                a == b /\ forall tol, 0 <= tol -> Qabs (a - b) <= tol).
  { intros a b E. split; [exact E|]. intros tol Ht.
    assert (Z : a - b == 0) by (rewrite E; ring).
    rewrite Z. exact Ht. }
  split; [|split]; intros parts H; apply T.
  - now apply apply_HM_area.
  - now apply apply_OPT_area.
  - rewrite !parts_area_half, holes_area_half, (apply_area2 _ _ _ H).
    field.
Qed.

End General.


(** ** Orientation *)

Section Orientation.

Variable eps : Q.
Hypothesis eps_nonneg : 0 <= eps.

Lemma cross_rot (a b c : vec2) : cross b c a == cross a b c.
Proof. unfold cross. ring. Qed.

Lemma cross_swap (a b c : vec2) : cross a c b == - cross a b c.
Proof. unfold cross. ring. Qed.

Lemma cross_rev (a b c : vec2) : cross b a c == - cross a b c.
Proof. unfold cross. ring. Qed.

Lemma cross_flat_l (a b : vec2) : cross a b a == 0.
Proof. unfold cross. ring. Qed.

Lemma cross_flat_r (a b : vec2) : cross a b b == 0.
Proof. unfold cross. ring. Qed.

Lemma orientation_left (a b c : vec2) :
  orientation eps a b c = LeftTurn <-> eps < cross a b c.
Proof.
  unfold orientation. destruct (Qlt_bool eps (cross a b c)) eqn:E.
  - apply Qlt_bool_iff in E. tauto.
  - split; [destruct (Qlt_bool (cross a b c) (- eps)); intros H;
            discriminate H|].
    intros H. apply Qlt_bool_iff in H. congruence.
Qed.

Lemma orientation_right (a b c : vec2) :
  orientation eps a b c = RightTurn <-> cross a b c < - eps.
Proof.
  unfold orientation. destruct (Qlt_bool eps (cross a b c)) eqn:E.
  - apply Qlt_bool_iff in E. split; [intros H; discriminate H|].
    intros H. exfalso. Lqa.lra.
  - destruct (Qlt_bool (cross a b c) (- eps)) eqn:F.
    + apply Qlt_bool_iff in F. tauto.
    + split; [intros H; discriminate H|]. intros H.
      apply Qlt_bool_iff in H. congruence.
Qed.

Lemma orientation_collinear (a b c : vec2) :
  cross a b c == 0 -> orientation eps a b c = Collinear.
Proof.
  intros H.
  destruct (orientation eps a b c) eqn:E; [| |reflexivity].
  - apply orientation_left in E. exfalso. Lqa.lra.
  - apply orientation_right in E. exfalso. Lqa.lra.
Qed.

Lemma vec2_eqb_refl (p : vec2) : vec2_eqb p p = true.
Proof. unfold vec2_eqb. now rewrite !Qeq_bool_refl. Qed.

Lemma vec2_eqb_same (p q : vec2) : vec2_eqb p q = true <-> same_point p q.
Proof.
  unfold vec2_eqb, same_point. rewrite andb_true_iff, !Qeq_bool_iff.
  tauto.
Qed.

(** A value between [a] and [b] is between their minimum and their
    maximum. *)
Lemma convex_range (a b t v : Q) :
  0 <= t -> t <= 1 -> v == a + t * (b - a) ->
  qmin a b <= v /\ v <= qmax a b.
Proof.
  intros T0 T1 E. unfold qmin, qmax. destruct (Qle_bool a b) eqn:L.
  - apply Qle_bool_iff in L. split; Lqa.nra.
  - assert (~ a <= b) by (rewrite <- Qle_bool_iff; congruence).
    split; Lqa.nra.
Qed.

Lemma between_box (a b p : vec2) : between a b p -> in_box a b p = true.
Proof.
  intros (t & T0 & T1 & Ex & Ey). unfold in_box.
  destruct (convex_range (x a) (x b) t (x p) T0 T1 Ex) as [X1 X2].
  destruct (convex_range (y a) (y b) t (y p) T0 T1 Ey) as [Y1 Y2].
  rewrite !andb_true_iff, !Qle_bool_iff. tauto.
Qed.

Lemma between_cross (a b p : vec2) : between a b p -> cross a b p == 0.
Proof.
  intros (t & _ & _ & Ex & Ey). unfold cross. rewrite Ex, Ey. ring.
Qed.

Lemma between_on_segment (a b p : vec2) :
  between a b p -> on_segment eps a b p = true.
Proof.
  intros H. unfold on_segment.
  rewrite (orientation_collinear a b p (between_cross a b p H)).
  now rewrite (between_box a b p H).
Qed.

(** Along a segment the cross product with a line is the weighted mean of
    its values at the two ends. *)
Lemma cross_between (a b c d p : vec2) (t : Q) :
  x p == x c + t * (x d - x c) -> y p == y c + t * (y d - y c) ->
  cross a b p == (1 - t) * cross a b c + t * cross a b d.
Proof. intros Ex Ey. unfold cross. rewrite Ex, Ey. ring. Qed.

Lemma same_side_apart (a b c d p : vec2) :
  same_side eps a b c d = true -> between a b p -> between c d p -> False.
Proof.
  intros S Hab (t & T0 & T1 & Ex & Ey).
  pose proof (between_cross a b p Hab) as Z.
  rewrite (cross_between a b c d p t Ex Ey) in Z.
  unfold same_side in S. apply orb_true_iff in S as [S|S];
    apply andb_true_iff in S as [S1 S2].
  - destruct (orientation eps a b c) eqn:E1; try discriminate.
    destruct (orientation eps a b d) eqn:E2; try discriminate.
    apply orientation_left in E1, E2. Lqa.nra.
  - destruct (orientation eps a b c) eqn:E1; try discriminate.
    destruct (orientation eps a b d) eqn:E2; try discriminate.
    apply orientation_right in E1, E2. Lqa.nra.
Qed.

Lemma between_boxes (a b c d p : vec2) :
  between a b p -> between c d p -> boxes_meet a b c d = true.
Proof.
  intros (s & S0 & S1 & Sx & Sy) (t & T0 & T1 & Tx & Ty).
  destruct (convex_range (x a) (x b) s (x p) S0 S1 Sx) as [X1 X2].
  destruct (convex_range (y a) (y b) s (y p) S0 S1 Sy) as [Y1 Y2].
  destruct (convex_range (x c) (x d) t (x p) T0 T1 Tx) as [X3 X4].
  destruct (convex_range (y c) (y d) t (y p) T0 T1 Ty) as [Y3 Y4].
  unfold boxes_meet. rewrite !andb_true_iff, !Qle_bool_iff.
  repeat split; Lqa.lra.
Qed.

(** Two segments with a point in common touch. *)
Lemma between_touches (a b c d p : vec2) :
  between a b p -> between c d p -> touches eps a b c d = true.
Proof.
  intros Hab Hcd. unfold touches.
  rewrite (between_boxes a b c d p Hab Hcd), andb_true_r.
  destruct (same_side eps a b c d) eqn:S1;
    [destruct (same_side_apart a b c d p S1 Hab Hcd)|].
  destruct (same_side eps c d a b) eqn:S2;
    [destruct (same_side_apart c d a b p S2 Hcd Hab)|].
  reflexivity.
Qed.

(** Two segments that leave [b] and have another point in common: one of
    them has its far end on the other. *)
Lemma fold_back (a b d p : vec2) :
  between a b p -> between b d p -> ~ same_point p b ->
  between a b d \/ between b d a.
Proof.
  intros (s & S0 & S1 & Sx & Sy) (t & T0 & T1 & Tx & Ty) N.
  assert (S1' : s < 1).
  { destruct (Qlt_le_dec s 1) as [L|L]; [exact L|]. exfalso. apply N.
    assert (s == 1) as E by Lqa.lra. split.
    - rewrite Sx, E. ring.
    - rewrite Sy, E. ring. }
  assert (T0' : 0 < t).
  { destruct (Qlt_le_dec 0 t) as [L|L]; [exact L|]. exfalso. apply N.
    assert (t == 0) as E by Lqa.lra. split.
    - rewrite Tx, E. ring.
    - rewrite Ty, E. ring. }
  assert (Hx : t * (x d - x b) == - (1 - s) * (x b - x a))
    by (rewrite Sx in Tx; Lqa.lra).
  assert (Hy : t * (y d - y b) == - (1 - s) * (y b - y a))
    by (rewrite Sy in Ty; Lqa.lra).
  destruct (Qlt_le_dec t (1 - s)) as [L|L].
  - right. exists (t / (1 - s)).
    assert (P : 0 < 1 - s) by Lqa.lra.
    assert (U : (1 - s) * (t / (1 - s)) == t)
      by (field; intros C; Lqa.lra).
    assert (U1 : 0 <= t / (1 - s)).
    { apply Qle_shift_div_l; [exact P|]. Lqa.lra. }
    assert (U2 : t / (1 - s) <= 1).
    { apply Qle_shift_div_r; [exact P|]. Lqa.lra. }
    repeat split; try assumption.
    + apply (Qmult_inj_l _ _ (1 - s)); [intros C; Lqa.lra|].
      transitivity ((1 - s) * x b + ((1 - s) * (t / (1 - s))) * (x d - x b));
        [|ring]. rewrite U. Lqa.lra.
    + apply (Qmult_inj_l _ _ (1 - s)); [intros C; Lqa.lra|].
      transitivity ((1 - s) * y b + ((1 - s) * (t / (1 - s))) * (y d - y b));
        [|ring]. rewrite U. Lqa.lra.
  - left. exists (1 - (1 - s) / t).
    assert (U : t * ((1 - s) / t) == 1 - s)
      by (field; intros C; Lqa.lra).
    assert (U1 : 0 <= (1 - s) / t).
    { apply Qle_shift_div_l; [exact T0'|]. Lqa.lra. }
    assert (U2 : (1 - s) / t <= 1).
    { apply Qle_shift_div_r; [exact T0'|]. Lqa.lra. }
    repeat split; try Lqa.lra.
    + apply (Qmult_inj_l _ _ t); [intros C; Lqa.lra|].
      transitivity (t * x b - (t * ((1 - s) / t)) * (x b - x a));
        [|ring]. rewrite U. Lqa.lra.
    + apply (Qmult_inj_l _ _ t); [intros C; Lqa.lra|].
      transitivity (t * y b - (t * ((1 - s) / t)) * (y b - y a));
        [|ring]. rewrite U. Lqa.lra.
Qed.

End Orientation.

(** ** A boundary that intersects itself is not simple *)

Section Simple.

Variable eps : Q.
Variable points : list vec2.
Hypothesis eps_nonneg : 0 <= eps.

Local Abbreviation n := (List.length points).

Lemma combine_seq_succ (s m z : nat) :
  combine (seq s (S m)) (seq (S s) m ++ [z])
  = map (fun p => (p, S p)) (seq s m) ++ [((s + m)%nat, z)].
Proof.
  revert s; induction m as [|m IH]; intros s.
  - cbn. now rewrite Nat.add_0_r.
  - change (seq s (S (S m))) with (s :: seq (S s) (S m)).
    change (seq (S s) (S m) ++ [z])
      with (S s :: (seq (S (S s)) m ++ [z])).
    cbn [combine]. rewrite IH. cbn [seq map app].
    now replace (S s + m)%nat with (s + S m)%nat by lia.
Qed.

Lemma edges_seq (m : nat) :
  edges (seq 0 (S m)) = map (fun p => (p, S p)) (seq 0 m) ++ [(m, 0%nat)].
Proof.
  unfold edges. cbn [seq rot1]. apply (combine_seq_succ 0 m 0).
Qed.

(** The edge that leaves vertex [i]. *)
Lemma edge_leaving (m i : nat) :
  (i < m)%nat -> In (i, (S i mod m)%nat) (edges (seq 0 m)).
Proof.
  intros Hi. destruct m as [|m]; [lia|]. rewrite edges_seq.
  apply in_or_app. destruct (Nat.eq_dec i m) as [->|N].
  - right. left. now rewrite Nat.Div0.mod_same.
  - left. apply in_map_iff. exists i. split.
    + now rewrite Nat.mod_small by lia.
    + apply in_seq. lia.
Qed.

Lemma all_distinct_seq (s len i j : nat) :
  all_distinct points (seq s len) = true ->
  (s <= i)%nat -> (i < j)%nat -> (j < s + len)%nat ->
  vec2_eqb (pt points i) (pt points j) = false.
Proof.
  revert s; induction len as [|len IH]; intros s H Hi Hij Hj; [lia|].
  cbn [seq all_distinct] in H. apply andb_true_iff in H as [H1 H2].
  destruct (Nat.eq_dec s i) as [->|N].
  - rewrite forallb_forall in H1. apply negb_true_iff, H1, in_seq. lia.
  - apply (IH (S s)); [exact H2|lia|lia|lia].
Qed.

Lemma vec2_eqb_sym (p q : vec2) : vec2_eqb p q = vec2_eqb q p.
Proof.
  unfold vec2_eqb.
  destruct (Qeq_bool (x p) (x q)) eqn:E1, (Qeq_bool (x q) (x p)) eqn:E2,
           (Qeq_bool (y p) (y q)) eqn:E3, (Qeq_bool (y q) (y p)) eqn:E4;
    try reflexivity; exfalso;
    repeat match goal with
    | H : Qeq_bool _ _ = true |- _ => apply Qeq_bool_iff in H
    | H : Qeq_bool ?a ?b = false |- _ =>
        assert (~ a == b) by (rewrite <- Qeq_bool_iff; congruence); clear H
    end;
    try (match goal with H : ~ _ |- _ => apply H; symmetry; assumption end).
Qed.

(** The vertices of a simple loop are at distinct points. *)
Lemma distinct_points (i j : nat) :
  all_distinct points (seq 0 n) = true ->
  (i < n)%nat -> (j < n)%nat ->
  vec2_eqb (pt points i) (pt points j) = Nat.eqb i j.
Proof.
  intros D Hi Hj. destruct (Nat.eqb i j) eqn:E.
  - apply Nat.eqb_eq in E. subst j. apply vec2_eqb_refl.
  - apply Nat.eqb_neq in E.
    destruct (Nat.lt_ge_cases i j) as [L|L].
    + apply (all_distinct_seq 0 n); [exact D|lia|lia|lia].
    + rewrite vec2_eqb_sym.
      apply (all_distinct_seq 0 n); [exact D|lia|lia|lia].
Qed.

Lemma self_intersecting_not_simple :
  self_intersecting points -> is_simple eps points (seq 0 n) = false.
Proof.
  intros (i & j & p & Hij & Hj & Bi & Bj & N1 & N2).
  destruct (is_simple eps points (seq 0 n)) eqn:S; [exfalso|reflexivity].
  unfold is_simple in S.
  apply andb_true_iff in S as [S A]. apply andb_true_iff in S as [D _].
  rewrite forallb_forall in A.
  specialize (A _ (edge_leaving n i ltac:(lia))).
  rewrite forallb_forall in A.
  specialize (A _ (edge_leaving n j Hj)). cbn [fst snd] in A.
  assert (Mi : (S i mod n < n)%nat) by (apply Nat.mod_upper_bound; lia).
  assert (Mj : (S j mod n < n)%nat) by (apply Nat.mod_upper_bound; lia).
  unfold edges_apart in A.
  rewrite !(distinct_points _ _ D) in A by lia.
  replace (Nat.eqb i j) with false in A
    by (symmetry; apply Nat.eqb_neq; lia).
  cbn [andb] in A.
  destruct (Nat.eqb (S i mod n) j) eqn:E1.
  - apply Nat.eqb_eq in E1.
    assert (E : j = S i).
    { destruct (Nat.eq_dec (S i) n) as [F|F].
      - rewrite F, Nat.Div0.mod_same in E1. lia.
      - rewrite Nat.mod_small in E1 by lia. lia. }
    rewrite E1 in Bi, A.
    destruct (fold_back _ _ _ _ Bi Bj) as [F|F].
    + intros C. apply N1. split; [exact E|exact C].
    + rewrite (between_on_segment eps eps_nonneg _ _ _ F) in A.
      discriminate A.
    + rewrite (between_on_segment eps eps_nonneg _ _ _ F) in A.
      rewrite andb_false_r in A. discriminate A.
  - apply Nat.eqb_neq in E1.
    destruct (Nat.eqb (S j mod n) i) eqn:E2.
    + apply Nat.eqb_eq in E2.
      assert (E : i = 0%nat /\ S j = n).
      { destruct (Nat.eq_dec (S j) n) as [F|F].
        - rewrite F, Nat.Div0.mod_same in E2. lia.
        - rewrite Nat.mod_small in E2 by lia. lia. }
      rewrite E2 in Bj, A.
      destruct (fold_back _ _ _ _ Bj Bi) as [F|F].
      * intros C. apply N2. destruct E as [E3 E4].
        rewrite E3 in C. tauto.
      * rewrite (between_on_segment eps eps_nonneg _ _ _ F) in A.
        discriminate A.
      * rewrite (between_on_segment eps eps_nonneg _ _ _ F) in A.
        rewrite andb_false_r in A. discriminate A.
    + rewrite (between_touches eps eps_nonneg _ _ _ _ p Bi Bj) in A.
      discriminate A.
Qed.

Lemma self_intersecting_invalid :
  self_intersecting points -> valid_polygon eps points (seq 0 n) = false.
Proof.
  intros H. unfold valid_polygon.
  rewrite (self_intersecting_not_simple H).
  now rewrite andb_false_r.
Qed.

End Simple.

(** ** Success comes with parts, failure with none *)

Section Flag.

Variable eps : Q.
Variable points : list vec2.

Lemma triangulate_nonempty (fuel : nat) (poly : Polygon)
    (ts : list (nat * nat * nat)) :
  triangulate eps points fuel poly = Some ts -> ts <> [].
Proof.
  rewrite triangulate_eq. intros H.
  assert (G : match fuel with
              | O => None
              | S fuel' =>
                  match find_ear eps points [] poly with
                  | None => None
                  | Some (t, poly') =>
                      match triangulate eps points fuel' poly' with
                      | None => None
                      | Some ts => Some (t :: ts)
                      end
                  end
              end = Some ts -> ts <> []).
  { destruct fuel as [|fuel']; [discriminate|].
    destruct (find_ear eps points [] poly) as [[t poly']|]; [|discriminate].
    destruct (triangulate eps points fuel' poly'); [|discriminate].
    intros E. inversion E. discriminate. }
  destruct poly as [|a [|b [|c [|d poly]]]]; try (exact (G H)).
  inversion H. discriminate.
Qed.

Lemma merge_step_nonempty (d : nat * nat) (rs : list Polygon) :
  rs <> [] -> merge_step eps points d rs <> [].
Proof.
  intros H. unfold merge_step. destruct d as [u v].
  destruct (extract (open_at u v) rs) as [[ra rs1]|]; [|exact H].
  destruct (extract (open_at v u) rs1) as [[rb rs2]|]; [|exact H].
  destruct (merge_safe eps points u v ra rb); [discriminate|exact H].
Qed.

Lemma fold_merge_nonempty (ds : list (nat * nat)) (rs : list Polygon) :
  rs <> [] ->
  fold_left (fun rs d => merge_step eps points d rs) ds rs <> [].
Proof.
  revert rs; induction ds as [|d ds IH]; intros rs H; [exact H|].
  cbn [fold_left]. apply IH, merge_step_nonempty, H.
Qed.

Lemma partition_HM_nonempty (poly : Polygon) (parts : list Polygon) :
  partition_HM eps points poly = Some parts -> parts <> [].
Proof.
  unfold partition_HM.
  destruct (triangulate eps points (List.length poly) poly) as [ts|] eqn:T;
    [|discriminate].
  intros E. inversion E. apply fold_merge_nonempty.
  apply triangulate_nonempty in T. destruct ts; [congruence|discriminate].
Qed.

Lemma apply_HM_flag :
  fst (apply_HM eps points) = false <-> snd (apply_HM eps points) = [].
Proof.
  split; [apply apply_HM_failure|].
  unfold apply_HM. destruct (valid_polygon _ _ _); [|reflexivity].
  destruct (partition_HM _ _ _) as [parts|] eqn:P; [|reflexivity].
  cbn. intros E. destruct (partition_HM_nonempty _ _ P E).
Qed.

Lemma apply_OPT_flag :
  fst (apply_OPT eps points) = false <-> snd (apply_OPT eps points) = [].
Proof.
  split; [apply apply_OPT_failure|].
  unfold apply_OPT. destruct (valid_polygon _ _ _); [|reflexivity].
  destruct (partition_OPT _ _ _) as [parts|] eqn:P; [|reflexivity].
  cbn. intros E. unfold partition_OPT in P.
  apply partition_OPT_aux_nonempty in P.
  rewrite E in P. cbn in P. lia.
Qed.

(** The vector of the caller holds what the operation returns, whatever it
    held before. *)
Lemma into_result (parts : list Polygon) (r : bool * list Polygon) :
  (fst r = false -> snd r = []) -> into parts r = r.
Proof.
  destruct r as [[|] ps]; unfold into, clear; cbn; intros H;
    [reflexivity|]. now rewrite H.
Qed.

End Flag.


(** ** Edges of loops and of paths *)

Lemma pair_dec (e f : nat * nat) : {e = f} + {e <> f}.
Proof. decide equality; apply Nat.eq_dec. Qed.

Lemma combine_app_short {A B : Type} (l l2 : list A) (l' : list B) :
  (List.length l' <= List.length l)%nat ->
  combine (l ++ l2) l' = combine l l'.
Proof.
  revert l'; induction l as [|a l IH]; intros [|b l'] H; cbn in *;
    try reflexivity; try lia.
  - destruct l2; reflexivity.
  - f_equal. apply IH. lia.
Qed.

Lemma pedges_cons2 {A : Type} (a h : A) (t : list A) :
  pedges (a :: h :: t) = (a, h) :: pedges (h :: t).
Proof. reflexivity. Qed.

Lemma pedges_one {A : Type} (a : A) : pedges [a] = [].
Proof. reflexivity. Qed.

(** A path cut at a vertex. *)
Lemma pedges_app {A : Type} (l : list A) (y : A) (m : list A) :
  pedges (l ++ y :: m) = pedges (l ++ [y]) ++ pedges (y :: m).
Proof.
  induction l as [|a l IH]; [reflexivity|].
  destruct l as [|h l]; [reflexivity|].
  cbn [app] in *. rewrite !pedges_cons2, IH. reflexivity.
Qed.

(** A loop is the path that comes back to its first vertex. *)
Lemma edges_pedges {A : Type} (a : A) (t : list A) :
  edges (a :: t) = pedges (a :: t ++ [a]).
Proof.
  unfold edges, pedges. cbn [rot1 tl].
  change (a :: t ++ [a]) with ((a :: t) ++ [a]).
  rewrite combine_app_short; [reflexivity|].
  rewrite length_app. cbn. lia.
Qed.

Lemma edges_app_cons {A : Type} (l : list A) (a : A) (rest : list A) :
  edges (l ++ a :: rest) = pedges (l ++ a :: rest ++ [hd a l]).
Proof.
  destruct l as [|h t]; cbn [app hd]; rewrite edges_pedges.
  - reflexivity.
  - now rewrite <- app_assoc.
Qed.

Lemma edges_length {A : Type} (l : list A) :
  List.length (edges l) = List.length l.
Proof.
  unfold edges. rewrite length_combine.
  destruct l as [|a t]; [reflexivity|]. cbn [rot1].
  rewrite length_app. cbn [List.length]. lia.
Qed.

Lemma pedges_In {A : Type} (a b : A) (p : list A) :
  In (a, b) (pedges p) -> exists p1 p2, p = p1 ++ a :: b :: p2.
Proof.
  induction p as [|c p IH]; [intros []|].
  destruct p as [|d p]; [intros []|].
  rewrite pedges_cons2. intros [E|H].
  - inversion E; subst. now exists [], p.
  - destruct (IH H) as (p1 & p2 & E). exists (c :: p1), p2.
    now rewrite E.
Qed.

Lemma In_pedges {A : Type} (a b : A) (p1 p2 : list A) :
  In (a, b) (pedges (p1 ++ a :: b :: p2)).
Proof.
  rewrite pedges_app. apply in_or_app. right. now left.
Qed.

Lemma pedges_members {A : Type} (a b : A) (p : list A) :
  In (a, b) (pedges p) -> In a p /\ In b p.
Proof.
  intros H. destruct (pedges_In a b p H) as (p1 & p2 & ->).
  split; apply in_or_app; right; cbn; auto.
Qed.

Lemma last_In (l : list nat) (d : nat) : l <> [] -> In (last l d) l.
Proof.
  intros H. destruct (exists_last H) as (m & z & ->).
  rewrite last_last. apply in_or_app. cbn; auto.
Qed.

Lemma hd_In (l : list nat) (d : nat) : l <> [] -> In (hd d l) l.
Proof. destruct l; [congruence|now left]. Qed.

(** On a path without repetition an edge neither leaves the last vertex
    nor comes to the first one. *)
Lemma pedges_ends (a b : nat) (p : list nat) (d : nat) :
  NoDup p -> In (a, b) (pedges p) -> a <> last p d /\ b <> hd d p.
Proof.
  intros ND H. destruct (pedges_In a b p H) as (p1 & p2 & ->).
  apply NoDup_remove in ND as [ND Na]. split.
  - intros E. apply Na. apply in_or_app. right.
    rewrite last_app_default, last_cons_default in E.
    assert (G : In (last (b :: p2) a) (b :: p2))
      by (apply last_In; discriminate).
    now rewrite <- E in G.
  - intros E. destruct p1 as [|z p1]; cbn [app hd] in E.
    + apply Na. subst. now left.
    + subst z. cbn [app] in ND. apply NoDup_cons_iff in ND as [N _].
      apply N. apply in_or_app. right. now left.
Qed.

(** The neighbours [a] and [c] of a vertex [b] of a loop of three vertices
    or more. *)
Lemma ear_shapes (l1 : list nat) (b : nat) (l2 : list nat) :
  (2 <= List.length (l1 ++ l2))%nat ->
  (exists l1' l2', l1 = l1' ++ [last l1 (last l2 b)]
                   /\ l2 = hd (hd b l1) l2 :: l2')
  \/ (l1 = [] /\ exists m, l2 = hd (hd b l1) l2 :: m
                                ++ [last l1 (last l2 b)])
  \/ (l2 = [] /\ exists m, l1 = hd (hd b l1) l2 :: m
                                ++ [last l1 (last l2 b)]).
Proof.
  intros HL. destruct l1 as [|x l1], l2 as [|y l2].
  - cbn in HL. lia.
  - right; left. split; [reflexivity|]. cbn [hd].
    destruct l2 as [|y' l2]; [cbn in HL; lia|].
    destruct (exists_last (l := y' :: l2) ltac:(discriminate))
      as (m & z & E).
    rewrite E. exists m. now rewrite last_cons_default, last_last.
  - right; right. split; [reflexivity|]. cbn [hd].
    destruct l1 as [|x' l1]; [cbn in HL; lia|].
    destruct (exists_last (l := x' :: l1) ltac:(discriminate))
      as (m & z & E).
    rewrite E. exists m. now rewrite last_cons_default, last_last.
  - left. cbn [hd].
    destruct (exists_last (l := x :: l1) ltac:(discriminate))
      as (m & z & E).
    rewrite E. exists m, l2. now rewrite last_last.
Qed.


(** Lists of edges with the same edges, each as many times. *)
Ltac same_edges :=
  rewrite ?pedges_one;
  apply (Permutation_count_occ pair_dec); intros ?e;
  repeat first [rewrite count_occ_app | progress (cbn [count_occ])];
  repeat match goal with
         | |- context [pair_dec ?a ?b] => destruct (pair_dec a b)
         end;
  first [lia | exfalso; congruence].

(** The same, from permutations at hand. *)
Ltac count_at H e :=
  let C := fresh "C" in
  pose proof (proj1 (Permutation_count_occ pair_dec _ _) H e) as C.

Ltac count_edges :=
  rewrite ?pedges_one in *; cbn [fst snd] in *;
  repeat first [rewrite count_occ_app in * | progress (cbn [count_occ] in *)];
  repeat match goal with
         | |- context [pair_dec ?a ?b] => destruct (pair_dec a b)
         | H : context [pair_dec ?a ?b] |- _ => destruct (pair_dec a b)
         end;
  first [lia | exfalso; congruence].

Ltac list_eq := repeat (cbn [app]; rewrite <- ?app_assoc); reflexivity.

(** Clipping the ear [(a, b, c)]: the edges [a b] and [b c] go, the edge
    [a c] comes. *)
Lemma clip_edges (l1 : list nat) (b : nat) (l2 : list nat) :
  (2 <= List.length (l1 ++ l2))%nat ->
  Permutation
    (edges (l1 ++ b :: l2) ++ [(last l1 (last l2 b), hd (hd b l1) l2)])
    ((last l1 (last l2 b), b) :: (b, hd (hd b l1) l2) :: edges (l1 ++ l2)).
Proof.
  intros HL.
  destruct (ear_shapes l1 b l2 HL)
    as [(l1' & l2' & E1 & E2)|[(E1 & m & E2)|(E2 & m & E1)]];
    set (a := last l1 (last l2 b)) in *;
    set (c := hd (hd b l1) l2) in *; clearbody a c; subst l1 l2.
  - replace ((l1' ++ [a]) ++ b :: c :: l2')
      with (l1' ++ a :: b :: c :: l2') by list_eq.
    replace ((l1' ++ [a]) ++ c :: l2')
      with (l1' ++ a :: c :: l2') by list_eq.
    rewrite !edges_app_cons. cbn [app].
    rewrite (pedges_app l1' a (b :: c :: l2' ++ [hd a l1'])).
    rewrite (pedges_app l1' a (c :: l2' ++ [hd a l1'])).
    rewrite !pedges_cons2. same_edges.
  - cbn [app]. rewrite !edges_pedges.
    replace (b :: (c :: m ++ [a]) ++ [b])
      with (b :: c :: m ++ a :: [b]) by list_eq.
    replace (c :: (m ++ [a]) ++ [c])
      with ((c :: m) ++ a :: [c]) by list_eq.
    rewrite pedges_cons2.
    change (c :: m ++ a :: [b]) with ((c :: m) ++ a :: [b]).
    rewrite (pedges_app (c :: m) a [b]), (pedges_app (c :: m) a [c]).
    rewrite !pedges_cons2. same_edges.
  - rewrite app_nil_r.
    replace ((c :: m ++ [a]) ++ [b]) with (c :: (m ++ [a; b])) by list_eq.
    rewrite !edges_pedges.
    replace (c :: (m ++ [a; b]) ++ [c])
      with ((c :: m) ++ a :: [b; c]) by list_eq.
    replace (c :: (m ++ [a]) ++ [c])
      with ((c :: m) ++ a :: [c]) by list_eq.
    rewrite (pedges_app (c :: m) a [b; c]), (pedges_app (c :: m) a [c]).
    rewrite !pedges_cons2. same_edges.
Qed.

(** ** Loops read from another vertex *)

Lemma edges_rot1 (l : list nat) : Permutation (edges (rot1 l)) (edges l).
Proof.
  destruct l as [|a [|h t]]; try apply Permutation_refl.
  cbn [rot1 app]. rewrite !edges_pedges.
  replace (h :: (t ++ [a]) ++ [h]) with ((h :: t) ++ a :: [h]) by list_eq.
  replace (a :: (h :: t) ++ [a]) with (a :: h :: t ++ [a]) by list_eq.
  rewrite (pedges_app (h :: t) a [h]), !pedges_cons2.
  change (h :: t ++ [a]) with ((h :: t) ++ [a]). same_edges.
Qed.

Lemma edges_iter_rot1 (k : nat) (l : list nat) :
  Permutation (edges (Nat.iter k (@rot1 nat) l)) (edges l).
Proof.
  induction k as [|k IH]; [apply Permutation_refl|].
  rewrite Nat.iter_succ.
  eapply Permutation_trans; [apply edges_rot1|exact IH].
Qed.

Lemma rot1_perm {A : Type} (l : list A) : Permutation (rot1 l) l.
Proof.
  destruct l as [|a t]; [apply Permutation_refl|]. cbn [rot1].
  apply Permutation_sym, Permutation_cons_append.
Qed.

Lemma iter_rot1_perm (k : nat) (l : list nat) :
  Permutation (Nat.iter k (@rot1 nat) l) l.
Proof.
  induction k as [|k IH]; [apply Permutation_refl|].
  rewrite Nat.iter_succ.
  eapply Permutation_trans; [apply rot1_perm|exact IH].
Qed.

Lemma iter_rot1_app (l1 l2 : list nat) :
  Nat.iter (List.length l1) (@rot1 nat) (l1 ++ l2) = l2 ++ l1.
Proof.
  revert l2; induction l1 as [|a l1 IH]; intros l2;
    [now rewrite app_nil_r|].
  cbn [List.length]. rewrite Nat.iter_succ_r. cbn [app rot1].
  rewrite <- app_assoc, IH. now rewrite <- app_assoc.
Qed.

(** An edge [u v] of a loop: the loop can be read from [v] to [u]. *)
Lemma edge_rotation (u v : nat) (l : list nat) :
  In (u, v) (edges l) ->
  exists k t, (k < List.length l)%nat
              /\ Nat.iter k (@rot1 nat) l = v :: t /\ last t v = u.
Proof.
  destruct l as [|a t0]; [intros []|].
  rewrite edges_pedges. intros H.
  destruct (pedges_In u v _ H) as (p1 & p2 & E).
  destruct p2 as [|z p2].
  - replace (p1 ++ [u; v]) with ((p1 ++ [u]) ++ [v]) in E by list_eq.
    change (a :: t0 ++ [a]) with ((a :: t0) ++ [a]) in E.
    apply app_inj_tail in E as [E <-].
    exists 0%nat, t0. cbn [Nat.iter List.length]. split; [lia|].
    split; [reflexivity|].
    rewrite <- (last_cons_default t0 a a), E. apply last_last.
  - destruct (exists_last (l := z :: p2) ltac:(discriminate))
      as (p2' & y & E2).
    rewrite E2 in E.
    replace (p1 ++ u :: v :: p2' ++ [y])
      with ((p1 ++ u :: v :: p2') ++ [y]) in E by list_eq.
    change (a :: t0 ++ [a]) with ((a :: t0) ++ [a]) in E.
    apply app_inj_tail in E as [E _]. rewrite E.
    exists (S (List.length p1)), (p2' ++ p1 ++ [u]). split.
    + rewrite length_app. cbn [List.length]. lia.
    + replace (p1 ++ u :: v :: p2') with ((p1 ++ [u]) ++ v :: p2')
        by list_eq.
      replace (S (List.length p1)) with (List.length (p1 ++ [u]))
        by (rewrite length_app; cbn; lia).
      rewrite iter_rot1_app. split; [list_eq|].
      rewrite !last_app_default. reflexivity.
Qed.

Lemma open_at_aux_some (u v : nat) (k m : nat) (l t : list nat) :
  (k < m)%nat -> Nat.iter k (@rot1 nat) l = v :: t -> last t v = u ->
  exists l', open_at_aux u v m l = Some l'.
Proof.
  revert m l; induction k as [|k IH]; intros m l Hk E Hu;
    (destruct m as [|m]; [lia|]); cbn [open_at_aux].
  - change (l = v :: t) in E. subst l.
    rewrite Nat.eqb_refl, Hu, Nat.eqb_refl. cbn. eauto.
  - destruct l as [|a l0].
    + exfalso. clear - E.
      assert (G : forall j, Nat.iter j (@rot1 nat) [] = [])
        by (induction j as [|j IHj]; [reflexivity|];
            rewrite Nat.iter_succ, IHj; reflexivity).
      rewrite G in E. discriminate E.
    + destruct (Nat.eqb a v && Nat.eqb (last l0 a) u); [eauto|].
      apply (IH m (rot1 (a :: l0))); [lia| |exact Hu].
      rewrite <- Nat.iter_succ_r. exact E.
Qed.

Lemma open_at_edge (u v : nat) (l : list nat) :
  In (u, v) (edges l) -> exists l', open_at u v l = Some l'.
Proof.
  intros H. destruct (edge_rotation u v l H) as (k & t & Hk & E & Hu).
  apply (open_at_aux_some u v k (List.length l) l t Hk E Hu).
Qed.

Lemma extract_some (f : Polygon -> option Polygon) (rs : list Polygon)
    (r r0 : Polygon) :
  In r rs -> f r = Some r0 ->
  exists r' rest, extract f rs = Some (r', rest).
Proof.
  induction rs as [|x rs IH]; [intros []|]. intros H E. cbn [extract].
  destruct (f x) as [x'|] eqn:Fx; [eauto|].
  destruct H as [->|H]; [congruence|].
  destruct (IH H E) as (r' & rest & ->). eauto.
Qed.

Lemma third_member (l : list nat) (u v : nat) :
  NoDup l -> (3 <= List.length l)%nat ->
  exists w, In w l /\ w <> u /\ w <> v.
Proof.
  intros ND HL. destruct l as [|a [|b [|c l]]]; try (cbn in HL; lia).
  apply NoDup_cons_iff in ND as [N1 ND].
  apply NoDup_cons_iff in ND as [N2 _].
  assert (Hab : a <> b) by (intros ->; apply N1; now left).
  assert (Hac : a <> c) by (intros ->; apply N1; right; now left).
  assert (Hbc : b <> c) by (intros ->; apply N2; now left).
  destruct (Nat.eq_dec a u) as [Ea|Na], (Nat.eq_dec a v) as [Ea'|Na'],
           (Nat.eq_dec b u) as [Eb|Nb], (Nat.eq_dec b v) as [Eb'|Nb'];
    try (exists a; cbn; repeat split; auto; lia);
    try (exists b; cbn; repeat split; auto; lia);
    exists c; cbn; repeat split; auto; lia.
Qed.

(** ** A loop whose edges are those of the polygon *)

Lemma In_edges_seq (m a b : nat) :
  In (a, b) (edges (seq 0 m)) -> (a < m)%nat /\ b = (S a mod m)%nat.
Proof.
  destruct m as [|m]; [intros []|]. rewrite edges_seq. intros H.
  apply in_app_or in H as [H|[H|[]]].
  - apply in_map_iff in H as (p & E & Hp). inversion E; subst.
    apply in_seq in Hp. split; [lia|]. now rewrite Nat.mod_small by lia.
  - inversion H; subst. split; [lia|]. now rewrite Nat.Div0.mod_same.
Qed.

Lemma successor_path (m h : nat) (l : list nat) :
  (forall a b, In (a, b) (pedges (h :: l)) -> b = (S a mod m)%nat) ->
  h :: l = map (fun i => ((h + i) mod m)%nat) (seq 0 (S (List.length l)))
  \/ (m <= h)%nat.
Proof.
  destruct (Nat.lt_ge_cases h m) as [Hh|Hh]; [left|now right].
  revert h Hh H; induction l as [|h' l IH]; intros h Hh H.
  - cbn. now rewrite Nat.add_0_r, Nat.mod_small.
  - assert (E : h' = (S h mod m)%nat) by (apply H; now left).
    assert (Hh' : (h' < m)%nat)
      by (rewrite E; apply Nat.mod_upper_bound; lia).
    rewrite (IH h' Hh') at 1
      by (intros a b Hab; apply H; rewrite pedges_cons2; now right).
    cbn [List.length].
    change (seq 0 (S (S (List.length l))))
      with (0%nat :: seq 1 (S (List.length l))).
    rewrite <- (seq_shift (S (List.length l)) 0). cbn [map].
    rewrite Nat.add_0_r, (Nat.mod_small h m Hh). f_equal.
    rewrite !map_map. apply map_ext. intros i. rewrite E.
    rewrite Nat.Div0.add_mod_idemp_l. f_equal. lia.
Qed.

Lemma firstn_seq (k s len : nat) :
  firstn k (seq s len) = seq s (Nat.min k len).
Proof.
  revert s len; induction k as [|k IH]; intros s [|len]; try reflexivity.
  cbn [firstn seq Nat.min]. now rewrite IH.
Qed.

Lemma rotation_seq (m h : nat) :
  (h < m)%nat ->
  map (fun i => ((h + i) mod m)%nat) (seq 0 m)
  = skipn h (seq 0 m) ++ firstn h (seq 0 m).
Proof.
  intros Hh. rewrite skipn_seq, firstn_seq.
  replace (Nat.min h m) with h by lia. cbn [Nat.add].
  apply (nth_ext _ _ ((h + 0) mod m)%nat 0%nat).
  - rewrite length_map, length_app, !length_seq. lia.
  - intros i Hi. rewrite length_map, length_seq in Hi.
    rewrite (map_nth (fun i => ((h + i) mod m)%nat) (seq 0 m) 0%nat i).
    rewrite seq_nth by lia. cbn [Nat.add].
    destruct (Nat.lt_ge_cases i (m - h)) as [L|L].
    + rewrite app_nth1 by (rewrite length_seq; lia).
      rewrite seq_nth by lia. apply Nat.mod_small. lia.
    + rewrite app_nth2 by (rewrite length_seq; lia).
      rewrite length_seq, seq_nth by lia. cbn [Nat.add].
      symmetry. apply (Nat.mod_unique _ _ 1). lia. lia.
Qed.

(** A loop with the edges of the polygon is the polygon, read from
    another vertex. *)
Lemma loop_of_edges (m : nat) (r : list nat) :
  (0 < m)%nat -> Permutation (edges r) (edges (seq 0 m)) ->
  is_rotation (seq 0 m) r.
Proof.
  intros Hm HP.
  assert (HL : List.length r = m).
  { apply Permutation_length in HP.
    now rewrite !edges_length, length_seq in HP. }
  assert (HE : forall a b, In (a, b) (edges r) ->
                 (a < m)%nat /\ b = (S a mod m)%nat).
  { intros a b H. apply In_edges_seq.
    eapply Permutation_in; [exact HP|exact H]. }
  destruct r as [|h l]; [cbn in HL; lia|].
  assert (Hh : (h < m)%nat).
  { destruct (HE h (hd h l)) as [G _]; [|exact G].
    rewrite edges_pedges. destruct l as [|z l]; now left. }
  destruct (successor_path m h l) as [E|E]; [|rewrite E|lia].
  - intros a b H. apply HE. rewrite edges_pedges.
    destruct (pedges_In a b _ H) as (p1 & p2 & E).
    change (h :: l ++ [h]) with ((h :: l) ++ [h]). rewrite E.
    rewrite <- app_assoc. cbn [app]. apply In_pedges.
  - cbn [List.length] in HL. rewrite HL.
    exists h. rewrite length_seq. split; [lia|].
    apply rotation_seq, Hh.
Qed.

(** ** Corners of the polygon, diagonals of a triangulation *)

Lemma combine_edges_succ (s m : nat) (e : nat * nat) (z1 z2 : nat) :
  combine (map (fun p => (p, S p)) (seq s (S m)) ++ [e])
          (seq (S (S s)) m ++ [z1; z2])
  = map (fun p => (p, S p, S (S p))) (seq s m)
      ++ [((s + m)%nat, S (s + m), z1); (e, z2)].
Proof.
  revert s; induction m as [|m IH]; intros s.
  - cbn. now rewrite Nat.add_0_r.
  - change (seq s (S (S m))) with (s :: seq (S s) (S m)).
    change (seq (S (S s)) (S m)) with (S (S s) :: seq (S (S (S s))) m).
    cbn [map app combine]. rewrite IH. cbn [seq map app].
    now replace (S s + m)%nat with (s + S m)%nat by lia.
Qed.

Lemma corners_seq (m : nat) :
  corners (seq 0 (S (S m)))
  = map (fun p => (p, S p, S (S p))) (seq 0 m)
      ++ [(m, S m, 0%nat); (S m, 0%nat, 1%nat)].
Proof.
  unfold corners. fold (edges (seq 0 (S (S m)))). rewrite edges_seq.
  cbn [seq rot1 app]. rewrite <- app_assoc. cbn [app].
  apply (combine_edges_succ 0 m (S m, 0%nat) 0 1).
Qed.

Lemma insert_pair_perm (d : nat * nat) (l : list (nat * nat)) :
  Permutation (insert_pair d l) (d :: l).
Proof.
  induction l as [|e l IH]; [apply Permutation_refl|].
  cbn [insert_pair]. destruct (pair_leb d e); [apply Permutation_refl|].
  eapply Permutation_trans; [apply perm_skip, IH|apply perm_swap].
Qed.

Lemma sort_pairs_perm (l : list (nat * nat)) :
  Permutation (sort_pairs l) l.
Proof.
  induction l as [|d l IH]; [apply Permutation_refl|].
  cbn [sort_pairs fold_right]. fold (sort_pairs l).
  eapply Permutation_trans; [apply insert_pair_perm|apply perm_skip, IH].
Qed.

Lemma both_norm_pair (l : list (nat * nat)) :
  Permutation (flat_map both (map norm_pair l)) (flat_map both l).
Proof.
  induction l as [|[u v] l IH]; [apply Permutation_refl|].
  cbn [map flat_map]. apply Permutation_app; [|exact IH].
  unfold norm_pair, both. cbn [fst snd].
  destruct (Nat.leb u v); [apply Permutation_refl|apply perm_swap].
Qed.

(** The diagonals of the scan are the bases of the ears but the last, in
    another order. *)
Lemma diagonals_of_perm (ts : list (nat * nat * nat)) :
  Permutation (flat_map both (diagonals_of ts))
              (flat_map both (map base (removelast ts))) /\
  List.length (diagonals_of ts) = List.length (removelast ts).
Proof.
  unfold diagonals_of. split.
  - eapply Permutation_trans;
      [apply Permutation_flat_map, sort_pairs_perm|].
    rewrite <- (map_map base norm_pair). apply both_norm_pair.
  - rewrite (Permutation_length (sort_pairs_perm _)). apply length_map.
Qed.

(** ** Points on a line *)

Section Lines.

Lemma plucker (a b c q w : vec2) :
  cross a b c * cross a q w - cross a b q * cross a c w
  + cross a b w * cross a c q == 0.
Proof. unfold cross. ring. Qed.

(** A point collinear with two distinct points of a line is on the
    line. *)
Lemma col_trans (a b p q r : vec2) :
  cross a b p == 0 -> cross a b q == 0 -> ~ same_point p q ->
  cross p q r == 0 -> cross a b r == 0.
Proof.
  intros H1 H2 D H3.
  assert (Ix : (x q - x p) * cross a b r
               == (x q - x p) * cross a b q + (x b - x a) * cross p q r
                  + (x r - x q) * (cross a b q - cross a b p))
    by (unfold cross; ring).
  assert (Iy : (y q - y p) * cross a b r
               == (y q - y p) * cross a b q + (y b - y a) * cross p q r
                  + (y r - y q) * (cross a b q - cross a b p))
    by (unfold cross; ring).
  rewrite H1, H2, H3 in Ix, Iy.
  assert (Ex : (x q - x p) * cross a b r == 0) by (rewrite Ix; ring).
  assert (Ey : (y q - y p) * cross a b r == 0) by (rewrite Iy; ring).
  apply Qmult_integral in Ex, Ey.
  destruct Ex as [Ex|Ex]; [|exact Ex]. destruct Ey as [Ey|Ey]; [|exact Ey].
  exfalso. apply D. split; Lqa.lra.
Qed.

(** Three points of one line are collinear. *)
Lemma col3 (a b p q r : vec2) :
  ~ same_point a b ->
  cross a b p == 0 -> cross a b q == 0 -> cross a b r == 0 ->
  cross p q r == 0.
Proof.
  intros D H1 H2 H3.
  assert (Ix : (x b - x a) * cross p q r
               == (x q - x p) * (cross a b r - cross a b q)
                  - (x r - x q) * (cross a b q - cross a b p))
    by (unfold cross; ring).
  assert (Iy : (y b - y a) * cross p q r
               == (y q - y p) * (cross a b r - cross a b q)
                  - (y r - y q) * (cross a b q - cross a b p))
    by (unfold cross; ring).
  rewrite H1, H2, H3 in Ix, Iy.
  assert (Ex : (x b - x a) * cross p q r == 0) by (rewrite Ix; ring).
  assert (Ey : (y b - y a) * cross p q r == 0) by (rewrite Iy; ring).
  apply Qmult_integral in Ex, Ey.
  destruct Ex as [Ex|Ex]; [|exact Ex]. destruct Ey as [Ey|Ey]; [|exact Ey].
  exfalso. apply D. split; Lqa.lra.
Qed.

(** [b] is off the line [a c], [s] and [t] are two points of the line:
    [s], [t] and [b] are not collinear. *)
Lemma off_line (a b c s t : vec2) :
  0 < cross a b c -> cross a c s == 0 -> cross a c t == 0 ->
  ~ same_point s t -> cross s t b == 0 -> False.
Proof.
  intros Hb Hs Ht D H.
  pose proof (col_trans a c s t b Hs Ht D H) as Z.
  rewrite (cross_swap a b c) in Z. Lqa.lra.
Qed.

(** [b] is off the line [a c] and [q] is on it; in a convex position
    another point [w], met before or after [q], is on the line too. *)
Lemma line_before (a b c q w : vec2) :
  0 < cross a b c -> cross a c q == 0 ->
  0 <= cross a w q -> 0 <= cross a b q -> 0 <= cross a c w ->
  ~ same_point a q ->
  cross a c w == 0.
Proof.
  intros Hb Hq H1 H2 H3 D.
  pose proof (plucker a b c q w) as G.
  rewrite Hq, (cross_swap a w q) in G.
  assert (E : cross a b q * cross a c w == 0) by Lqa.nra.
  apply Qmult_integral in E as [E|E]; [|exact E].
  exfalso.
  assert (Z : cross a b c == 0).
  { apply (col3 a q); [exact D| | |].
    - apply cross_flat_l.
    - rewrite (cross_swap a b q), E. ring.
    - rewrite (cross_swap a c q), Hq. ring. }
  Lqa.lra.
Qed.

Lemma line_after (a b c q w : vec2) :
  0 < cross a b c -> cross a c q == 0 ->
  0 <= cross c q w -> 0 <= cross c w a -> 0 <= cross b c q ->
  ~ same_point c q ->
  cross a c w == 0.
Proof.
  intros Hb Hq H1 H2 H3 D.
  pose proof (plucker c a b q w) as G.
  assert (E1 : cross c a b == cross a b c) by (unfold cross; ring).
  assert (E2 : cross c a q == - cross a c q) by (unfold cross; ring).
  assert (E4 : cross c a w == - cross c w a) by (unfold cross; ring).
  assert (E5 : cross c b q == - cross b c q) by (unfold cross; ring).
  rewrite E1, E2, E4, E5, Hq in G.
  assert (E : cross c w a * cross b c q == 0) by Lqa.nra.
  apply Qmult_integral in E as [E|E].
  - rewrite (cross_rot w a c), (cross_rot c w a). exact E.
  - exfalso.
    assert (Z : cross a b c == 0).
    { apply (col3 c q); [exact D| | |].
      - rewrite (cross_swap c a q), E2, Hq. ring.
      - rewrite (cross_swap c b q), E5, E. ring.
      - apply cross_flat_l. }
    Lqa.lra.
Qed.

End Lines.
(** ** Convex polygons *)

Section Convex.

Variable eps : Q.
Variable points : list vec2.
Hypothesis eps_nonneg : 0 <= eps.

Local Abbreviation n := (List.length points).
Local Abbreviation P := (pt points).

Hypothesis distinct : all_distinct points (seq 0 n) = true.
Hypothesis convex : convex_position eps points.
Hypothesis exact : sharp eps points.

(** Some three vertices of [L] make a turn to the left. *)
Local Abbreviation strict L :=
  (exists i j k, In i L /\ In j L /\ In k L
                 /\ eps < cross (P i) (P j) (P k)).

Local Abbreviation below L := (forall i, In i L -> (i < n)%nat).

Lemma sorted_turn (i j k : nat) :
  (i < j)%nat -> (j < k)%nat -> (k < n)%nat ->
  eps < cross (P i) (P j) (P k) \/ cross (P i) (P j) (P k) == 0.
Proof.
  intros Hij Hjk Hk. destruct (turn eps points i j k) eqn:E.
  - left. apply (orientation_left eps). exact E.
  - destruct (convex i j k Hij Hjk Hk E).
  - right. apply exact; assumption.
Qed.

(** Three vertices met in this order round the polygon turn left or are
    on one line. *)
Lemma cyc_turn (i j k : nat) :
  cyc i j k -> (i < n)%nat -> (j < n)%nat -> (k < n)%nat ->
  eps < cross (P i) (P j) (P k) \/ cross (P i) (P j) (P k) == 0.
Proof.
  intros [H|[H|H]] Hi Hj Hk.
  - apply sorted_turn; lia.
  - rewrite <- (cross_rot (P i) (P j) (P k)). apply sorted_turn; lia.
  - rewrite <- (cross_rot (P i) (P j) (P k)).
    rewrite <- (cross_rot (P j) (P k) (P i)). apply sorted_turn; lia.
Qed.

Lemma cyc_nonneg (i j k : nat) :
  cyc i j k -> (i < n)%nat -> (j < n)%nat -> (k < n)%nat ->
  0 <= cross (P i) (P j) (P k).
Proof.
  intros H Hi Hj Hk. destruct (cyc_turn i j k H Hi Hj Hk); Lqa.lra.
Qed.

(** Three vertices in order that are not collinear turn left. *)
Lemma cyc_left (i j k : nat) :
  cyc i j k -> (i < n)%nat -> (j < n)%nat -> (k < n)%nat ->
  ~ cross (P i) (P j) (P k) == 0 -> eps < cross (P i) (P j) (P k).
Proof.
  intros H Hi Hj Hk N. destruct (cyc_turn i j k H Hi Hj Hk); tauto.
Qed.

Lemma cyc_not_reflex (i j k : nat) :
  cyc i j k -> (i < n)%nat -> (j < n)%nat -> (k < n)%nat ->
  is_reflex eps points i j k = false.
Proof.
  intros H Hi Hj Hk. unfold is_reflex.
  destruct (turn eps points i j k) eqn:E; try reflexivity.
  apply (orientation_right eps eps_nonneg) in E.
  pose proof (cyc_nonneg i j k H Hi Hj Hk). exfalso. Lqa.lra.
Qed.

Lemma apart (i j : nat) :
  (i < n)%nat -> (j < n)%nat -> i <> j -> ~ same_point (P i) (P j).
Proof.
  intros Hi Hj N C. apply vec2_eqb_same in C.
  rewrite (distinct_points points i j distinct Hi Hj) in C.
  apply Nat.eqb_eq in C. contradiction.
Qed.

(** *** A corner that turns left *)

Lemma sorted_three (l1 : list nat) (a b c : nat) (l2 : list nat) :
  StronglySorted lt (l1 ++ a :: b :: c :: l2) ->
  (forall u, In u l1 -> (u < a)%nat) /\ (a < b)%nat /\ (b < c)%nat
  /\ (forall v, In v l2 -> (c < v)%nat).
Proof.
  intros H.
  pose proof (sorted_app_inv l1 a (b :: c :: l2) H) as [F1 F2].
  replace (l1 ++ a :: b :: c :: l2) with ((l1 ++ [a; b]) ++ c :: l2) in H
    by (rewrite <- app_assoc; reflexivity).
  pose proof (sorted_app_inv (l1 ++ [a; b]) c l2 H) as [F3 F4].
  rewrite Forall_forall in F1, F2, F3, F4.
  split; [exact F1|]. split; [apply F2; cbn; auto|].
  split; [apply F3, in_or_app; cbn; auto|exact F4].
Qed.

Lemma corner_or_flat (L : list nat) :
  StronglySorted lt L -> below L ->
  (exists l1 a b c l2, L = l1 ++ a :: b :: c :: l2
                       /\ eps < cross (P a) (P b) (P c))
  \/ (forall l1 a b c l2, L = l1 ++ a :: b :: c :: l2 ->
        cross (P a) (P b) (P c) == 0).
Proof.
  induction L as [|a L IH]; intros HS HB.
  - right. intros [|z l1] a b c l2 E; discriminate E.
  - assert (HS' : StronglySorted lt L)
      by (apply StronglySorted_inv in HS; tauto).
    assert (HB' : below L) by (intros i Hi; apply HB; now right).
    destruct (IH HS' HB') as [(l1 & a' & b & c & l2 & -> & S)|F].
    + left. exists (a :: l1), a', b, c, l2. auto.
    + destruct L as [|b [|c l2]].
      * right. intros [|z [|z' l1]] a' b c l2 E; discriminate E.
      * right. intros [|z [|z' [|z'' l1]]] a' b' c l2 E; discriminate E.
      * destruct (sorted_three [] a b c l2 HS) as (_ & Hab & Hbc & _).
        destruct (sorted_turn a b c Hab Hbc) as [S|Z];
          [apply HB; cbn; auto| |].
        -- left. exists [], a, b, c, l2. auto.
        -- right. intros [|z l1] a' b' c' l2' E.
           ++ inversion E; subst. exact Z.
           ++ inversion E; subst. apply (F l1 a' b' c' l2'). assumption.
Qed.

(** When every corner along [p :: q :: l] is flat, the whole list is on
    the line [p q]. *)
Lemma flat_line (l : list nat) (p q : nat) :
  StronglySorted lt (p :: q :: l) -> below (p :: q :: l) ->
  (forall l1 a b c l2, p :: q :: l = l1 ++ a :: b :: c :: l2 ->
     cross (P a) (P b) (P c) == 0) ->
  forall v, In v (p :: q :: l) -> cross (P p) (P q) (P v) == 0.
Proof.
  revert p q; induction l as [|r l IH]; intros p q HS HB F v Hv.
  - destruct Hv as [<-|[<-|[]]];
      [apply cross_flat_l|apply cross_flat_r].
  - destruct Hv as [<-|Hv]; [apply cross_flat_l|].
    assert (HS' : StronglySorted lt (q :: r :: l))
      by (apply StronglySorted_inv in HS; tauto).
    assert (HB' : below (q :: r :: l)) by (intros i Hi; apply HB; now right).
    assert (Z : cross (P q) (P r) (P v) == 0).
    { apply (IH q r HS' HB'); [|exact Hv].
      intros l1 a b c l2 E. apply (F (p :: l1) a b c l2).
      now rewrite E. }
    assert (Hqr : (q < r)%nat).
    { apply StronglySorted_inv in HS' as [_ G].
      rewrite Forall_forall in G. apply G. now left. }
    apply (col_trans (P p) (P q) (P q) (P r) (P v)).
    + apply cross_flat_r.
    + apply (F [] p q r l). reflexivity.
    + apply apart; [apply HB; cbn; auto|apply HB; cbn; auto|lia].
    + exact Z.
Qed.

(** A polygon with a left turn has a corner that turns left. *)
Lemma strict_corner (L : list nat) :
  StronglySorted lt L -> below L -> strict L ->
  exists l1 a b c l2, L = l1 ++ a :: b :: c :: l2
                      /\ eps < cross (P a) (P b) (P c).
Proof.
  intros HS HB (i & j & k & Hi & Hj & Hk & S).
  destruct (corner_or_flat L HS HB) as [H|F]; [exact H|exfalso].
  destruct L as [|p [|q l]].
  - destruct Hi.
  - destruct Hi as [<-|[]], Hj as [<-|[]], Hk as [<-|[]].
    rewrite cross_flat_l in S. Lqa.lra.
  - assert (Hpq : (p < q)%nat).
    { apply StronglySorted_inv in HS as [_ G].
      rewrite Forall_forall in G. apply G. now left. }
    assert (Z : cross (P i) (P j) (P k) == 0).
    { apply (col3 (P p) (P q)).
      - apply apart; [apply HB; cbn; auto|apply HB; cbn; auto|lia].
      - apply (flat_line l p q HS HB F i Hi).
      - apply (flat_line l p q HS HB F j Hj).
      - apply (flat_line l p q HS HB F k Hk). }
    Lqa.lra.
Qed.

(** *** Ears *)

Lemma ear_intro (a b c : nat) (others : list nat) :
  eps < cross (P a) (P b) (P c) ->
  (forall v, In v others ->
     v = a \/ v = c \/ eps < cross (P a) (P c) (P v)) ->
  is_ear eps points a b c others = true.
Proof.
  intros S H. unfold is_ear. apply andb_true_iff. split.
  - unfold turn. apply (orientation_left eps) in S. now rewrite S.
  - apply forallb_forall. intros v Hv. destruct (H v Hv) as [->|[->|T]].
    + now rewrite vec2_eqb_refl.
    + now rewrite vec2_eqb_refl, !orb_true_r.
    + apply orb_true_iff. right. apply negb_true_iff.
      unfold point_in_triangle.
      assert (R : orientation eps (P c) (P a) (P v) = RightTurn).
      { apply (orientation_right eps eps_nonneg).
        rewrite (cross_rev (P a) (P c) (P v)). Lqa.lra. }
      rewrite R. cbn. apply andb_false_r.
Qed.

Lemma blocked_or_free (a c : nat) (others : list nat) :
  (forall v, In v others ->
     v = a \/ v = c \/ eps < cross (P a) (P c) (P v))
  \/ (exists v, In v others /\ v <> a /\ v <> c
                /\ ~ eps < cross (P a) (P c) (P v)).
Proof.
  induction others as [|v l IH]; [left; intros v []|].
  destruct IH as [F|(w & Hw & R)]; [|right; exists w; cbn; tauto].
  destruct (Nat.eq_dec v a) as [->|Na];
    [left; intros w [<-|Hw]; auto|].
  destruct (Nat.eq_dec v c) as [->|Nc];
    [left; intros w [<-|Hw]; auto|].
  destruct (Qlt_le_dec eps (cross (P a) (P c) (P v))) as [T|T].
  - left. intros w [<-|Hw]; auto.
  - right. exists v. repeat split; [now left|exact Na|exact Nc|].
    intros C. Lqa.lra.
Qed.

(** The corner [b] turns left and a vertex [q] is on the line of its
    neighbours [a] and [c]: every vertex but [b] is on that line. *)
Lemma corner_line (l1 : list nat) (a b c : nat) (l2 : list nat) (q : nat) :
  StronglySorted lt (l1 ++ a :: b :: c :: l2) ->
  below (l1 ++ a :: b :: c :: l2) ->
  eps < cross (P a) (P b) (P c) ->
  In q (l1 ++ l2) -> ~ eps < cross (P a) (P c) (P q) ->
  forall w, In w (l1 ++ a :: c :: l2) -> cross (P a) (P c) (P w) == 0.
Proof.
  intros HS HB T Hq Nq w Hw.
  destruct (sorted_three l1 a b c l2 HS) as (F1 & Hab & Hbc & F2).
  assert (Ha : (a < n)%nat) by (apply HB, in_or_app; cbn; auto).
  assert (Hb : (b < n)%nat) by (apply HB, in_or_app; cbn; auto).
  assert (Hc : (c < n)%nat) by (apply HB, in_or_app; cbn; auto).
  assert (Bq : (q < n)%nat)
    by (apply HB; apply in_app_or in Hq; apply in_or_app; cbn; tauto).
  assert (Oq : (q < a \/ c < q)%nat)
    by (apply in_app_or in Hq as [Hq|Hq]; [left; auto|right; auto]).
  assert (Zq : cross (P a) (P c) (P q) == 0).
  { destruct (cyc_turn a c q) as [C|C]; try assumption;
      [unfold cyc; lia|contradiction]. }
  apply in_app_or in Hw. cbn [In] in Hw.
  destruct Hw as [Hw|[<-|[<-|Hw]]];
    [|apply cross_flat_l|apply cross_flat_r|].
  - assert (Bw : (w < n)%nat) by (apply HB, in_or_app; auto).
    assert (Ow : (w < a)%nat) by auto.
    destruct (Nat.eq_dec w q) as [->|N]; [exact Zq|].
    assert (O : cyc c w q \/ cyc c q w) by (unfold cyc; lia).
    destruct O as [O|O].
    + apply (line_before (P a) (P b) (P c) (P q) (P w));
        try (apply cyc_nonneg; try assumption; unfold cyc in *; lia);
        [Lqa.lra|exact Zq|apply apart; try assumption; lia].
    + apply (line_after (P a) (P b) (P c) (P q) (P w));
        try (apply cyc_nonneg; try assumption; unfold cyc in *; lia);
        [Lqa.lra|exact Zq|apply apart; try assumption; lia].
  - assert (Bw : (w < n)%nat)
      by (apply HB, in_or_app; right; cbn; auto).
    assert (Ow : (c < w)%nat) by auto.
    destruct (Nat.eq_dec w q) as [->|N]; [exact Zq|].
    assert (O : cyc c w q \/ cyc c q w) by (unfold cyc; lia).
    destruct O as [O|O].
    + apply (line_before (P a) (P b) (P c) (P q) (P w));
        try (apply cyc_nonneg; try assumption; unfold cyc in *; lia);
        [Lqa.lra|exact Zq|apply apart; try assumption; lia].
    + apply (line_after (P a) (P b) (P c) (P q) (P w));
        try (apply cyc_nonneg; try assumption; unfold cyc in *; lia);
        [Lqa.lra|exact Zq|apply apart; try assumption; lia].
Qed.

Lemma sorted_split (l1 : list nat) (a : nat) (l2 : list nat) :
  StronglySorted lt (l1 ++ a :: l2) ->
  (forall u, In u l1 -> (u < a)%nat) /\ (forall v, In v l2 -> (a < v)%nat).
Proof.
  intros H. destruct (sorted_app_inv l1 a l2 H) as [F1 F2].
  rewrite Forall_forall in F1, F2. auto.
Qed.

(** A polygon of 4 vertices or more with a left turn has an ear: a corner
    that turns left, or the corner next to it. *)
Lemma ear_exists (L : list nat) :
  StronglySorted lt L -> below L -> (4 <= List.length L)%nat -> strict L ->
  exists l1 b l2,
    L = l1 ++ b :: l2 /\
    is_ear eps points (last l1 (last l2 b)) b (hd (hd b l1) l2) (l1 ++ l2)
    = true.
Proof.
  intros HS HB HL S.
  destruct (strict_corner L HS HB S) as (l1 & a & b & c & l2 & -> & T).
  destruct (sorted_three l1 a b c l2 HS) as (F1 & Hab & Hbc & F2).
  assert (Ha : (a < n)%nat) by (apply HB, in_or_app; cbn; auto).
  assert (Hb : (b < n)%nat) by (apply HB, in_or_app; cbn; auto).
  assert (Hc : (c < n)%nat) by (apply HB, in_or_app; cbn; auto).
  assert (T0 : 0 < cross (P a) (P b) (P c)) by Lqa.lra.
  destruct (blocked_or_free a c (l1 ++ a :: c :: l2))
    as [Free|(q & Hq & Na & Nc & Nq)].
  - exists (l1 ++ [a]), b, (c :: l2). split;
      [now rewrite <- app_assoc|].
    rewrite last_last. cbn [hd]. rewrite <- app_assoc. cbn [app].
    apply ear_intro; assumption.
  - assert (Hq' : In q (l1 ++ l2)).
    { apply in_app_or in Hq. apply in_or_app. cbn [In] in Hq.
      destruct Hq as [Hq|[Hq|[Hq|Hq]]]; auto; congruence. }
    pose proof (corner_line l1 a b c l2 q HS HB T Hq' Nq) as Line.
    destruct l2 as [|d l2'].
    + destruct l1 as [|z0 l1t]; [cbn in HL; lia|].
      destruct (exists_last (l := z0 :: l1t) ltac:(discriminate))
        as (l1' & z & E).
      rewrite E in *. clear E z0 l1t.
      rewrite <- app_assoc in HS. cbn [app] in HS.
      destruct (sorted_split l1' z [a; b; c] HS) as [G1 G2].
      assert (Hz : (z < n)%nat).
      { apply HB, in_or_app. left. apply in_or_app. cbn; auto. }
      assert (Lz : cross (P a) (P c) (P z) == 0).
      { apply Line, in_or_app. left. apply in_or_app. cbn; auto. }
      assert (Hza : (z < a)%nat) by (apply G2; cbn; auto).
      exists (l1' ++ [z]), a, [b; c]. split; [reflexivity|].
      rewrite last_last. cbn [hd]. apply ear_intro.
      * apply cyc_left; try assumption; [unfold cyc; lia|].
        intros Z.
        apply (off_line (P a) (P b) (P c) (P z) (P a) T0 Lz);
          [apply cross_flat_l|apply apart; try assumption; lia|exact Z].
      * intros v Hv. apply in_app_or in Hv. cbn [In] in Hv.
        destruct Hv as [Hv|[<-|[<-|[]]]]; [|now right; left|].
        -- apply in_app_or in Hv. cbn [In] in Hv.
           destruct Hv as [Hv|[<-|[]]]; [|now left].
           right; right.
           assert (Hvz : (v < z)%nat) by auto.
           assert (Bv : (v < n)%nat).
           { apply HB, in_or_app. left. apply in_or_app. auto. }
           apply cyc_left; try assumption; [unfold cyc; lia|].
           intros Z.
           apply (off_line (P a) (P b) (P c) (P z) (P v) T0 Lz).
           ++ apply Line, in_or_app. left. apply in_or_app. auto.
           ++ apply apart; try assumption; lia.
           ++ rewrite (cross_swap (P z) (P b) (P v)), Z. ring.
        -- right; right.
           apply cyc_left; try assumption; [unfold cyc; lia|].
           intros Z.
           apply (off_line (P a) (P b) (P c) (P z) (P c) T0 Lz).
           ++ apply cross_flat_r.
           ++ apply apart; try assumption; lia.
           ++ rewrite (cross_swap (P z) (P b) (P c)), Z. ring.
    + assert (HS' : StronglySorted lt ((l1 ++ [a; b; c]) ++ d :: l2'))
        by (rewrite <- app_assoc; exact HS).
      destruct (sorted_split (l1 ++ [a; b; c]) d l2' HS') as [G1 G2].
      assert (Hd : (d < n)%nat)
        by (apply HB, in_or_app; right; cbn; auto).
      assert (Hcd : (c < d)%nat) by (apply F2; cbn; auto).
      assert (Ld : cross (P a) (P c) (P d) == 0)
        by (apply Line, in_or_app; right; cbn; auto).
      exists (l1 ++ [a; b]), c, (d :: l2'). split;
        [now rewrite <- app_assoc|].
      rewrite last_app_default. cbn [last hd]. apply ear_intro.
      * apply cyc_left; try assumption; [unfold cyc; lia|].
        intros Z.
        apply (off_line (P a) (P b) (P c) (P c) (P d) T0);
          [apply cross_flat_r|exact Ld|apply apart; try assumption; lia|].
        rewrite (cross_rot (P b) (P c) (P d)). exact Z.
      * intros v Hv. apply in_app_or in Hv.
        assert (Key : forall v, (v < n)%nat -> (v < b \/ d < v)%nat ->
                        cross (P a) (P c) (P v) == 0 ->
                        eps < cross (P b) (P d) (P v)).
        { intros w Bw Ow Lw.
          apply cyc_left; try assumption; [unfold cyc; lia|].
          intros Z.
          apply (off_line (P a) (P b) (P c) (P d) (P w) T0 Ld Lw);
            [apply apart; try assumption; lia|].
          rewrite (cross_rot (P b) (P d) (P w)). exact Z. }
        destruct Hv as [Hv|[<-|Hv]]; [|now right; left|].
        -- apply in_app_or in Hv. cbn [In] in Hv.
           destruct Hv as [Hv|[<-|[<-|[]]]]; [| |now left].
           ++ right; right. apply Key.
              ** apply HB, in_or_app. auto.
              ** left. specialize (F1 v Hv). lia.
              ** apply Line, in_or_app. auto.
           ++ right; right. apply Key; [assumption|lia|].
              apply cross_flat_l.
        -- right; right. apply Key.
           ++ apply HB, in_or_app. right. cbn; auto.
           ++ right. auto.
           ++ apply Line, in_or_app. right. cbn; auto.
Qed.

Lemma find_ear_none (before rest : list nat) :
  find_ear eps points before rest = None ->
  forall r1 b r2, rest = r1 ++ b :: r2 ->
    is_ear eps points (last (before ++ r1) (last r2 b)) b
           (hd (hd b (before ++ r1)) r2) ((before ++ r1) ++ r2) = false.
Proof.
  revert before; induction rest as [|z rest IH]; intros before H r1 b r2 E;
    [destruct r1; discriminate E|].
  cbn [find_ear] in H.
  destruct (is_ear eps points (last before (last rest z)) z
              (hd (hd z before) rest) (before ++ rest)) eqn:Ear;
    [discriminate H|].
  destruct r1 as [|y r1]; inversion E; subst.
  - rewrite app_nil_r. exact Ear.
  - specialize (IH (before ++ [y]) H r1 b r2 eq_refl).
    rewrite <- !app_assoc in IH. cbn [app] in IH.
    rewrite <- !app_assoc. exact IH.
Qed.

(** The scan finds an ear. *)
Lemma find_ear_convex (L : list nat) :
  StronglySorted lt L -> below L -> (4 <= List.length L)%nat -> strict L ->
  exists l1 b l2,
    L = l1 ++ b :: l2 /\
    find_ear eps points [] L
    = Some ((last l1 (last l2 b), b, hd (hd b l1) l2), l1 ++ l2) /\
    is_ear eps points (last l1 (last l2 b)) b (hd (hd b l1) l2) (l1 ++ l2)
    = true.
Proof.
  intros HS HB HL S.
  destruct (find_ear eps points [] L) as [[t L']|] eqn:F.
  - apply find_ear_spec in F as (l1 & b & l2 & E & -> & -> & Ear).
    exists l1, b, l2. cbn [app] in E. auto.
  - exfalso.
    destruct (ear_exists L HS HB HL S) as (l1 & b & l2 & E & Ear).
    pose proof (find_ear_none [] L F l1 b l2 E) as N. cbn [app] in N.
    congruence.
Qed.

(** In an increasing loop the neighbours of [b] come before and after it,
    and the other vertices after the one and before the other. *)
Lemma neighbours (l1 : list nat) (b : nat) (l2 : list nat) :
  StronglySorted lt (l1 ++ b :: l2) ->
  (2 <= List.length (l1 ++ l2))%nat ->
  let a := last l1 (last l2 b) in
  let c := hd (hd b l1) l2 in
  In a (l1 ++ l2) /\ In c (l1 ++ l2) /\ cyc a b c /\
  (forall v, In v (l1 ++ l2) -> v <> b /\ (v = a \/ v = c \/ cyc c v a)).
Proof.
  intros HS HL a c.
  destruct (ear_shapes l1 b l2 HL)
    as [(l1' & l2' & E1 & E2)|[(E1 & m & E2)|(E2 & m & E1)]];
    fold a in E1, E2; fold c in E1, E2.
  - rewrite E1, E2 in HS |- *. rewrite <- app_assoc in HS. cbn [app] in HS.
    destruct (sorted_three l1' a b c l2' HS) as (F1 & Hab & Hbc & F2).
    split; [apply in_or_app; left; apply in_or_app; cbn; auto|].
    split; [apply in_or_app; right; cbn; auto|].
    split; [unfold cyc; lia|].
    intros v Hv. apply in_app_or in Hv as [Hv|Hv].
    + apply in_app_or in Hv as [Hv|[<-|[]]].
      * specialize (F1 v Hv). unfold cyc. lia.
      * lia.
    + destruct Hv as [<-|Hv]; [lia|].
      specialize (F2 v Hv). unfold cyc. lia.
  - rewrite E1, E2 in HS |- *. cbn [app] in HS |- *.
    assert (HS' : StronglySorted lt ((b :: c :: m) ++ a :: []))
      by exact HS.
    destruct (sorted_split (b :: c :: m) a [] HS') as [F1 _].
    destruct (sorted_split [b] c (m ++ [a]) HS) as [_ F2].
    assert (Hca : (c < a)%nat) by (apply F1; cbn; auto).
    assert (Hba : (b < c)%nat).
    { apply StronglySorted_inv in HS as [_ G].
      rewrite Forall_forall in G. apply G. now left. }
    split; [right; apply in_or_app; cbn; auto|].
    split; [now left|]. split; [unfold cyc; lia|].
    intros v [<-|Hv]; [lia|]. apply in_app_or in Hv as [Hv|[<-|[]]].
    + assert (c < v)%nat by (apply F2, in_or_app; auto).
      assert (v < a)%nat by (apply F1; cbn; auto).
      unfold cyc. lia.
    + lia.
  - rewrite E1, E2 in HS |- *. rewrite app_nil_r.
    assert (HS' : StronglySorted lt ((c :: m) ++ a :: [b])).
    { cbn [app] in HS |- *. rewrite <- app_assoc in HS. exact HS. }
    destruct (sorted_split (c :: m) a [b] HS') as [F1 F2].
    destruct (sorted_split [] c (m ++ a :: [b]) HS') as [_ F3].
    assert (Hca : (c < a)%nat) by (apply F1; cbn; auto).
    assert (Hab : (a < b)%nat) by (apply F2; cbn; auto).
    split; [right; apply in_or_app; cbn; auto|].
    split; [now left|]. split; [unfold cyc; lia|].
    intros v [<-|Hv]; [lia|]. apply in_app_or in Hv as [Hv|[<-|[]]].
    + assert (c < v)%nat by (apply F3, in_or_app; auto).
      assert (v < a)%nat by (apply F1; cbn; auto).
      unfold cyc. lia.
    + lia.
Qed.

(** A vertex that an ear leaves out is on the left of the base of the
    ear. *)
Lemma ear_elim (a b c : nat) (others : list nat) (v : nat) :
  is_ear eps points a b c others = true -> In v others ->
  (a < n)%nat -> (b < n)%nat -> (c < n)%nat -> (v < n)%nat ->
  v <> a -> v <> b -> v <> c ->
  0 <= cross (P a) (P b) (P v) -> 0 <= cross (P b) (P c) (P v) ->
  eps < cross (P a) (P c) (P v).
Proof.
  intros Ear Hv Ha Hb Hc Bv Na Nb Nc S1 S2.
  unfold is_ear in Ear. apply andb_true_iff in Ear as [_ Ear].
  rewrite forallb_forall in Ear. specialize (Ear v Hv).
  rewrite !(distinct_points points _ _ distinct) in Ear by assumption.
  replace (Nat.eqb v a) with false in Ear
    by (symmetry; now apply Nat.eqb_neq).
  replace (Nat.eqb v b) with false in Ear
    by (symmetry; now apply Nat.eqb_neq).
  replace (Nat.eqb v c) with false in Ear
    by (symmetry; now apply Nat.eqb_neq).
  cbn [orb] in Ear. apply negb_true_iff in Ear.
  unfold point_in_triangle in Ear.
  destruct (orientation eps (P a) (P b) (P v)) eqn:O1;
    try (apply (orientation_right eps eps_nonneg) in O1; exfalso;
         Lqa.lra);
    (destruct (orientation eps (P b) (P c) (P v)) eqn:O2;
     try (apply (orientation_right eps eps_nonneg) in O2; exfalso;
          Lqa.lra));
    (destruct (orientation eps (P c) (P a) (P v)) eqn:O3;
     try discriminate Ear;
     apply (orientation_right eps eps_nonneg) in O3;
     rewrite (cross_rev (P a) (P c) (P v)) in O3; Lqa.lra).
Qed.

Lemma third_vertex (l : list nat) (a c : nat) :
  StronglySorted lt l -> (3 <= List.length l)%nat ->
  exists v, In v l /\ v <> a /\ v <> c.
Proof.
  intros HS HL. destruct l as [|x [|y [|z l]]]; try (cbn in HL; lia).
  destruct (sorted_three [] x y z l HS) as (_ & Hxy & Hyz & _).
  destruct (Nat.eq_dec x a) as [Ex|Nx].
  - destruct (Nat.eq_dec y c) as [Ey|Ny].
    + exists z. cbn. repeat split; auto; lia.
    + exists y. cbn. repeat split; auto; lia.
  - destruct (Nat.eq_dec x c) as [Ex|Nx'].
    + destruct (Nat.eq_dec y a) as [Ey|Ny].
      * exists z. cbn. repeat split; auto; lia.
      * exists y. cbn. repeat split; auto; lia.
    + exists x. cbn. auto.
Qed.

Lemma sorted_remove (l1 : list nat) (b : nat) (l2 : list nat) :
  StronglySorted lt (l1 ++ b :: l2) -> StronglySorted lt (l1 ++ l2).
Proof.
  induction l1 as [|x l1 IH]; cbn [app]; intros H;
    apply StronglySorted_inv in H as [H1 H2]; [exact H1|].
  constructor; [apply IH, H1|].
  rewrite Forall_forall in *. intros v Hv. apply H2.
  apply in_app_or in Hv. apply in_or_app. cbn. tauto.
Qed.

(** What an ear leaves has a left turn again. *)
Lemma ear_strict (l1 : list nat) (b : nat) (l2 : list nat) :
  StronglySorted lt (l1 ++ b :: l2) -> below (l1 ++ b :: l2) ->
  (3 <= List.length (l1 ++ l2))%nat ->
  is_ear eps points (last l1 (last l2 b)) b (hd (hd b l1) l2) (l1 ++ l2)
  = true ->
  strict (l1 ++ l2).
Proof.
  intros HS HB HL Ear.
  destruct (neighbours l1 b l2 HS ltac:(lia)) as (Ia & Ic & Cabc & Oth).
  set (a := last l1 (last l2 b)) in *. set (c := hd (hd b l1) l2) in *.
  destruct (third_vertex (l1 ++ l2) a c (sorted_remove l1 b l2 HS) HL)
    as (v & Hv & Na & Nc).
  destruct (Oth v Hv) as (Nb & [E|[E|Cv]]); try contradiction.
  assert (In' : forall w, In w (l1 ++ l2) -> (w < n)%nat).
  { intros w Hw. apply HB. apply in_app_or in Hw. apply in_or_app.
    cbn. tauto. }
  assert (Bb : (b < n)%nat) by (apply HB, in_or_app; cbn; auto).
  exists a, c, v. repeat split; try assumption.
  apply (ear_elim a b c (l1 ++ l2) v Ear Hv); auto;
    apply cyc_nonneg; auto; unfold cyc in *; lia.
Qed.

(** *** The triangulation *)

(** Ear clipping succeeds on a convex polygon; its triangles are turned as
    the polygon is, and their edges are the edges of the polygon and, in
    both directions, the base of every ear but the last. *)
Lemma triangulate_convex (fuel : nat) (L : list nat) :
  StronglySorted lt L -> below L ->
  (3 <= List.length L)%nat -> (List.length L <= fuel + 3)%nat -> strict L ->
  exists ts,
    triangulate eps points fuel L = Some ts /\
    S (S (List.length ts)) = List.length L /\
    Forall (fun t => cyc (fst (fst t)) (snd (fst t)) (snd t)
                     /\ below (triangle_loop t)) ts /\
    Permutation (flat_map edges (map triangle_loop ts))
                (edges L ++ flat_map both (map base (removelast ts))).
Proof.
  assert (Base : forall f a b c,
            StronglySorted lt [a; b; c] -> below [a; b; c] ->
            exists ts,
              triangulate eps points f [a; b; c] = Some ts /\
              S (S (List.length ts)) = List.length [a; b; c] /\
              Forall (fun t => cyc (fst (fst t)) (snd (fst t)) (snd t)
                               /\ below (triangle_loop t)) ts /\
              Permutation (flat_map edges (map triangle_loop ts))
                (edges [a; b; c]
                 ++ flat_map both (map base (removelast ts)))).
  { intros f a b c HS HB.
    destruct (sorted_three [] a b c [] HS) as (_ & Hab & Hbc & _).
    exists [(a, b, c)]. rewrite triangulate_eq.
    split; [reflexivity|]. split; [reflexivity|]. split.
    - constructor; [|constructor]. cbn [fst snd triangle_loop].
      split; [unfold cyc; lia|exact HB].
    - cbn. rewrite ?app_nil_r. apply Permutation_refl. }
  revert L; induction fuel as [|fuel IH]; intros L HS HB H3 HF St;
    (destruct (Nat.eq_dec (List.length L) 3) as [E3|N3];
     [destruct L as [|a [|b [|c [|d L]]]]; try discriminate E3;
      apply Base; assumption|]); [lia|].
  destruct (find_ear_convex L HS HB ltac:(lia) St)
    as (l1 & b & l2 & E & F & Ear).
  set (a := last l1 (last l2 b)) in *. set (c := hd (hd b l1) l2) in *.
  assert (HL' : S (List.length (l1 ++ l2)) = List.length L).
  { rewrite E, !length_app. cbn. lia. }
  rewrite E in HS, HB.
  destruct (neighbours l1 b l2 HS ltac:(lia)) as (Ia & Ic & Cabc & _).
  fold a in Ia, Cabc. fold c in Ic, Cabc.
  assert (HB' : below (l1 ++ l2)).
  { intros w Hw. apply HB. apply in_app_or in Hw. apply in_or_app.
    cbn. tauto. }
  destruct (IH (l1 ++ l2) (sorted_remove l1 b l2 HS) HB' ltac:(lia)
               ltac:(lia) (ear_strict l1 b l2 HS HB ltac:(lia) Ear))
    as (ts & T & TL & TF & TP).
  exists ((a, b, c) :: ts).
  assert (Step : triangulate eps points (S fuel) L = Some ((a, b, c) :: ts)).
  { rewrite triangulate_eq, F, T.
    destruct L as [|x1 [|x2 [|x3 [|x4 L]]]]; try (cbn in H3, N3; lia).
    reflexivity. }
  split; [exact Step|]. split; [cbn [List.length]; lia|].
  split.
  - constructor; [|exact TF]. cbn [fst snd triangle_loop]. split;
      [exact Cabc|].
    intros w [<-|[<-|[<-|[]]]];
      [apply HB', Ia|apply HB, in_or_app; cbn; auto|apply HB', Ic].
  - destruct ts as [|t ts]; [cbn in TL; lia|].
    change (removelast ((a, b, c) :: t :: ts))
      with ((a, b, c) :: removelast (t :: ts)).
    cbn [map flat_map]. unfold base at 1, both at 1.
    change (edges (triangle_loop (a, b, c)))
      with [(a, b); (b, c); (c, a)].
    pose proof (clip_edges l1 b l2 ltac:(lia)) as Clip.
    fold a in Clip. fold c in Clip. rewrite <- E in Clip.
    apply (Permutation_count_occ pair_dec). intros e.
    count_at TP e. count_at Clip e.
    cbn [map flat_map] in *. count_edges.
Qed.

(** *** The merging pass *)

Local Abbreviation good := (region n).

Lemma good_rotation (k : nat) (r : Polygon) :
  good r -> good (Nat.iter k (@rot1 nat) r).
Proof.
  intros (ND & HL & HT & HB).
  pose proof (iter_rot1_perm k r) as Pm.
  pose proof (edges_iter_rot1 k r) as Pe.
  split; [eapply Permutation_NoDup; [apply Permutation_sym, Pm|exact ND]|].
  split; [now rewrite (Permutation_length Pm)|].
  split.
  - intros u v w He Hw. apply HT.
    + eapply Permutation_in; [exact Pe|exact He].
    + eapply Permutation_in; [exact Pm|exact Hw].
  - intros i Hi. apply HB. eapply Permutation_in; [exact Pm|exact Hi].
Qed.

(** A region read from [v] to [u]: its inner vertices are met between
    [v] and [u]. *)
Lemma good_open (u v : nat) (t : list nat) :
  good (v :: t) -> last t v = u ->
  exists t0, t = t0 ++ [u] /\ t0 <> [] /\
    In (u, v) (edges (v :: t)) /\
    edges (v :: t) = pedges (v :: t0 ++ [u]) ++ [(u, v)] /\
    NoDup (v :: t0 ++ [u]) /\
    (forall w, In w t0 -> cyc v w u /\ (w < n)%nat) /\
    (u < n)%nat /\ (v < n)%nat.
Proof.
  intros (ND & HL & HT & HB) Hu.
  destruct t as [|z t]; [cbn in HL; lia|].
  destruct (exists_last (l := z :: t) ltac:(discriminate))
    as (t0 & y & E).
  rewrite E in *. rewrite last_last in Hu. subst y.
  assert (Ee : edges (v :: t0 ++ [u]) = pedges (v :: t0 ++ [u]) ++ [(u, v)]).
  { rewrite edges_pedges.
    replace (v :: (t0 ++ [u]) ++ [v]) with ((v :: t0) ++ u :: [v])
      by list_eq.
    rewrite (pedges_app (v :: t0) u [v]). reflexivity. }
  assert (Ie : In (u, v) (edges (v :: t0 ++ [u])))
    by (rewrite Ee; apply in_or_app; right; now left).
  exists t0. split; [reflexivity|]. split.
  { intros ->. cbn in HL. lia. }
  split; [exact Ie|]. split; [exact Ee|]. split; [exact ND|].
  split; [|split; apply HB; [right; apply in_or_app; cbn; auto|now left]].
  intros w Hw.
  assert (Iw : In w (v :: t0 ++ [u]))
    by (right; apply in_or_app; now left).
  split; [|apply HB, Iw].
  apply NoDup_cons_iff in ND as [Nv ND].
  apply (HT u v w Ie Iw).
  - intros ->. apply NoDup_remove_2 in ND. apply ND.
    now rewrite app_nil_r.
  - intros ->. apply Nv. apply in_or_app. now left.
Qed.

(** Two regions on the two sides of the diagonal [u v] merge into a
    region. *)
Lemma merge_good (u v : nat) (ta tb : list nat) :
  good (v :: ta ++ [u]) -> good (u :: tb ++ [v]) ->
  ta <> [] -> tb <> [] ->
  (forall w, In w ta -> cyc v w u) -> (forall w, In w tb -> cyc u w v) ->
  merge_safe eps points u v (v :: ta ++ [u]) (u :: tb ++ [v]) = true /\
  merge_regions (v :: ta ++ [u]) (u :: tb ++ [v]) = v :: ta ++ u :: tb /\
  edges (v :: ta ++ u :: tb)
  = pedges (v :: ta ++ [u]) ++ pedges (u :: tb ++ [v]) /\
  good (v :: ta ++ u :: tb).
Proof.
  intros (NDa & HLa & HTa & HBa) (NDb & HLb & HTb & HBb) Na Nb Ca Cb.
  assert (Bu : (u < n)%nat) by (apply HBb; now left).
  assert (Bv : (v < n)%nat) by (apply HBa; now left).
  assert (Ba : forall w, In w ta -> (w < n)%nat)
    by (intros w Hw; apply HBa; right; apply in_or_app; now left).
  assert (Bb : forall w, In w tb -> (w < n)%nat)
    by (intros w Hw; apply HBb; right; apply in_or_app; now left).
  assert (Ee : edges (v :: ta ++ u :: tb)
               = pedges (v :: ta ++ [u]) ++ pedges (u :: tb ++ [v])).
  { rewrite edges_pedges.
    replace (v :: (ta ++ u :: tb) ++ [v])
      with ((v :: ta) ++ u :: tb ++ [v]) by list_eq.
    now rewrite (pedges_app (v :: ta) u (tb ++ [v])). }
  assert (Ea : edges (v :: ta ++ [u]) = pedges (v :: ta ++ [u]) ++ [(u, v)]).
  { rewrite edges_pedges.
    replace (v :: (ta ++ [u]) ++ [v]) with ((v :: ta) ++ u :: [v])
      by list_eq.
    now rewrite (pedges_app (v :: ta) u [v]). }
  assert (Eb : edges (u :: tb ++ [v]) = pedges (u :: tb ++ [v]) ++ [(v, u)]).
  { rewrite edges_pedges.
    replace (u :: (tb ++ [v]) ++ [u]) with ((u :: tb) ++ v :: [u])
      by list_eq.
    now rewrite (pedges_app (u :: tb) v [u]). }
  split; [|split; [|split; [exact Ee|]]].
  - unfold merge_safe. cbn [tl].
    change (v :: ta ++ [u]) with ((v :: ta) ++ [u]).
    change (u :: tb ++ [v]) with ((u :: tb) ++ [v]).
    rewrite !removelast_last, !last_cons_default.
    assert (H1 : hd v (tb ++ [v]) = hd v tb)
      by (destruct tb; [congruence|reflexivity]).
    assert (H2 : hd u (ta ++ [u]) = hd u ta)
      by (destruct ta; [congruence|reflexivity]).
    rewrite H1, H2.
    pose proof (last_In ta v Na) as La. pose proof (hd_In tb v Nb) as Hb.
    pose proof (last_In tb u Nb) as Lb. pose proof (hd_In ta u Na) as Ha.
    pose proof (Ca _ La) as C1. pose proof (Cb _ Hb) as C2.
    pose proof (Cb _ Lb) as C3. pose proof (Ca _ Ha) as C4.
    rewrite !cyc_not_reflex; auto; unfold cyc in *; lia.
  - unfold merge_regions. cbn [tl]. rewrite removelast_last. list_eq.
  - split; [|split; [|split]].
    + replace (v :: ta ++ u :: tb) with ((v :: ta ++ [u]) ++ tb)
        by list_eq.
      apply NoDup_app; [exact NDa| |].
      * apply NoDup_cons_iff in NDb as [_ NDb].
        now apply NoDup_remove_1 in NDb; rewrite app_nil_r in NDb.
      * intros w Hw Hw'. pose proof (Cb w Hw') as C.
        destruct Hw as [<-|Hw]; [unfold cyc in C; lia|].
        apply in_app_or in Hw as [Hw|[<-|[]]].
        -- pose proof (Ca w Hw). unfold cyc in *. lia.
        -- unfold cyc in C. lia.
    + cbn [List.length]. rewrite length_app. cbn [List.length].
      destruct ta; [congruence|]. cbn [List.length]. lia.
    + intros x y w He Hw Nx Ny. rewrite Ee in He.
      assert (Mw : In w (v :: ta ++ [u]) \/ In w tb).
      { destruct Hw as [<-|Hw]; [left; now left|].
        apply in_app_or in Hw as [Hw|[<-|Hw]].
        - left. right. apply in_or_app. now left.
        - left. right. apply in_or_app. cbn; auto.
        - now right. }
      assert (Mw' : In w (u :: tb ++ [v]) \/ In w ta).
      { destruct Hw as [<-|Hw]; [left; right; apply in_or_app; cbn; auto|].
        apply in_app_or in Hw as [Hw|[<-|Hw]].
        - now right.
        - left. now left.
        - left. right. apply in_or_app. now left. }
      apply in_app_or in He as [He|He].
      * assert (He' : In (x, y) (edges (v :: ta ++ [u])))
          by (rewrite Ea; apply in_or_app; now left).
        destruct Mw as [Mw|Mw]; [now apply (HTa x y w)|].
        destruct (pedges_ends x y _ v NDa He) as [X1 Y1].
        change (v :: ta ++ [u]) with ((v :: ta) ++ [u]) in X1.
        rewrite last_last in X1. cbn [hd] in Y1.
        destruct (pedges_members x y _ He) as [Mx My].
        assert (F1 : x = v \/ cyc v x u).
        { destruct Mx as [<-|Mx]; [now left|].
          apply in_app_or in Mx as [Mx|[<-|[]]]; [right; auto|congruence]. }
        assert (F2 : y = u \/ cyc v y u).
        { destruct My as [<-|My]; [congruence|].
          apply in_app_or in My as [My|[<-|[]]]; [right; auto|now left]. }
        assert (F3 : v = x \/ cyc y v x).
        { destruct (Nat.eq_dec v x) as [|N]; [now left|right].
          apply (HTa x y v He'); [now left|auto|auto]. }
        assert (F4 : u = y \/ cyc y u x).
        { destruct (Nat.eq_dec u y) as [|N]; [now left|right].
          apply (HTa x y u He'); [right; apply in_or_app; cbn; auto
                                 |auto|auto]. }
        pose proof (Cb w Mw) as F5. unfold cyc in *. lia.
      * assert (He' : In (x, y) (edges (u :: tb ++ [v])))
          by (rewrite Eb; apply in_or_app; now left).
        destruct Mw' as [Mw'|Mw']; [now apply (HTb x y w)|].
        destruct (pedges_ends x y _ u NDb He) as [X1 Y1].
        change (u :: tb ++ [v]) with ((u :: tb) ++ [v]) in X1.
        rewrite last_last in X1. cbn [hd] in Y1.
        destruct (pedges_members x y _ He) as [Mx My].
        assert (F1 : x = u \/ cyc u x v).
        { destruct Mx as [<-|Mx]; [now left|].
          apply in_app_or in Mx as [Mx|[<-|[]]]; [right; auto|congruence]. }
        assert (F2 : y = v \/ cyc u y v).
        { destruct My as [<-|My]; [congruence|].
          apply in_app_or in My as [My|[<-|[]]]; [right; auto|now left]. }
        assert (F3 : u = x \/ cyc y u x).
        { destruct (Nat.eq_dec u x) as [|N]; [now left|right].
          apply (HTb x y u He'); [now left|auto|auto]. }
        assert (F4 : v = y \/ cyc y v x).
        { destruct (Nat.eq_dec v y) as [|N]; [now left|right].
          apply (HTb x y v He'); [right; apply in_or_app; cbn; auto
                                 |auto|auto]. }
        pose proof (Ca w Mw') as F5. unfold cyc in *. lia.
    + intros w [<-|Hw]; [exact Bv|].
      apply in_app_or in Hw as [Hw|[<-|Hw]]; auto.
Qed.

(** One diagonal of the scan: its two regions are found and merged. *)
Lemma merge_step_convex (Es : list (nat * nat)) (u v : nat)
    (ds : list (nat * nat)) (rs : list Polygon) :
  Forall good rs ->
  Permutation (flat_map edges rs) (Es ++ flat_map both ((u, v) :: ds)) ->
  Forall good (merge_step eps points (u, v) rs) /\
  Permutation (flat_map edges (merge_step eps points (u, v) rs))
              (Es ++ flat_map both ds) /\
  S (List.length (merge_step eps points (u, v) rs)) = List.length rs.
Proof.
  intros HG HP. rewrite Forall_forall in HG.
  (* the region on the left of the diagonal *)
  assert (Huv : In (u, v) (flat_map edges rs)).
  { eapply Permutation_in; [apply Permutation_sym, HP|].
    apply in_or_app. right. now left. }
  apply in_flat_map in Huv as (r1 & Hr1 & Euv).
  destruct (open_at_edge u v r1 Euv) as (ra0 & Oa0).
  destruct (extract_some (open_at u v) rs r1 ra0 Hr1 Oa0)
    as (ra & rs1 & X1).
  unfold merge_step. rewrite X1.
  apply extract_spec in X1 as (p1 & ra' & p2 & Ers & Ers1 & Oa).
  apply open_at_spec in Oa as ((ka & Eka) & (ta & Era & Hla)).
  assert (Ga' : good ra') by (apply HG; rewrite Ers; apply in_elt).
  assert (Ga : good ra) by (rewrite Eka; apply good_rotation, Ga').
  rewrite Era in Ga.
  destruct (good_open u v ta Ga Hla)
    as (ta0 & Eta & Nta & Ia & Eea & NDa & Ca & Bu & Bv).
  (* the region on the right *)
  assert (Hvu : In (v, u) (flat_map edges rs1)).
  { assert (H : In (v, u) (flat_map edges rs)).
    { eapply Permutation_in; [apply Permutation_sym, HP|].
      apply in_or_app. right. right. now left. }
    apply in_flat_map in H as (r2 & Hr2 & Evu).
    apply in_flat_map. exists r2. split; [|exact Evu].
    rewrite Ers in Hr2. rewrite Ers1.
    apply in_app_or in Hr2 as [H|[H|H]];
      [apply in_or_app; now left| |apply in_or_app; now right].
    exfalso. subst r2.
    assert (Evu' : In (v, u) (edges (v :: ta))).
    { rewrite <- Era, Eka. eapply Permutation_in;
        [apply Permutation_sym, edges_iter_rot1|exact Evu]. }
    destruct Ga as (ND & HL & HT & HB).
    destruct (third_member (v :: ta) u v ND HL) as (w & Hw & Nu & Nv).
    pose proof (HT u v w Ia Hw Nu Nv) as C1.
    pose proof (HT v u w Evu' Hw Nv Nu) as C2.
    unfold cyc in *. lia. }
  apply in_flat_map in Hvu as (r2 & Hr2 & Evu).
  destruct (open_at_edge v u r2 Evu) as (rb0 & Ob0).
  destruct (extract_some (open_at v u) rs1 r2 rb0 Hr2 Ob0)
    as (rb & rs2 & X2).
  rewrite X2.
  apply extract_spec in X2 as (q1 & rb' & q2 & Eq & Eq2 & Ob).
  apply open_at_spec in Ob as ((kb & Ekb) & (tb & Erb & Hlb)).
  assert (Gb' : good rb').
  { apply HG. rewrite Ers. assert (H : In rb' rs1)
      by (rewrite Eq; apply in_elt).
    rewrite Ers1 in H. apply in_app_or in H. apply in_or_app.
    cbn. tauto. }
  assert (Gb : good rb) by (rewrite Ekb; apply good_rotation, Gb').
  rewrite Erb in Gb.
  destruct (good_open v u tb Gb Hlb)
    as (tb0 & Etb & Ntb & Ib & Eeb & NDb & Cb & _ & _).
  subst ta tb.
  destruct (merge_good u v ta0 tb0 Ga Gb Nta Ntb
              (fun w Hw => proj1 (Ca w Hw)) (fun w Hw => proj1 (Cb w Hw)))
    as (Safe & Em & Eem & Gm).
  rewrite Era, Erb, Safe, Em.
  split; [|split].
  - apply Forall_forall. intros r [<-|Hr]; [exact Gm|].
    apply HG. rewrite Ers. rewrite Eq2 in Hr.
    assert (H : In r rs1).
    { rewrite Eq. apply in_app_or in Hr. apply in_or_app. cbn. tauto. }
    rewrite Ers1 in H. apply in_app_or in H. apply in_or_app.
    cbn. tauto.
  - assert (Pa : Permutation (edges ra') (edges (v :: ta0 ++ [u]))).
    { rewrite <- Era, Eka. apply Permutation_sym, edges_iter_rot1. }
    assert (Pb : Permutation (edges rb') (edges (u :: tb0 ++ [v]))).
    { rewrite <- Erb, Ekb. apply Permutation_sym, edges_iter_rot1. }
    assert (P1 : Permutation (flat_map edges (p1 ++ p2))
                             (flat_map edges (q1 ++ rb' :: q2)))
      by (rewrite <- Ers1, Eq; apply Permutation_refl).
    rewrite Ers in HP. rewrite Eq2. rewrite Eea in Pa. rewrite Eeb in Pb.
    cbn [flat_map]. rewrite !flat_map_app in *. cbn [flat_map] in *.
    rewrite Eem.
    unfold both at 1 in HP. cbn [fst snd] in HP.
    apply (Permutation_count_occ pair_dec). intros e.
    count_at HP e. count_at Pa e. count_at Pb e. count_at P1 e.
    count_edges.
  - rewrite Ers, Eq2.
    assert (H : List.length (p1 ++ p2) = List.length (q1 ++ rb' :: q2))
      by (rewrite <- Ers1, Eq; reflexivity).
    rewrite !length_app in *. cbn [List.length] in *.
    rewrite !length_app in *. lia.
Qed.

(** The whole scan. *)
Lemma fold_merge_convex (Es : list (nat * nat)) (ds : list (nat * nat))
    (rs : list Polygon) :
  Forall good rs ->
  Permutation (flat_map edges rs) (Es ++ flat_map both ds) ->
  List.length rs = S (List.length ds) ->
  exists r, fold_left (fun rs d => merge_step eps points d rs) ds rs = [r]
            /\ Permutation (edges r) Es.
Proof.
  revert rs; induction ds as [|[u v] ds IH]; intros rs HG HP HL.
  - destruct rs as [|r [|r' rs]]; try (cbn in HL; lia).
    exists r. split; [reflexivity|].
    cbn in HP. now rewrite !app_nil_r in HP.
  - cbn [fold_left].
    destruct (merge_step_convex Es u v ds rs HG HP) as (G & P & L).
    apply IH; [exact G|exact P|]. cbn [List.length] in HL. lia.
Qed.

(** *** The partition of a convex polygon *)

Lemma area2_triangle (a b c : nat) :
  area2 points [a; b; c] == cross (P a) (P b) (P c).
Proof. unfold area2, cross, edges, Qsum. cbn. ring. Qed.

(** A loop of collinear vertices has no area. *)
Lemma flat_area (L : list nat) :
  (forall i j k, In i L -> In j L -> In k L ->
     cross (P i) (P j) (P k) == 0) ->
  area2 points L == 0.
Proof.
  induction L as [|b l IH]; intros F; [reflexivity|].
  rewrite area2_drop_front, area2_triangle.
  assert (Hl : forall d, In (last l d) l \/ last l d = d).
  { intros d. destruct l as [|z l']; [now right|left].
    apply last_In. discriminate. }
  assert (Hh : forall d, In (hd d l) l \/ hd d l = d)
    by (intros d; destruct l; cbn; auto).
  rewrite F, IH.
  - reflexivity.
  - intros i j k Hi Hj Hk. apply F; now right.
  - destruct (Hl b) as [H| ->]; [now right|now left].
  - now left.
  - destruct (Hh b) as [H| ->]; [now right|now left].
Qed.

(** A polygon with an area has a left turn. *)
Lemma strict_area (L : list nat) :
  StronglySorted lt L -> below L -> 0 < area2 points L -> strict L.
Proof.
  intros HS HB A.
  destruct (corner_or_flat L HS HB)
    as [(l1 & a & b & c & l2 & E & T)|F].
  - exists a, b, c. rewrite E.
    repeat split; try (apply in_or_app; cbn; auto). exact T.
  - exfalso.
    assert (Z : area2 points L == 0); [|Lqa.lra].
    destruct L as [|p [|q l]]; try reflexivity.
    + unfold area2, edges, Qsum. cbn. ring.
    + apply flat_area. intros i j k Hi Hj Hk.
      assert (Hpq : (p < q)%nat).
      { apply StronglySorted_inv in HS as [_ G].
        rewrite Forall_forall in G. apply G. now left. }
      apply (col3 (P p) (P q)).
      * apply apart; [apply HB; cbn; auto|apply HB; cbn; auto|lia].
      * apply (flat_line l p q HS HB F i Hi).
      * apply (flat_line l p q HS HB F j Hj).
      * apply (flat_line l p q HS HB F k Hk).
Qed.

Lemma triangle_good (t : nat * nat * nat) :
  cyc (fst (fst t)) (snd (fst t)) (snd t) -> below (triangle_loop t) ->
  good (triangle_loop t).
Proof.
  destruct t as [[a b] c]. cbn [fst snd triangle_loop]. intros C HB.
  split; [|split; [cbn; lia|split; [|exact HB]]].
  - repeat constructor; cbn; unfold cyc in C; lia.
  - intros u v w He Hw Nu Nv.
    change (edges [a; b; c]) with [(a, b); (b, c); (c, a)] in He.
    cbn [In] in He, Hw.
    destruct He as [He|[He|[He|[]]]]; inversion He; subst;
      destruct Hw as [<-|[<-|[<-|[]]]]; cbn [fst snd] in *;
      try congruence; unfold cyc in *; lia.
Qed.

Lemma partition_HM_convex :
  (3 <= n)%nat -> 0 < area2 points (seq 0 n) ->
  exists r, partition_HM eps points (seq 0 n) = Some [r]
            /\ is_rotation (seq 0 n) r.
Proof.
  intros Hn A.
  assert (HS : StronglySorted lt (seq 0 n)) by apply sorted_seq.
  assert (HB : below (seq 0 n)) by (intros i Hi; apply in_seq in Hi; lia).
  destruct (triangulate_convex n (seq 0 n) HS HB)
    as (ts & T & TL & TF & TP);
    [rewrite length_seq; lia|rewrite length_seq; lia
    |apply strict_area; assumption|].
  rewrite length_seq in TL.
  unfold partition_HM. rewrite length_seq, T.
  destruct (diagonals_of_perm ts) as [DP DL].
  destruct (fold_merge_convex (edges (seq 0 n)) (diagonals_of ts)
              (map triangle_loop ts)) as (r & Er & Pr).
  - rewrite Forall_forall in *. intros r Hr.
    apply in_map_iff in Hr as (t & <- & Ht).
    destruct (TF t Ht). now apply triangle_good.
  - eapply Permutation_trans; [exact TP|].
    apply Permutation_app_head, Permutation_sym, DP.
  - rewrite length_map, DL.
    destruct (exists_last (l := ts)) as (ts' & t & E);
      [intros ->; cbn in TL; lia|].
    rewrite E, removelast_last, length_app. cbn. lia.
  - exists r. split; [now rewrite Er|].
    apply loop_of_edges; [lia|exact Pr].
Qed.

Lemma is_convex_polygon : (3 <= n)%nat -> is_convex eps points (seq 0 n) = true.
Proof.
  intros Hn. unfold is_convex.
  replace n with (S (S (n - 2))) at 1 by lia. rewrite corners_seq.
  apply forallb_forall. intros t Ht. apply negb_true_iff.
  apply in_app_or in Ht as [Ht|[<-|[<-|[]]]].
  - apply in_map_iff in Ht as (p & <- & Hp). apply in_seq in Hp.
    cbn [fst snd]. apply cyc_not_reflex; unfold cyc; lia.
  - cbn [fst snd]. apply cyc_not_reflex; unfold cyc; lia.
  - cbn [fst snd]. apply cyc_not_reflex; unfold cyc; lia.
Qed.

End Convex.

Lemma partition_OPT_aux_convex (eps : Q) (points : list vec2) (fuel : nat)
    (ds : list (nat * nat)) (poly : Polygon) :
  fuel <> 0%nat -> is_convex eps points poly = true ->
  partition_OPT_aux eps points fuel ds poly = Some [poly].
Proof.
  intros Hf Hc. destruct fuel as [|fuel]; [congruence|].
  cbn [partition_OPT_aux]. now rewrite Hc.
Qed.

(** With the tolerance 0 no corner is blurred. *)
Lemma sharp_zero (points : list vec2) : sharp 0 points.
Proof.
  intros i j k _ _ _ H. unfold turn, orientation in H.
  destruct (Qlt_bool 0 (cross (pt points i) (pt points j) (pt points k)))
    eqn:E1; [discriminate H|].
  destruct (Qlt_bool (cross (pt points i) (pt points j) (pt points k))
                     (- 0)) eqn:E2; [discriminate H|].
  assert (N1 : ~ 0 < cross (pt points i) (pt points j) (pt points k))
    by (rewrite <- Qlt_bool_iff; congruence).
  assert (N2 : ~ cross (pt points i) (pt points j) (pt points k) < - 0)
    by (rewrite <- Qlt_bool_iff; congruence).
  Lqa.lra.
Qed.


(** ** Polygons with holes *)

Section Holes.

Variable eps : Q.
Variable points : list vec2.

Local Abbreviation P := (pt points).

(** No two of the edges [X] cross. *)
Local Abbreviation apart X :=
  (forall e f, In e X -> In f X ->
     segments_intersect eps (P (fst e)) (P (snd e)) (P (fst f)) (P (snd f))
     = false).

Lemma loops_apart_edges (loops : list Polygon) :
  loops_apart eps points loops = true <-> apart (flat_map edges loops).
Proof.
  unfold loops_apart, clear_of. split.
  - intros H e f He Hf.
    apply in_flat_map in He as (l & Hl & He).
    apply in_flat_map in Hf as (m & Hm & Hf).
    rewrite forallb_forall in H. specialize (H l Hl).
    rewrite forallb_forall in H. specialize (H m Hm).
    rewrite forallb_forall in H. specialize (H e He).
    rewrite forallb_forall in H. specialize (H f Hf).
    now apply negb_true_iff in H.
  - intros H. apply forallb_forall. intros l Hl.
    apply forallb_forall. intros m Hm.
    apply forallb_forall. intros e He.
    apply forallb_forall. intros f Hf. apply negb_true_iff.
    apply H; apply in_flat_map; eauto.
Qed.

Lemma opposite_sym (s t : Turn) : opposite s t = opposite t s.
Proof. destruct s, t; reflexivity. Qed.

Lemma segments_intersect_sym (a b c d : vec2) :
  segments_intersect eps a b c d = segments_intersect eps c d a b.
Proof. unfold segments_intersect. apply andb_comm. Qed.

Lemma segments_intersect_same (a b : vec2) :
  segments_intersect eps a b a b = false /\
  segments_intersect eps a b b a = false.
Proof.
  unfold segments_intersect. unfold orientation.
  assert (E1 : Qlt_bool eps (cross a b a) = Qlt_bool eps (cross a b b)).
  { unfold Qlt_bool. f_equal.
    destruct (Qle_bool (cross a b a) eps) eqn:F1,
             (Qle_bool (cross a b b) eps) eqn:F2; try reflexivity;
      exfalso.
    - apply Qle_bool_iff in F1.
      assert (~ cross a b b <= eps) by (rewrite <- Qle_bool_iff; congruence).
      rewrite cross_flat_l in F1. rewrite cross_flat_r in H. tauto.
    - apply Qle_bool_iff in F2.
      assert (~ cross a b a <= eps) by (rewrite <- Qle_bool_iff; congruence).
      rewrite cross_flat_r in F2. rewrite cross_flat_l in H. tauto. }
  assert (E2 : Qlt_bool (cross a b a) (- eps)
               = Qlt_bool (cross a b b) (- eps)).
  { unfold Qlt_bool. f_equal.
    destruct (Qle_bool (- eps) (cross a b a)) eqn:F1,
             (Qle_bool (- eps) (cross a b b)) eqn:F2; try reflexivity;
      exfalso.
    - apply Qle_bool_iff in F1.
      assert (~ - eps <= cross a b b)
        by (rewrite <- Qle_bool_iff; congruence).
      rewrite cross_flat_l in F1. rewrite cross_flat_r in H. tauto.
    - apply Qle_bool_iff in F2.
      assert (~ - eps <= cross a b a)
        by (rewrite <- Qle_bool_iff; congruence).
      rewrite cross_flat_r in F2. rewrite cross_flat_l in H. tauto. }
  rewrite E1, E2.
  destruct (Qlt_bool eps (cross a b b)),
           (Qlt_bool (cross a b b) (- eps)); cbn; auto.
Qed.

Hypothesis eps_nonneg : 0 <= eps.

Lemma orientation_rev (a b c : vec2) :
  orientation eps b a c
  = match orientation eps a b c with
    | LeftTurn => RightTurn
    | RightTurn => LeftTurn
    | Collinear => Collinear
    end.
Proof.
  pose proof (cross_rev a b c) as R.
  destruct (orientation eps a b c) eqn:E.
  - apply (orientation_left eps) in E.
    apply (orientation_right eps eps_nonneg). Lqa.lra.
  - apply (orientation_right eps eps_nonneg) in E.
    apply (orientation_left eps). Lqa.lra.
  - destruct (orientation eps b a c) eqn:F; [| |reflexivity]; exfalso.
    + apply (orientation_left eps) in F.
      assert (G : orientation eps a b c = RightTurn)
        by (apply (orientation_right eps eps_nonneg); Lqa.lra).
      congruence.
    + apply (orientation_right eps eps_nonneg) in F.
      assert (G : orientation eps a b c = LeftTurn)
        by (apply (orientation_left eps); Lqa.lra).
      congruence.
Qed.

(** Reading a segment backwards does not change what it crosses. *)
Lemma segments_intersect_rev (a b c d : vec2) :
  segments_intersect eps b a c d = segments_intersect eps a b c d.
Proof.
  unfold segments_intersect. rewrite !(orientation_rev a b).
  rewrite (opposite_sym (orientation eps c d b)). f_equal.
  destruct (orientation eps a b c), (orientation eps a b d); reflexivity.
Qed.

(** *** What a bridge does *)

Lemma splice_shape (host hole : Polygon) (p q : nat) :
  (p < List.length host)%nat -> (q < List.length hole)%nat ->
  exists h1 h2 g1 g2,
    host = h1 ++ nth p host 0%nat :: h2 /\
    hole = g1 ++ nth q hole 0%nat :: g2 /\
    splice host hole p q
    = h1 ++ nth p host 0%nat :: nth q hole 0%nat :: g2 ++ g1
         ++ nth q hole 0%nat :: nth p host 0%nat :: h2.
Proof.
  intros Hp Hq.
  destruct (nth_split_at host p 0%nat Hp) as [F1 S1].
  destruct (nth_split_at hole q 0%nat Hq) as [_ S2].
  exists (firstn p host), (skipn (S p) host),
         (firstn q hole), (skipn (S q) hole).
  split; [now rewrite <- S1, firstn_skipn|].
  split; [now rewrite <- S2, firstn_skipn|].
  unfold splice. rewrite F1, S1, S2. list_eq.
Qed.

(** The spliced loop has the vertices of the host and of the hole. *)
Lemma splice_vertices (host hole : Polygon) (p q : nat) (k : nat) :
  (p < List.length host)%nat -> (q < List.length hole)%nat ->
  In k (splice host hole p q) <-> In k host \/ In k hole.
Proof.
  intros Hp Hq.
  destruct (splice_shape host hole p q Hp Hq)
    as (h1 & h2 & g1 & g2 & Eh & Eg & ->).
  set (v := nth p host 0%nat) in *. set (w := nth q hole 0%nat) in *.
  rewrite Eh, Eg. clearbody v w.
  repeat (rewrite in_app_iff || cbn [In]). tauto.
Qed.

(** Its edges are the edges of the host, the edges of the hole, and the
    bridge in both directions. *)
Lemma splice_edges (host hole : Polygon) (p q : nat) :
  (p < List.length host)%nat -> (q < List.length hole)%nat ->
  Permutation (edges (splice host hole p q))
              (edges host ++ edges hole
               ++ both (nth p host 0%nat, nth q hole 0%nat)).
Proof.
  intros Hp Hq.
  destruct (splice_shape host hole p q Hp Hq)
    as (h1 & h2 & g1 & g2 & Eh & Eg & ->).
  set (v := nth p host 0%nat) in *. set (w := nth q hole 0%nat) in *.
  clearbody v w. rewrite Eh, Eg. clear Eh Eg Hp Hq.
  assert (Pg : Permutation (edges (g1 ++ w :: g2))
                           (edges (w :: g2 ++ g1))).
  { change (w :: g2 ++ g1) with ((w :: g2) ++ g1).
    rewrite <- (iter_rot1_app g1 (w :: g2)).
    apply Permutation_sym, edges_iter_rot1. }
  rewrite !edges_app_cons in *. rewrite edges_pedges in Pg.
  replace (h1 ++ v :: (w :: g2 ++ g1 ++ w :: v :: h2) ++ [hd v h1])
    with (h1 ++ v :: w :: g2 ++ g1 ++ w :: v :: h2 ++ [hd v h1])
    by list_eq.
  rewrite (pedges_app h1 v (w :: g2 ++ g1 ++ w :: v :: h2 ++ [hd v h1])).
  rewrite (pedges_app h1 v (h2 ++ [hd v h1])).
  rewrite pedges_cons2.
  replace (w :: g2 ++ g1 ++ w :: v :: h2 ++ [hd v h1])
    with ((w :: g2 ++ g1) ++ w :: v :: h2 ++ [hd v h1]) by list_eq.
  rewrite (pedges_app (w :: g2 ++ g1) w (v :: h2 ++ [hd v h1])).
  rewrite pedges_cons2.
  replace ((w :: g2 ++ g1) ++ [w]) with (w :: (g2 ++ g1) ++ [w])
    by list_eq.
  unfold both. cbn [fst snd].
  apply (Permutation_count_occ pair_dec). intros e.
  count_at Pg e. count_edges.
Qed.

Lemma replace_nth_length {A : Type} (k : nat) (a : A) (l : list A) :
  List.length (replace_nth k a l) = List.length l.
Proof.
  revert k; induction l as [|b l IH]; intros [|k]; cbn; auto.
Qed.

Lemma replace_nth_In {A : Type} (k : nat) (a b : A) (l : list A) :
  In b (replace_nth k a l) -> b = a \/ In b l.
Proof.
  revert k; induction l as [|c l IH]; intros [|k]; cbn; try tauto.
  - intros [H|H]; auto.
  - intros [H|H]; auto. destruct (IH k H); auto.
Qed.

Lemma replace_nth_old {A : Type} (k : nat) (a b d : A) (l : list A) :
  In b l -> b = nth k l d \/ In b (replace_nth k a l).
Proof.
  revert k; induction l as [|c l IH]; intros [|k]; cbn; try tauto.
  - intros [H|H]; auto.
  - intros [H|H]; auto. destruct (IH k H); auto.
Qed.

Lemma replace_nth_new {A : Type} (k : nat) (a : A) (l : list A) :
  (k < List.length l)%nat -> In a (replace_nth k a l).
Proof.
  revert k; induction l as [|c l IH]; intros [|k]; cbn; try lia; auto.
  intros H. right. apply IH. lia.
Qed.

Lemma In_bridges_ok (polys holes : list Polygon) (hole : Polygon)
    (dd : Q) (hn p q : nat) :
  In (dd, (hn, p, q)) (bridges eps points polys holes hole) ->
  bridge_ok eps points polys holes (nth hn polys [])
            (nth p (nth hn polys []) 0%nat) (nth q hole 0%nat) = true.
Proof.
  unfold bridges. intros H.
  apply in_flat_map in H as (hn' & Hh & H).
  apply in_flat_map in H as (p' & Hp & H).
  apply in_flat_map in H as (q' & Hq & H).
  destruct (bridge_ok _ _ _ _ _ _ _) eqn:B; [|destruct H].
  destruct H as [H|[]]. inversion H; subst. exact B.
Qed.

(** One bridge: the host and the hole become one loop. *)
Lemma merge_holes_step (polys : list Polygon) (hole : Polygon)
    (holes bs : list Polygon) :
  merge_holes eps points polys (hole :: holes) = Some bs ->
  exists hn p q,
    (hn < List.length polys)%nat /\
    (p < List.length (nth hn polys []))%nat /\
    (q < List.length hole)%nat /\
    bridge_ok eps points polys (hole :: holes) (nth hn polys [])
              (nth p (nth hn polys []) 0%nat) (nth q hole 0%nat) = true /\
    merge_holes eps points
      (replace_nth hn (splice (nth hn polys []) hole p q) polys) holes
    = Some bs.
Proof.
  cbn [merge_holes].
  destruct (nearest _) as [[dd [[hn p] q]]|] eqn:N; [|discriminate].
  intros H. apply nearest_In in N.
  pose proof (In_bridges _ _ _ _ _ _ _ _ _ N) as (Hh & Hp & Hq).
  pose proof (In_bridges_ok _ _ _ _ _ _ _ N) as B.
  exists hn, p, q. auto.
Qed.

(** *** What bridging all the holes does *)

(** As many loops as there were polygons. *)
Lemma merge_holes_length (polys holes bs : list Polygon) :
  merge_holes eps points polys holes = Some bs ->
  List.length bs = List.length polys.
Proof.
  revert polys; induction holes as [|hole holes IH]; intros polys H.
  - now inversion H.
  - apply merge_holes_step in H as (hn & p & q & _ & _ & _ & _ & H).
    apply IH in H. now rewrite replace_nth_length in H.
Qed.

(** The loops go through the vertices of the polygons and of the holes,
    and through no other. *)
Lemma merge_holes_vertices (polys holes bs : list Polygon) (k : nat) :
  merge_holes eps points polys holes = Some bs ->
  (exists l, In l (polys ++ holes) /\ In k l)
  <-> (exists b, In b bs /\ In k b).
Proof.
  revert polys; induction holes as [|hole holes IH]; intros polys H.
  - inversion H; subst. now rewrite app_nil_r.
  - apply merge_holes_step in H as (hn & p & q & Hh & Hp & Hq & _ & H).
    rewrite <- (IH _ H). clear IH H.
    set (host := nth hn polys []) in *.
    pose proof (splice_vertices host hole p q k Hp Hq) as V.
    split; intros (l & Hl & Hk); apply in_app_or in Hl.
    + destruct Hl as [Hl|[<-|Hl]].
      * destruct (replace_nth_old hn (splice host hole p q) l [] polys Hl)
          as [->|Hl'].
        -- exists (splice host hole p q). split; [|apply V; now left].
           apply in_or_app. left. now apply replace_nth_new.
        -- exists l. split; [apply in_or_app; now left|exact Hk].
      * exists (splice host hole p q). split; [|apply V; now right].
        apply in_or_app. left. now apply replace_nth_new.
      * exists l. split; [apply in_or_app; now right|exact Hk].
    + destruct Hl as [Hl|Hl].
      * apply replace_nth_In in Hl as [->|Hl].
        -- apply V in Hk as [Hk|Hk].
           ++ exists host. split; [|exact Hk].
              apply in_or_app. left. now apply nth_In.
           ++ exists hole. split; [|exact Hk].
              apply in_or_app. right. now left.
        -- exists l. split; [apply in_or_app; now left|exact Hk].
      * exists l. split; [|exact Hk]. apply in_or_app. right. now right.
Qed.

(** No two edges of the loops cross, the bridges being such. *)
Lemma merge_holes_apart (polys holes bs : list Polygon) :
  merge_holes eps points polys holes = Some bs ->
  apart (flat_map edges (polys ++ holes)) ->
  apart (flat_map edges bs).
Proof.
  revert polys; induction holes as [|hole holes IH]; intros polys H A.
  - inversion H; subst. now rewrite app_nil_r in A.
  - apply merge_holes_step in H as (hn & p & q & Hh & Hp & Hq & B & H).
    apply (IH _ H). clear IH H bs.
    set (host := nth hn polys []) in *.
    set (v := nth p host 0%nat) in *. set (w := nth q hole 0%nat) in *.
    assert (Hc : forall g, In g (flat_map edges (polys ++ hole :: holes)) ->
                   segments_intersect eps (P v) (P w) (P (fst g)) (P (snd g))
                   = false).
    { intros g Hg. apply in_flat_map in Hg as (l & Hl & Hg).
      unfold bridge_ok in B. apply andb_true_iff in B as [B _].
      apply andb_true_iff in B as [B _].
      rewrite forallb_forall in B. specialize (B l Hl).
      unfold clear_of in B. rewrite forallb_forall in B.
      specialize (B g Hg). now apply negb_true_iff in B. }
    assert (Cl : forall e,
              In e (flat_map edges
                      (replace_nth hn (splice host hole p q) polys ++ holes)) ->
              In e (flat_map edges (polys ++ hole :: holes))
              \/ e = (v, w) \/ e = (w, v)).
    { intros e He. apply in_flat_map in He as (l & Hl & He).
      apply in_app_or in Hl as [Hl|Hl].
      - apply replace_nth_In in Hl as [->|Hl].
        + apply (Permutation_in _ (splice_edges host hole p q Hp Hq)) in He.
          apply in_app_or in He as [He|He].
          * left. apply in_flat_map. exists host. split; [|exact He].
            apply in_or_app. left. now apply nth_In.
          * apply in_app_or in He as [He|He].
            -- left. apply in_flat_map. exists hole. split; [|exact He].
               apply in_or_app. right. now left.
            -- right. unfold both in He. cbn in He.
               destruct He as [<-|[<-|[]]]; auto.
        + left. apply in_flat_map. exists l. split; [|exact He].
          apply in_or_app. now left.
      - left. apply in_flat_map. exists l. split; [|exact He].
        apply in_or_app. right. now right. }
    intros e f He Hf.
    destruct (segments_intersect_same (P v) (P w)) as [S1 S2].
    destruct (segments_intersect_same (P w) (P v)) as [S3 S4].
    destruct (Cl e He) as [He'|[Ee|Ee]]; try subst e;
      (destruct (Cl f Hf) as [Hf'|[Ef|Ef]]; try subst f);
      cbn [fst snd]; auto.
    + rewrite segments_intersect_sym. now apply Hc.
    + rewrite segments_intersect_sym, segments_intersect_rev.
      now apply Hc.
    + rewrite segments_intersect_rev. now apply Hc.
Qed.


End Holes.
(** ** The theorems on concrete polygons *)

(** The unit square, and the square of side 4 with a square hole of side
    1: 16 - 1. *)
Lemma area_preserved_witness :
  apply_HM 0 unit_square = (true, [[3; 0; 1; 2]]%nat) /\
  apply 0 holed_square [[0; 1; 2; 3]%nat] [[4; 5; 6; 7]%nat]
  = (true, [[0; 1; 7; 4]; [3; 5; 6; 2]; [1; 2; 6; 7]; [3; 0; 4; 5]]%nat) /\
  parts_area unit_square [[3; 0; 1; 2]%nat]
  == signed_area unit_square (seq 0 4) /\
  parts_area holed_square
    [[0; 1; 7; 4]; [3; 5; 6; 2]; [1; 2; 6; 7]; [3; 0; 4; 5]]%nat
  == parts_area holed_square [[0; 1; 2; 3]%nat]
     - holes_area holed_square [[4; 5; 6; 7]%nat].
Proof.
  assert (H1 : apply_HM 0 unit_square = (true, [[3; 0; 1; 2]]%nat))
    by (vm_compute; reflexivity).
  assert (H2 : apply 0 holed_square [[0; 1; 2; 3]%nat] [[4; 5; 6; 7]%nat]
               = (true, [[0; 1; 7; 4]; [3; 5; 6; 2]; [1; 2; 6; 7];
                         [3; 0; 4; 5]]%nat))
    by (vm_compute; reflexivity).
  split; [exact H1|]. split; [exact H2|]. split.
  - destruct (area_preserved 0 unit_square [] []) as (A & _ & _).
    apply (A _ H1).
  - destruct (area_preserved 0 holed_square [[0; 1; 2; 3]%nat]
                [[4; 5; 6; 7]%nat]) as (_ & _ & A).
    apply (A _ H2).
Defined.

Lemma unit_square_convex : convex_position 0 unit_square.
Proof.
  intros i j k Hij Hjk Hk. cbn in Hk.
  destruct i as [|[|[|i]]]; destruct j as [|[|[|j]]];
    destruct k as [|[|[|[|k]]]]; try lia;
    intros H; vm_compute in H; discriminate H.
Qed.

Lemma flat_square_convex : convex_position 0 flat_square.
Proof.
  intros i j k Hij Hjk Hk. cbn in Hk.
  destruct i as [|[|[|[|i]]]]; destruct j as [|[|[|[|j]]]];
    destruct k as [|[|[|[|[|k]]]]]; try lia;
    intros H; vm_compute in H; discriminate H.
Qed.


Lemma on_edge (a b p : vec2) (t : Q) :
  0 <= t -> t <= 1 ->
  x p == x a + t * (x b - x a) -> y p == y a + t * (y b - y a) ->
  between a b p.
Proof. intros. exists t. auto. Qed.

Lemma bow_tie_self_intersecting : self_intersecting bow_tie.
Proof.
  exists 0%nat, 2%nat, (mkvec2 (1 # 2) (1 # 2)).
  split; [lia|]. split; [cbn; lia|].
  split; [apply (on_edge _ _ _ (1 # 2)); cbn; Lqa.lra|].
  split; [apply (on_edge _ _ _ (1 # 2)); cbn; Lqa.lra|].
  split; [intros [H _]; lia|intros (_ & H & _); cbn in H; lia].
Qed.

Lemma pinched_self_intersecting : self_intersecting pinched.
Proof.
  exists 1%nat, 4%nat, (mkvec2 2 2).
  split; [lia|]. split; [cbn; lia|].
  split; [apply (on_edge _ _ _ 1); cbn; Lqa.lra|].
  split; [apply (on_edge _ _ _ 1); cbn; Lqa.lra|].
  split; [intros [H _]; lia|intros (H & _); lia].
Qed.

Lemma spike_self_intersecting : self_intersecting spike.
Proof.
  exists 3%nat, 4%nat, (mkvec2 1 2).
  split; [lia|]. split; [cbn; lia|].
  split; [apply (on_edge _ _ _ 0); cbn; Lqa.lra|].
  split; [apply (on_edge _ _ _ 1); cbn; Lqa.lra|].
  split; [intros [_ [_ H]]; cbn in H; Lqa.lra|intros (H & _); lia].
Qed.



(** ** The L-shaped hexagon *)

(** Two L-shaped hexagons, each with one reflex vertex: the optimal
    partitioner cuts both in two; the Hertel-Mehlhorn partitioner cuts the
    one in two and the other in three. *)
Lemma L_hexagons :
  (reflex_count 0 L_thin (seq 0 6) = 1%nat /\
   apply_OPT 0 L_thin = (true, [[0; 1; 2; 3]; [0; 3; 4; 5]]%nat) /\
   apply_HM 0 L_thin = (true, [[5; 0; 3; 4]; [2; 3; 0; 1]]%nat)) /\
  (reflex_count 0 L_thick (seq 0 6) = 1%nat /\
   apply_OPT 0 L_thick = (true, [[0; 1; 2; 3]; [0; 3; 4; 5]]%nat) /\
   apply_HM 0 L_thick
   = (true, [[5; 0; 1; 3]; [1; 2; 3]; [3; 4; 5]]%nat)).
Proof. repeat split; vm_compute; reflexivity. Qed.

End PolygonPartitionFacts.
(* ===================================================================== *)
(** * More facts about RealCamera                                         *)
(* ===================================================================== *)

Module RealCameraSceneFacts.
Import RealCamera RealCameraScene RealCameraFacts.

Section Keys.

Context {Viewer Texture : Type} {L : Library Viewer Texture}.

Local Abbreviation St := (State Viewer Texture).

Lemma list_eq_dec_nil {A : Type} (l : list A) : {l = []} + {l <> []}.
Proof.
  destruct l; [left; reflexivity | right; discriminate].
Qed.

Lemma views_size_pos (st : St) : views_ st <> [] -> (0 < views_size st)%N.
Proof.
  intros H. apply views_size_zero_neq in H. lia.
Qed.

Lemma negb_size_nonempty (st : St) :
  views_ st <> [] -> negb (views_size st =? 0)%N = true.
Proof.
  intros H. apply negb_true_iff, N.eqb_neq. now apply views_size_zero_neq.
Qed.

Lemma negb_size_empty (st : St) :
  views_ st = [] -> negb (views_size st =? 0)%N = false.
Proof.
  intros H. apply negb_false_iff, N.eqb_eq. now apply views_size_zero.
Qed.

(** The index the Space key moves to is an index of [views_]. *)
Lemma next_view_in_range (st : St) :
  views_ st <> [] ->
  (size_rem (size_add (current_view_ st) 1) (views_size st)
     < views_size st)%N.
Proof.
  intros H. unfold size_rem. apply N.mod_lt. now apply views_size_zero_neq.
Qed.

(** The Space key with a view present, in full. *)
Lemma key_space_unfold (mods : Z) (st : St) (cam : CameraPara) :
  let i := size_rem (size_add (current_view_ st) 1) (views_size st) in
  nth_error (views_ st) (N.to_nat i) = Some cam ->
  key_press_event GLFW_KEY_SPACE mods st =
    (true,
     with_base (resize (scale_03 (w cam)) (scale_03 (h cam)))
       (with_base (set_title ("RealCamera: View_" ++ to_string i))
          (print ("----- view " ++ to_string i ++ " ------")
             (with_camera (method2 cam (camera_ st))
                (load_image (with_current_view i st)))))).
Proof.
  intros i E. unfold key_press_event.
  rewrite Z.eqb_refl.
  assert (Hne : views_ st <> []).
  { intros Z. rewrite Z in E. now destruct (N.to_nat i). }
  rewrite (negb_size_nonempty st Hne).
  fold i.
  rewrite (KRT_to_camera_in_range (with_current_view i st) i 2
             (camera_ st) cam E).
  change (2 =? 1)%Z with false. change (2 =? 2)%Z with true. cbv iota.
  cbn [current_view_ with_current_view with_camera print with_base views_
       camera_].
  destruct (load_image_frame (with_current_view i st)) as (Hv & Hc & _).
  cbn [views_ current_view_ with_current_view] in Hv, Hc.
  rewrite Hv, Hc, E. reflexivity.
Qed.

(** The keys '1' and '2' on a current view in range, in full. *)
Lemma show_view_unfold (m : Z) (st : St) (cam : CameraPara) :
  nth_error (views_ st) (N.to_nat (current_view_ st)) = Some cam ->
  show_view m st =
    with_base update
      (with_base (resize (scale_03 (w cam)) (scale_03 (h cam)))
         (print ("----- view " ++ to_string (current_view_ st) ++ " ------")
            (with_camera
               (if (m =? 1)%Z then
                  set_from_calibration (fx cam) (fy cam) 0 (cx cam) (cy cam)
                    (mkvec3 (rx cam) (ry cam) (rz cam))
                    (mkvec3 (tx cam) (ty cam) (tz cam)) (camera_ st)
                else if (m =? 2)%Z then method2 cam (camera_ st)
                else camera_ st)
               (load_image st)))).
Proof.
  intros E. unfold show_view.
  rewrite (KRT_to_camera_in_range st (current_view_ st) m (camera_ st) cam E).
  cbn [current_view_ with_camera print with_base views_ camera_].
  destruct (load_image_frame st) as (Hv & Hc & _).
  rewrite Hv, Hc, E. reflexivity.
Qed.

(** X1.  The Space, '1', '2' and 'H' keys are always reported as handled:
    [key_press_event] returns [true] for them in every state, with or
    without views, with or without the drawable "cameras". *)
Theorem key_press_event_handled (key mods : Z) (st : St) :
  key = GLFW_KEY_SPACE \/ key = GLFW_KEY_1 \/ key = GLFW_KEY_2
    \/ key = GLFW_KEY_H ->
  fst (key_press_event key mods st) = true.
Proof.
  intros [-> | [-> | [-> | ->]]]; unfold key_press_event; cbn [Z.eqb].
  - rewrite Z.eqb_refl.
    destruct (negb (views_size st =? 0)%N); [|reflexivity].
    destruct (KRT_to_camera _ _ _ _) as [[ok c'] st1].
    destruct ok; [|reflexivity].
    cbn [views_ current_view_ with_base print with_camera].
    destruct (nth_error _ _); reflexivity.
  - change (GLFW_KEY_1 =? GLFW_KEY_SPACE)%Z with false.
    rewrite Z.eqb_refl.
    destruct (negb (views_size st =? 0)%N); reflexivity.
  - change (GLFW_KEY_2 =? GLFW_KEY_SPACE)%Z with false.
    change (GLFW_KEY_2 =? GLFW_KEY_1)%Z with false.
    rewrite Z.eqb_refl.
    destruct (negb (views_size st =? 0)%N); reflexivity.
  - change (GLFW_KEY_H =? GLFW_KEY_SPACE)%Z with false.
    change (GLFW_KEY_H =? GLFW_KEY_1)%Z with false.
    change (GLFW_KEY_H =? GLFW_KEY_2)%Z with false.
    rewrite Z.eqb_refl.
    destruct (cameras_drawable_visible (base st)); reflexivity.
Qed.

(** X2.  Every other key goes to [Viewer::key_press_event]: the result is
    the base class's, and the members of [RealCamera] itself (the views, the
    current view, the texture) are left as they were.  What the base class
    does with its own state is its business. *)
Theorem key_press_event_other_key (key mods : Z) (st : St) :
  key <> GLFW_KEY_SPACE -> key <> GLFW_KEY_1 -> key <> GLFW_KEY_2 ->
  key <> GLFW_KEY_H ->
  let r := key_press_event key mods st in
  fst r = fst (Viewer_key_press_event key mods (base st)) /\
  base (snd r) = snd (Viewer_key_press_event key mods (base st)) /\
  views_ (snd r) = views_ st /\
  current_view_ (snd r) = current_view_ st /\
  texture_ (snd r) = texture_ st.
Proof.
  intros H0 H1 H2 H3. unfold key_press_event.
  apply Z.eqb_neq in H0, H1, H2, H3. rewrite H0, H1, H2, H3.
  destruct (Viewer_key_press_event key mods (base st)) as [r b'].
  cbn. repeat split; reflexivity.
Qed.

(** X3.  With no view loaded the Space, '1' and '2' keys do nothing at
    all: the key is reported as handled and the state is the one before
    (no index arithmetic, no camera change, no image, no output). *)
Theorem key_press_event_no_views (key mods : Z) (st : St) :
  views_ st = [] ->
  key = GLFW_KEY_SPACE \/ key = GLFW_KEY_1 \/ key = GLFW_KEY_2 ->
  key_press_event key mods st = (true, st).
Proof.
  intros E [-> | [-> | ->]]; unfold key_press_event.
  - rewrite Z.eqb_refl, (negb_size_empty st E). reflexivity.
  - change (GLFW_KEY_1 =? GLFW_KEY_SPACE)%Z with false.
    rewrite Z.eqb_refl, (negb_size_empty st E). reflexivity.
  - change (GLFW_KEY_2 =? GLFW_KEY_SPACE)%Z with false.
    change (GLFW_KEY_2 =? GLFW_KEY_1)%Z with false.
    rewrite Z.eqb_refl, (negb_size_empty st E). reflexivity.
Qed.

(** A key press does not change [views_size]. *)
Lemma key_press_event_size (key mods : Z) (st : St) :
  views_size (snd (key_press_event key mods st)) = views_size st.
Proof.
  unfold views_size. now rewrite key_press_event_views.
Qed.

End Keys.

Section Sequences.

Context {Viewer Texture : Type} {L : Library Viewer Texture}
        {Sc : Scene Viewer Texture}.

Local Abbreviation St := (State Viewer Texture).

Lemma press_keys_views (keys : list (Z * Z)) (st : St) :
  views_ (press_keys keys st) = views_ st.
Proof.
  unfold press_keys. revert st.
  induction keys as [|km keys IH]; intros st; cbn [fold_left]; auto.
  rewrite IH. apply key_press_event_views.
Qed.

Lemma spaces_cons (km : Z * Z) (keys : list (Z * Z)) :
  spaces (km :: keys) =
    ((if (fst km =? GLFW_KEY_SPACE)%Z then 1 else 0) + spaces keys)%N.
Proof.
  unfold spaces. cbn [filter].
  destruct (fst km =? GLFW_KEY_SPACE)%Z; cbn [List.length]; lia.
Qed.

Lemma press_keys_current (keys : list (Z * Z)) (st : St) :
  (views_size st < SIZE_MAX1)%N ->
  (current_view_ st < views_size st)%N ->
  current_view_ (press_keys keys st) =
    ((current_view_ st + spaces keys) mod views_size st)%N.
Proof.
  unfold press_keys. revert st.
  induction keys as [|km keys IH]; intros st Hs Hc.
  - cbn [fold_left]. unfold spaces; cbn. rewrite N.add_0_r.
    symmetry. now apply N.mod_small.
  - cbn [fold_left]. rewrite spaces_cons.
    set (st' := snd (key_press_event (fst km) (snd km) st)).
    assert (Hsz : views_size st' = views_size st)
      by apply key_press_event_size.
    assert (Hcur : current_view_ st' =
                   ((current_view_ st
                     + (if (fst km =? GLFW_KEY_SPACE)%Z then 1 else 0))
                    mod views_size st)%N).
    { unfold st'. rewrite key_press_event_current.
      assert (Hz : views_size st <> 0%N) by lia.
      apply N.eqb_neq in Hz. rewrite Hz. cbn [negb]. rewrite andb_true_r.
      destruct (fst km =? GLFW_KEY_SPACE)%Z.
      - unfold size_rem, size_add. f_equal. apply N.mod_small. lia.
      - rewrite N.add_0_r. symmetry. now apply N.mod_small. }
    rewrite IH.
    + rewrite Hsz, Hcur. rewrite N.Div0.add_mod_idemp_l. f_equal. lia.
    + now rewrite Hsz.
    + rewrite Hsz, Hcur. apply N.mod_lt. lia.
Qed.

(** X4.  After any sequence of key presses the current view is the one at
    the start moved by the number of Space keys in the sequence, modulo the
    number of views: the other keys never move it, and as many Space keys
    as there are views lead back to the view at the start. *)
Theorem press_keys_current_view (keys : list (Z * Z)) (st : St) :
  (views_size st < SIZE_MAX1)%N ->
  (current_view_ st < views_size st)%N ->
  current_view_ (press_keys keys st) =
    ((current_view_ st + spaces keys) mod views_size st)%N /\
  (spaces keys = 0%N ->
     current_view_ (press_keys keys st) = current_view_ st) /\
  (spaces keys = views_size st ->
     current_view_ (press_keys keys st) = current_view_ st).
Proof.
  intros Hs Hc. rewrite (press_keys_current keys st Hs Hc).
  split; [reflexivity|]. split; intros ->.
  - rewrite N.add_0_r. now apply N.mod_small.
  - replace (current_view_ st + views_size st)%N
      with (current_view_ st + 1 * views_size st)%N by lia.
    rewrite N.Div0.mod_add. now apply N.mod_small.
Qed.

End Sequences.

Section Views.

Context {Viewer Texture : Type} {L : Library Viewer Texture}
        {Sc : Scene Viewer Texture}.

Local Abbreviation St := (State Viewer Texture).

Lemma load_image_texture (st : St) :
  texture_ (load_image st) =
    if is_file (image_file (current_view_ st))
    then Texture_create (image_file (current_view_ st))
    else texture_ st.
Proof.
  unfold load_image, image_file. destruct (is_file _); reflexivity.
Qed.

Lemma load_image_base (st : St) : base (load_image st) = update (base st).
Proof.
  unfold load_image. destruct (is_file _); reflexivity.
Qed.

Lemma load_image_out (st : St) : out (load_image st) = out st.
Proof.
  unfold load_image. destruct (is_file _); reflexivity.
Qed.

(** X5.  The Space key with a view present shows the next view: the
    current view becomes [i = (current_view_ + 1) % views_.size()], the
    viewer's camera is set from view [i] by method 2, the line
    "----- view i ------" is printed, the title becomes "RealCamera: View_i"
    and the window is resized to 0.3 times the size of image [i]. *)
Theorem space_shows_next_view (mods : Z) (st : St) :
  views_ st <> [] ->
  let i := size_rem (size_add (current_view_ st) 1) (views_size st) in
  let st' := snd (key_press_event GLFW_KEY_SPACE mods st) in
  exists cam,
    nth_error (views_ st) (N.to_nat i) = Some cam /\
    current_view_ st' = i /\
    camera_ st' = method2 cam (camera_ st) /\
    out st' = out st ++ [("----- view " ++ to_string i ++ " ------")%string] /\
    base st' =
      resize (scale_03 (w cam)) (scale_03 (h cam))
        (set_title ("RealCamera: View_" ++ to_string i) (update (base st))).
Proof.
  intros Hne i st'.
  destruct (views_in_range st i (next_view_in_range st Hne)) as [cam E].
  exists cam. split; [exact E|].
  unfold st'. rewrite (key_space_unfold mods st cam E). fold i.
  cbn [snd current_view_ camera_ out base with_base print with_camera].
  destruct (load_image_frame (with_current_view i st)) as (_ & Hc & _).
  rewrite Hc, load_image_out, load_image_base.
  repeat split; reflexivity.
Qed.

(** X6.  The image shown after the Space key is the one of the new current
    view when its file exists (whatever [Texture::create] returns for it);
    when the file does not exist the texture of the view before stays. *)
Theorem space_loads_image (mods : Z) (st : St) :
  views_ st <> [] ->
  let i := size_rem (size_add (current_view_ st) 1) (views_size st) in
  let st' := snd (key_press_event GLFW_KEY_SPACE mods st) in
  (is_file (image_file i) = true ->
     texture_ st' = Texture_create (image_file i)) /\
  (is_file (image_file i) = false -> texture_ st' = texture_ st).
Proof.
  intros Hne i st'.
  destruct (views_in_range st i (next_view_in_range st Hne)) as [cam E].
  unfold st'. rewrite (key_space_unfold mods st cam E). fold i.
  cbn [snd texture_ with_base print with_camera].
  rewrite load_image_texture.
  cbn [current_view_ with_current_view texture_].
  split; intros ->; reflexivity.
Qed.

(** X7.  The keys '1' and '2' show the current view again, by method 1 and
    by method 2: the current view stays, the viewer's camera is set from
    the current view ([set_from_calibration] with skew 0 for '1'), the line
    "----- view i ------" is printed and the window is resized; the title
    is not touched. *)
Theorem key_1_2_show_current_view (key mods : Z) (st : St)
    (cam : CameraPara) :
  key = GLFW_KEY_1 \/ key = GLFW_KEY_2 ->
  nth_error (views_ st) (N.to_nat (current_view_ st)) = Some cam ->
  let st' := snd (key_press_event key mods st) in
  current_view_ st' = current_view_ st /\
  (key = GLFW_KEY_1 ->
     camera_ st' =
       set_from_calibration (fx cam) (fy cam) 0 (cx cam) (cy cam)
         (mkvec3 (rx cam) (ry cam) (rz cam))
         (mkvec3 (tx cam) (ty cam) (tz cam)) (camera_ st)) /\
  (key = GLFW_KEY_2 -> camera_ st' = method2 cam (camera_ st)) /\
  out st' =
    out st ++ [("----- view " ++ to_string (current_view_ st)
                  ++ " ------")%string] /\
  base st' =
    update (resize (scale_03 (w cam)) (scale_03 (h cam))
              (update (base st))).
Proof.
  intros Hk E st'.
  assert (Hne : views_ st <> []).
  { intros Z. rewrite Z in E. now destruct (N.to_nat (current_view_ st)). }
  assert (Hst : st' = show_view (if (key =? GLFW_KEY_1)%Z then 1 else 2) st).
  { unfold st', key_press_event.
    destruct Hk as [-> | ->].
    - change (GLFW_KEY_1 =? GLFW_KEY_SPACE)%Z with false.
      rewrite Z.eqb_refl, (negb_size_nonempty st Hne). reflexivity.
    - change (GLFW_KEY_2 =? GLFW_KEY_SPACE)%Z with false.
      change (GLFW_KEY_2 =? GLFW_KEY_1)%Z with false.
      rewrite Z.eqb_refl, (negb_size_nonempty st Hne). reflexivity. }
  rewrite Hst, (show_view_unfold _ st cam E).
  cbn [current_view_ camera_ out base with_base print with_camera].
  destruct (load_image_frame st) as (_ & Hc & _).
  rewrite Hc, load_image_out, load_image_base.
  split; [reflexivity|]. split; [|split; [|split; reflexivity]].
  - intros ->. reflexivity.
  - intros ->. reflexivity.
Qed.

(** X8.  On an index that is out of range [KRT_to_camera] fails cleanly:
    it returns [false], prints one line with the index to [std::cerr] and
    changes nothing else: the camera passed is not written, no image is
    loaded and [update()] is not called. *)
Theorem KRT_to_camera_invalid_index (st : St) (i : N) (m : Z) (c : Camera) :
  (views_size st <= i)%N ->
  let r := KRT_to_camera st i m c in
  fst (fst r) = false /\
  snd (fst r) = c /\
  out (snd r) =
    out st ++ [("Error: invalid view index (" ++ to_string i ++ ")")%string] /\
  texture_ (snd r) = texture_ st /\
  base (snd r) = base st /\
  camera_ (snd r) = camera_ st /\
  views_ (snd r) = views_ st /\
  current_view_ (snd r) = current_view_ st.
Proof.
  intros Hi r. unfold r, KRT_to_camera.
  rewrite (index_check_true st i Hi). cbn. repeat split; reflexivity.
Qed.

(** X9.  The image a successful [KRT_to_camera] loads is the one of
    [current_view_], not the one of [view_index]: whatever the index in
    range, the method and the camera passed, the viewer is left in the state
    [load_image] gives, with the texture of the file numbered
    [current_view_] when that file exists and the texture before
    otherwise. *)
Theorem KRT_to_camera_loads_current_view (st : St) (i j : N) (m m' : Z)
    (c c' : Camera) :
  (i < views_size st)%N -> (j < views_size st)%N ->
  snd (KRT_to_camera st i m c) = load_image st /\
  snd (KRT_to_camera st i m c) = snd (KRT_to_camera st j m' c') /\
  texture_ (snd (KRT_to_camera st i m c)) =
    (if is_file (image_file (current_view_ st))
     then Texture_create (image_file (current_view_ st))
     else texture_ st).
Proof.
  intros Hi Hj.
  destruct (views_in_range st i Hi) as [cam E].
  destruct (views_in_range st j Hj) as [cam' E'].
  rewrite (KRT_to_camera_in_range st i m c cam E).
  rewrite (KRT_to_camera_in_range st j m' c' cam' E').
  cbn [snd]. rewrite load_image_texture. repeat split; reflexivity.
Qed.

End Views.

Section Method2.

Context {Viewer Texture : Type} {L : Library Viewer Texture}.

Local Abbreviation St := (State Viewer Texture).

Local Open Scope R_scope.

Lemma KRT_to_camera_method2 (st : St) (i : N) (c : Camera)
    (cam : CameraPara) :
  nth_error (views_ st) (N.to_nat i) = Some cam ->
  snd (fst (KRT_to_camera st i 2 c)) = method2 cam c.
Proof.
  intros E. rewrite (KRT_to_camera_in_range st i 2 c cam E). reflexivity.
Qed.

(** X12.  Method 2 reads [fx], [cx] and [cy] and does not use them: two
    views that differ only in the horizontal focal length, the principal
    point and the image width give the same camera. *)
Theorem method2_ignores_principal_point (st st' : St) (i i' : N)
    (c : Camera) (cam cam' : CameraPara) :
  nth_error (views_ st) (N.to_nat i) = Some cam ->
  nth_error (views_ st') (N.to_nat i') = Some cam' ->
  h cam = h cam' -> fy cam = fy cam' ->
  rx cam = rx cam' -> ry cam = ry cam' -> rz cam = rz cam' ->
  tx cam = tx cam' -> ty cam = ty cam' -> tz cam = tz cam' ->
  snd (fst (KRT_to_camera st i 2 c)) = snd (fst (KRT_to_camera st' i' 2 c)).
Proof.
  intros E E' Hh Hfy Hrx Hry Hrz Htx Hty Htz.
  rewrite (KRT_to_camera_method2 st i c cam E).
  rewrite (KRT_to_camera_method2 st' i' c cam' E').
  unfold method2. now rewrite Hh, Hfy, Hrx, Hry, Hrz, Htx, Hty, Htz.
Qed.

End Method2.

Section Cameras.

Context {Viewer Texture : Type} {L : Library Viewer Texture}
        {Sc : Scene Viewer Texture}.

Local Abbreviation St := (State Viewer Texture).

(** [load_image], any number of times. *)
Lemma load_images_frame (n : nat) (st : St) :
  views_ (Nat.iter n load_image st) = views_ st /\
  current_view_ (Nat.iter n load_image st) = current_view_ st /\
  camera_ (Nat.iter n load_image st) = camera_ st /\
  out (Nat.iter n load_image st) = out st.
Proof.
  induction n as [|n (Hv & Hc & Hm & Ho)]; [cbn; auto|].
  rewrite Nat.iter_succ.
  destruct (load_image_frame (Nat.iter n load_image st)) as (Hv' & Hc' & Hm').
  rewrite Hv', Hc', Hm'. repeat split; auto.
  unfold load_image. destruct (is_file _); cbn; exact Ho.
Qed.

Lemma load_images_texture (n : nat) (st : St) :
  texture_ (Nat.iter (S n) load_image st) =
    if is_file (image_file (current_view_ st))
    then Texture_create (image_file (current_view_ st))
    else texture_ st.
Proof.
  induction n as [|n IH].
  - rewrite Nat.iter_succ. apply load_image_texture.
  - rewrite Nat.iter_succ, load_image_texture.
    destruct (load_images_frame (S n) st) as (_ & Hc & _). rewrite Hc.
    destruct (is_file (image_file (current_view_ st))) eqn:F;
      [reflexivity|].
    exact IH.
Qed.

Lemma load_images_base (n : nat) (st : St) :
  base (Nat.iter n load_image st) = Nat.iter n update (base st).
Proof.
  induction n as [|n IH]; [reflexivity|].
  now rewrite !Nat.iter_succ, load_image_base, IH.
Qed.

Lemma frustum_camera (st st' : St) (v : CameraPara) :
  camera_ st' = camera_ st -> frustum st' v = frustum st v.
Proof.
  unfold frustum. now intros ->.
Qed.

Lemma skipn_nth_error {A : Type} (l : list A) (i : nat) (a : A) :
  nth_error l i = Some a -> skipn i l = a :: skipn (S i) l.
Proof.
  revert i; induction l as [|b l IH]; intros [|i] E; cbn in *;
    try discriminate.
  - now injection E as ->.
  - now apply IH.
Qed.

(** The loop visits the views from [i] on, one after the other, and leaves
    through its test. *)
Lemma cameras_loop_spec (fuel : nat) (i : N) (vertices : list vec3)
    (st : St) :
  (views_size st < SIZE_MAX1)%N ->
  (N.to_nat i <= List.length (views_ st))%nat ->
  (List.length (views_ st) - N.to_nat i < fuel)%nat ->
  cameras_loop fuel i vertices st =
    (vertices ++ flat_map (frustum st) (skipn (N.to_nat i) (views_ st)),
     Nat.iter (List.length (views_ st) - N.to_nat i) load_image st).
Proof.
  revert i vertices st.
  induction fuel as [|fuel IH]; intros i vertices st Hs Hi Hf; [lia|].
  cbn [cameras_loop]. unfold views_size in *.
  destruct (i <? N.of_nat (List.length (views_ st)))%N eqn:T.
  - apply N.ltb_lt in T.
    destruct (views_in_range st i T) as [v E].
    rewrite (KRT_to_camera_in_range st i 1 Camera_new v E).
    change (1 =? 1)%Z with true. cbv iota.
    destruct (load_image_frame st) as (Hv & Hc & Hm).
    rewrite Hv, E, Hm.
    assert (Hi1 : size_add i 1 = (i + 1)%N).
    { unfold size_add. apply N.mod_small. lia. }
    rewrite Hi1, IH; unfold views_size; rewrite ?Hv; try lia.
    replace (N.to_nat (i + 1)) with (S (N.to_nat i)) by lia.
    rewrite (skipn_nth_error _ _ _ E). cbn [flat_map].
    replace (List.length (views_ st) - N.to_nat i)%nat
      with (S (List.length (views_ st) - S (N.to_nat i)))%nat by lia.
    rewrite Nat.iter_succ_r.
    rewrite (flat_map_ext (frustum (load_image st)) (frustum st)
               (fun a => frustum_camera st (load_image st) a Hm)).
    rewrite <- app_assoc. reflexivity.
  - apply N.ltb_ge in T.
    replace (N.to_nat i) with (List.length (views_ st)) by lia.
    rewrite skipn_all, Nat.sub_diag, app_nil_r. reflexivity.
Qed.

(** Whatever the number of iterations, the loop leaves the views, the
    current view, the viewer's camera and the output alone. *)
Lemma cameras_loop_frame (fuel : nat) (i : N) (vertices : list vec3)
    (st : St) :
  let st' := snd (cameras_loop fuel i vertices st) in
  camera_ st' = camera_ st /\ views_ st' = views_ st /\
  current_view_ st' = current_view_ st /\ out st' = out st.
Proof.
  revert i vertices st.
  induction fuel as [|fuel IH]; intros i vertices st; [cbn; auto|].
  cbn [cameras_loop].
  destruct (i <? views_size st)%N eqn:T; [|cbn; auto].
  apply N.ltb_lt in T. destruct (views_in_range st i T) as [v E].
  rewrite (KRT_to_camera_in_range st i 1 Camera_new v E).
  destruct (load_image_frame st) as (Hv & Hc & Hm).
  rewrite Hv, E.
  destruct (IH (size_add i 1)
              (vertices ++
               map (mat4_mul
                      (worldMatrix
                         (if (1 =? 1)%Z
                          then set_from_calibration (fx v) (fy v) 0 (cx v)
                                 (cy v) (mkvec3 (rx v) (ry v) (rz v))
                                 (mkvec3 (tx v) (ty v) (tz v)) Camera_new
                          else if (1 =? 2)%Z then method2 v Camera_new
                          else Camera_new)))
                 (prepare_camera
                    (sceneRadius (camera_ (load_image st)) * (3 / 100))%R
                    (IZR (h v) / IZR (w v))%R))
              (load_image st)) as (A & B & C & D).
  cbv zeta in A, B, C, D |- *.
  rewrite A, B, C, D, Hv, Hc, Hm, load_image_out. auto.
Qed.

Lemma create_cameras_drawable_frame (st : St) :
  let st' := create_cameras_drawable st in
  camera_ st' = camera_ st /\ views_ st' = views_ st /\
  current_view_ st' = current_view_ st /\ out st' = out st.
Proof.
  unfold create_cameras_drawable.
  pose proof (cameras_loop_frame (S (List.length (views_ st))) 0 [] st) as H.
  destruct (cameras_loop _ _ _ _) as [vertices st1]. exact H.
Qed.

Lemma create_cameras_drawable_unfold (st : St) :
  (views_size st < SIZE_MAX1)%N ->
  let st1 := Nat.iter (List.length (views_ st)) load_image st in
  create_cameras_drawable st =
    with_base
      (fun _ =>
         set_line_width 2%R
           (set_default_color (mkvec3 0 0 1)
              (update_vertex_buffer (flat_map (frustum st) (views_ st))
                 match cameras_drawable_visible (base st1) with
                 | Some _ => base st1
                 | None => add_cameras_drawable (base st1)
                 end))) st1.
Proof.
  intros Hs st1. unfold create_cameras_drawable.
  rewrite cameras_loop_spec; cbn [N.to_nat]; try lia.
  cbn [app skipn]. rewrite Nat.sub_0_r. reflexivity.
Qed.

Lemma create_cameras_drawable_texture (st : St) :
  (views_size st < SIZE_MAX1)%N ->
  (views_ st = [] -> texture_ (create_cameras_drawable st) = texture_ st) /\
  (views_ st <> [] ->
     texture_ (create_cameras_drawable st) =
       if is_file (image_file (current_view_ st))
       then Texture_create (image_file (current_view_ st))
       else texture_ st).
Proof.
  intros Hs. rewrite (create_cameras_drawable_unfold st Hs).
  cbn [texture_ with_base]. split.
  - intros ->. reflexivity.
  - intros Hne. destruct (views_ st) as [|v vs] eqn:E; [congruence|].
    cbn [List.length]. apply load_images_texture.
Qed.

(** X13.  [create_cameras_drawable] fills the vertex buffer of the drawable
    "cameras" with the frusta of all the views, in the order of [views_]:
    for each view the points of [prepare_camera] moved by the world matrix
    of a fresh camera calibrated from that view.  The drawable is created
    when it is missing; with no view the buffer is empty. *)
Theorem create_cameras_drawable_vertices (st : St) :
  (views_size st < SIZE_MAX1)%N ->
  let b := Nat.iter (List.length (views_ st)) update (base st) in
  base (create_cameras_drawable st) =
    set_line_width 2%R
      (set_default_color (mkvec3 0 0 1)
         (update_vertex_buffer (flat_map (frustum st) (views_ st))
            match cameras_drawable_visible b with
            | Some _ => b
            | None => add_cameras_drawable b
            end)) /\
  (views_ st = [] ->
     base (create_cameras_drawable st) =
       set_line_width 2%R
         (set_default_color (mkvec3 0 0 1)
            (update_vertex_buffer []
               match cameras_drawable_visible (base st) with
               | Some _ => base st
               | None => add_cameras_drawable (base st)
               end))).
Proof.
  intros Hs b.
  rewrite (create_cameras_drawable_unfold st Hs).
  cbn [base with_base]. rewrite load_images_base. fold b.
  split; [reflexivity|].
  intros E. unfold b. rewrite E. reflexivity.
Qed.

(** X14.  [create_cameras_drawable] works on a camera of its own: the
    viewer's camera, the views and the current view are as before and
    nothing is printed.  It has one side effect on the members: since each
    view goes through [KRT_to_camera], the image of the current view is
    loaded (when there is a view and the file exists). *)
Theorem create_cameras_drawable_members (st : St) :
  (views_size st < SIZE_MAX1)%N ->
  let st' := create_cameras_drawable st in
  camera_ st' = camera_ st /\
  views_ st' = views_ st /\
  current_view_ st' = current_view_ st /\
  out st' = out st /\
  (views_ st = [] -> texture_ st' = texture_ st) /\
  (views_ st <> [] ->
     texture_ st' =
       if is_file (image_file (current_view_ st))
       then Texture_create (image_file (current_view_ st))
       else texture_ st).
Proof.
  intros Hs st'. unfold st'.
  destruct (create_cameras_drawable_frame st) as (Hm & Hv & Hc & Ho).
  destruct (create_cameras_drawable_texture st Hs) as (T0 & T1).
  repeat split; assumption.
Qed.

End Cameras.

Section Constructor.

Context {Viewer Texture : Type} {L : Library Viewer Texture}
        {Sc : Scene Viewer Texture}.

Local Abbreviation St := (State Viewer Texture).


End Constructor.

Section Lifetime.

Context {Viewer Texture : Type} {L : Library Viewer Texture}
        {Sc : Scene Viewer Texture}.

Local Abbreviation St := (State Viewer Texture).

(** X18.  The 'H' key shows or hides the camera frusta: with the drawable
    "cameras" present its visibility is negated and the window is updated;
    when [lines_drawable("cameras")] is null nothing happens.  In both cases
    the members of [RealCamera] stay as they are. *)
Theorem key_H_toggles_cameras (mods : Z) (st : St) :
  let st' := snd (key_press_event GLFW_KEY_H mods st) in
  (forall v, cameras_drawable_visible (base st) = Some v ->
     base st' = update (set_cameras_drawable_visible (negb v) (base st))) /\
  (cameras_drawable_visible (base st) = None -> st' = st) /\
  views_ st' = views_ st /\ current_view_ st' = current_view_ st /\
  camera_ st' = camera_ st /\ texture_ st' = texture_ st /\
  out st' = out st.
Proof.
  unfold key_press_event.
  change (GLFW_KEY_H =? GLFW_KEY_SPACE)%Z with false.
  change (GLFW_KEY_H =? GLFW_KEY_1)%Z with false.
  change (GLFW_KEY_H =? GLFW_KEY_2)%Z with false.
  rewrite Z.eqb_refl. cbv iota.
  destruct (cameras_drawable_visible (base st)) as [v|]; cbn.
  - repeat split; try reflexivity; try discriminate.
    intros v' E. now injection E as <-.
  - repeat split; try reflexivity. intros v E. discriminate E.
Qed.

(** What a key press does to the texture: it stays, or it is made from the
    image file of a view. *)
Lemma key_press_event_texture (key mods : Z) (st : St) :
  (views_ st <> [] -> (current_view_ st < views_size st)%N) ->
  let st' := snd (key_press_event key mods st) in
  texture_ st' = texture_ st \/
  exists i : N,
    (i < views_size st)%N /\ is_file (image_file i) = true /\
    texture_ st' = Texture_create (image_file i).
Proof.
  intros Hb st'.
  assert (Hshow : forall m, views_ st <> [] ->
            texture_ (show_view m st) = texture_ st \/
            exists i : N,
              (i < views_size st)%N /\ is_file (image_file i) = true /\
              texture_ (show_view m st) = Texture_create (image_file i)).
  { intros m Hne. destruct (views_in_range st _ (Hb Hne)) as [cam E].
    rewrite (show_view_unfold m st cam E).
    cbn [texture_ with_base print with_camera].
    rewrite load_image_texture.
    destruct (is_file (image_file (current_view_ st))) eqn:F; [|now left].
    right. exists (current_view_ st). auto. }
  destruct (list_eq_dec_nil (views_ st)) as [Hnil|Hne].
  - unfold st', key_press_event. rewrite (negb_size_empty st Hnil).
    destruct (key =? GLFW_KEY_SPACE)%Z; [now left|].
    destruct (key =? GLFW_KEY_1)%Z; [now left|].
    destruct (key =? GLFW_KEY_2)%Z; [now left|].
    destruct (key =? GLFW_KEY_H)%Z.
    + destruct (cameras_drawable_visible (base st)); now left.
    + destruct (Viewer_key_press_event key mods (base st)); now left.
  - destruct (key =? GLFW_KEY_SPACE)%Z eqn:K0.
    { apply Z.eqb_eq in K0. subst key.
      set (i := size_rem (size_add (current_view_ st) 1) (views_size st)).
      pose proof (next_view_in_range st Hne) as Hi. fold i in Hi.
      destruct (views_in_range st i Hi) as [cam E].
      unfold st'. rewrite (key_space_unfold mods st cam E). fold i.
      cbn [snd texture_ with_base print with_camera].
      rewrite load_image_texture.
      cbn [current_view_ with_current_view texture_].
      destruct (is_file (image_file i)) eqn:F; [|now left].
      right. exists i. auto. }
    unfold st', key_press_event. rewrite K0, (negb_size_nonempty st Hne).
    destruct (key =? GLFW_KEY_1)%Z; [now apply Hshow|].
    destruct (key =? GLFW_KEY_2)%Z; [now apply Hshow|].
    destruct (key =? GLFW_KEY_H)%Z.
    + destruct (cameras_drawable_visible (base st)); now left.
    + destruct (Viewer_key_press_event key mods (base st)); now left.
Qed.

Lemma key_press_event_in_range (key mods : Z) (st : St) :
  (views_ st <> [] -> (current_view_ st < views_size st)%N) ->
  views_ st <> [] ->
  (current_view_ (snd (key_press_event key mods st)) < views_size st)%N.
Proof.
  intros Hb Hne. rewrite key_press_event_current.
  destruct ((key =? GLFW_KEY_SPACE)%Z && _)%bool; [|now apply Hb].
  now apply next_view_in_range.
Qed.

Lemma press_keys_lifetime (keys : list (Z * Z)) (st : St) :
  (views_ st <> [] -> (current_view_ st < views_size st)%N) ->
  texture_from_view st ->
  views_ (press_keys keys st) = views_ st /\
  (views_ st <> [] ->
     (current_view_ (press_keys keys st) < views_size st)%N) /\
  texture_from_view (press_keys keys st).
Proof.
  unfold press_keys. revert st.
  induction keys as [|km keys IH]; intros st Hb Ht; cbn [fold_left]; auto.
  set (st' := snd (key_press_event (fst km) (snd km) st)).
  assert (Hv : views_ st' = views_ st) by apply key_press_event_views.
  assert (Hs : views_size st' = views_size st)
    by apply key_press_event_size.
  destruct (IH st') as (A & B & C).
  - rewrite Hv, Hs. now apply key_press_event_in_range.
  - destruct (key_press_event_texture (fst km) (snd km) st Hb)
      as [E | (i & Hi & F & E)]; fold st' in E.
    + destruct Ht as [Ht | (i & Hi & F & Ht)].
      * left. congruence.
      * right. exists i. rewrite Hs, E. auto.
    + right. exists i. rewrite Hs. auto.
  - split; [now rewrite A|]. split; [|exact C].
    intros Hne. rewrite <- Hs. apply B. now rewrite Hv.
Qed.

Lemma RealCamera_new_texture (title bundler_file cloud_file : string) :
  let st : St := RealCamera_new title bundler_file cloud_file in
  (views_size st < SIZE_MAX1)%N ->
  current_view_ st = 0%N /\ texture_from_view st.
Proof.
  intros st. unfold st, RealCamera_new.
  destruct (Viewer_new title) as [b0 cam0]. cbn [base].
  destruct (add_model cloud_file b0) as [ok b1].
  destruct ok; [|cbn; intros _; split; [reflexivity | now left]].
  cbn [views_ with_base].
  destruct (read_bundler_file bundler_file []) as [ok2 vs].
  destruct ok2; [|cbn; intros _; split; [reflexivity | now left]].
  match goal with
  | |- context [create_cameras_drawable ?s] => set (s3 := s)
  end.
  destruct (create_cameras_drawable_frame s3) as (Hm & Hv & Hc & Ho).
  unfold texture_from_view, views_size.
  cbn [views_ current_view_ texture_ with_camera].
  rewrite Hv, Hc. intros Hs. split; [reflexivity|].
  destruct (create_cameras_drawable_texture s3 Hs) as (T0 & T1).
  destruct (list_eq_dec_nil (views_ s3)) as [Hnil|Hne].
  - left. rewrite (T0 Hnil). reflexivity.
  - rewrite (T1 Hne).
    change (current_view_ s3) with 0%N. change (texture_ s3) with (@None Texture).
    destruct (is_file (image_file 0)) eqn:F; [|now left].
    right. exists 0%N. split; [|auto].
    apply views_size_pos in Hne. exact Hne.
Qed.

(** X19.  From the constructor on, through any sequence of key presses:
    the views are those read at construction, the current view is an index
    of [views_] (when there is a view), and the texture is null or the one
    made from the existing image file of some view; no texture comes from
    anywhere else. *)
Theorem viewer_lifetime (title bundler_file cloud_file : string)
    (keys : list (Z * Z)) :
  let st0 : St := RealCamera_new title bundler_file cloud_file in
  let st := press_keys keys st0 in
  (views_size st0 < SIZE_MAX1)%N ->
  views_ st = views_ st0 /\
  (views_ st0 <> [] -> (current_view_ st < views_size st)%N) /\
  texture_from_view st.
Proof.
  intros st0 st Hs.
  destruct (RealCamera_new_texture title bundler_file cloud_file Hs)
    as (H0 & Ht). fold st0 in H0, Ht.
  destruct (press_keys_lifetime keys st0) as (A & B & C); auto.
  - intros Hne. rewrite H0. now apply views_size_pos.
  - fold st in A, B, C. split; [exact A|]. split; [|exact C].
    intros Hne. unfold views_size. rewrite A. now apply B.
Qed.

End Lifetime.

Section Image.

Context {Viewer Texture : Type} {L : Library Viewer Texture}
        {Sc : Scene Viewer Texture}.

Local Abbreviation St := (State Viewer Texture).

(** X16.  [draw_image] draws nothing exactly when there is no texture or
    no shader program for the quad (the manager has none and none can be
    created from the files). *)
Theorem draw_image_nothing (st : St) :
  draw_image st = Nothing <-> texture_ st = None \/ quad_program = None.
Proof.
  unfold draw_image.
  destruct (texture_ st) as [t|]; [|split; auto].
  destruct quad_program as [p|]; [|split; auto].
  split.
  - destruct (fdiv _ _) as [ia|]; [|discriminate].
    destruct (fdiv _ _) as [va|]; [|discriminate].
    destruct (Qlt_le_dec ia va); [discriminate|].
    destruct (fdiv _ _); discriminate.
  - intros [H|H]; discriminate H.
Qed.

End Image.

(** ** The theorems on concrete viewers *)

Local Abbreviation three_views := (state_of [view_x; view_0; view_x] 0).

Lemma key_press_event_handled_witness :
  fst (key_press_event (L := bare_library) GLFW_KEY_H 0 three_views) = true.
Proof.
  apply (key_press_event_handled (L := bare_library)). auto.
Defined.

Lemma key_press_event_other_key_witness :
  current_view_ (snd (key_press_event (L := bare_library) 65 0 three_views))
    = 0%N.
Proof.
  assert (N0 : 65%Z <> GLFW_KEY_SPACE) by discriminate.
  assert (N1 : 65%Z <> GLFW_KEY_1) by discriminate.
  assert (N2 : 65%Z <> GLFW_KEY_2) by discriminate.
  assert (N3 : 65%Z <> GLFW_KEY_H) by discriminate.
  destruct (key_press_event_other_key (L := bare_library) 65 0 three_views
              N0 N1 N2 N3) as (_ & _ & _ & H & _).
  exact H.
Defined.

Lemma key_press_event_no_views_witness :
  key_press_event (L := bare_library) GLFW_KEY_SPACE 0 (state_of [] 0)
    = (true, state_of [] 0).
Proof.
  apply (key_press_event_no_views (L := bare_library)); auto.
Defined.

Lemma press_keys_current_view_witness :
  current_view_
    (press_keys (L := bare_library)
       [(GLFW_KEY_SPACE, 0); (GLFW_KEY_1, 0); (GLFW_KEY_SPACE, 0);
        (GLFW_KEY_H, 0); (GLFW_KEY_SPACE, 0)]%Z three_views) = 0%N.
Proof.
  assert (Hs : (views_size three_views < SIZE_MAX1)%N) by reflexivity.
  assert (Hc : (current_view_ three_views < views_size three_views)%N)
    by reflexivity.
  destruct (press_keys_current_view (L := bare_library)
              [(GLFW_KEY_SPACE, 0); (GLFW_KEY_1, 0); (GLFW_KEY_SPACE, 0);
               (GLFW_KEY_H, 0); (GLFW_KEY_SPACE, 0)]%Z three_views Hs Hc)
    as (_ & _ & H).
  apply H. reflexivity.
Defined.

Lemma space_shows_next_view_witness :
  exists cam,
    nth_error [view_x; view_0; view_x] 1 = Some cam /\
    current_view_
      (snd (key_press_event (L := bare_library) GLFW_KEY_SPACE 0
              three_views)) = 1%N.
Proof.
  destruct (space_shows_next_view (L := bare_library) 0 three_views)
    as (cam & E & H & _); [discriminate|].
  exists cam. split; [exact E | exact H].
Defined.

Lemma space_loads_image_witness :
  texture_ (snd (key_press_event (L := window_library) GLFW_KEY_SPACE 0
                   (window_state [view_x; view_0] 0 None)))
    = Some (3072, 2048)%Z.
Proof.
  destruct (space_loads_image (L := window_library) 0
              (window_state [view_x; view_0] 0 None)) as (H & _);
    [discriminate|].
  apply H. reflexivity.
Defined.

Lemma key_1_2_show_current_view_witness :
  current_view_
    (snd (key_press_event (L := bare_library) GLFW_KEY_2 0 three_views))
    = 0%N.
Proof.
  destruct (key_1_2_show_current_view (L := bare_library) GLFW_KEY_2 0
              three_views view_x) as (H & _); auto.
Defined.

Lemma KRT_to_camera_invalid_index_witness :
  fst (fst (KRT_to_camera (L := bare_library) three_views 3 2 camera_0))
    = false /\
  snd (fst (KRT_to_camera (L := bare_library) three_views 3 2 camera_0))
    = camera_0.
Proof.
  destruct (KRT_to_camera_invalid_index (L := bare_library) three_views 3 2
              camera_0) as (A & B & _).
  - unfold views_size; cbn; lia.
  - split; [exact A | exact B].
Defined.

Lemma KRT_to_camera_loads_current_view_witness :
  snd (KRT_to_camera (L := window_library)
         (window_state [view_x; view_0] 0 None) 1 1 camera_0)
  = snd (KRT_to_camera (L := window_library)
           (window_state [view_x; view_0] 0 None) 0 2 camera_0).
Proof.
  destruct (KRT_to_camera_loads_current_view (L := window_library)
              (window_state [view_x; view_0] 0 None) 1 0 1 2
              camera_0 camera_0) as (_ & H & _);
    [reflexivity | reflexivity | exact H].
Defined.

Lemma method2_ignores_principal_point_witness :
  snd (fst (KRT_to_camera (L := bare_library)
              (state_of [mkCameraPara 4 3 1 1 0 0 1 0 0 0 0 0] 0)
              0 2 camera_0))
  = snd (fst (KRT_to_camera (L := bare_library)
                (state_of [mkCameraPara 8 3 2 1 5 7 1 0 0 0 0 0] 0)
                0 2 camera_0)).
Proof.
  apply (method2_ignores_principal_point (L := bare_library)
           _ _ 0 0 camera_0 (mkCameraPara 4 3 1 1 0 0 1 0 0 0 0 0)
           (mkCameraPara 8 3 2 1 5 7 1 0 0 0 0 0)); reflexivity.
Defined.

Lemma create_cameras_drawable_vertices_witness :
  win_cameras
    (base (create_cameras_drawable (L := window_library)
             (Sc := window_scene)
             (window_state [view_x; view_0] 0 None))) = Some true.
Proof.
  destruct (create_cameras_drawable_vertices (L := window_library)
              (Sc := window_scene) (window_state [view_x; view_0] 0 None))
    as (H & _); [reflexivity|].
  rewrite H. reflexivity.
Defined.

Lemma create_cameras_drawable_members_witness :
  texture_ (create_cameras_drawable (L := window_library)
              (Sc := window_scene) (window_state [view_x; view_0] 0 None))
    = Some (3072, 2048)%Z.
Proof.
  destruct (create_cameras_drawable_members (L := window_library)
              (Sc := window_scene) (window_state [view_x; view_0] 0 None))
    as (_ & _ & _ & _ & _ & H); [reflexivity|].
  rewrite H; [reflexivity | discriminate].
Defined.


Lemma draw_image_nothing_witness :
  draw_image (Sc := cloudless_scene)
    (window_state [view_x] 0 (Some (3072, 2048)%Z)) = Nothing.
Proof.
  apply (draw_image_nothing (Sc := cloudless_scene)).
  right. reflexivity.
Defined.

Lemma key_H_toggles_cameras_witness :
  win_cameras
    (base (snd (key_press_event (L := window_library) GLFW_KEY_H 0
                  (mkState (mkWindow 800 600 (Some true)) camera_0
                     [view_x] 0 None [])))) = Some false.
Proof.
  destruct (key_H_toggles_cameras (L := window_library) 0
              (mkState (mkWindow 800 600 (Some true)) camera_0
                 [view_x] 0 None [])) as (H & _).
  rewrite (H true eq_refl). reflexivity.
Defined.

Lemma viewer_lifetime_witness :
  views_ (press_keys (L := window_library)
            [(GLFW_KEY_SPACE, 0); (GLFW_KEY_2, 0)]%Z
            (RealCamera_new (L := window_library) (Sc := window_scene)
               "RealCamera" "bundle.out" "cloud.ply"))
  = [view_x; view_0].
Proof.
  assert (Hs : (views_size
                  (RealCamera_new (L := window_library)
                     (Sc := window_scene)
                     "RealCamera" "bundle.out" "cloud.ply")
                < SIZE_MAX1)%N) by reflexivity.
  destruct (viewer_lifetime (L := window_library) (Sc := window_scene)
              "RealCamera" "bundle.out" "cloud.ply"
              [(GLFW_KEY_SPACE, 0); (GLFW_KEY_2, 0)]%Z Hs) as (H & _).
  rewrite H. reflexivity.
Defined.

End RealCameraSceneFacts.
